(** * latexdiff-tools: a shallow embedding of [latexdiffcite.py] and
    [tex_concatenator.py]

    Python [str] values are lists of Unicode code points.  The regular
    expressions of the two scripts are written as syntax trees and run by a
    backtracking matcher with the priorities of Python's [re] module (leftmost
    alternative first, greedy before lazy); [re.search], [re.sub] and
    [re.finditer] are scans over that matcher. *)

From Stdlib Require Import String Ascii Decimal DecimalString DecimalNat.
From Stdlib Require Import List NArith Bool Arith Lia.
Import ListNotations.

(** ** Python strings *)

Module PyStr.

Definition char := N.
Definition text := list char.

(** The text of an ASCII literal of the source. *)
Definition str (s : string) : text :=
  List.map N_of_ascii (list_ascii_of_string s).

Definition NL : char := 10%N.
Definition BSL : char := 92%N.
Definition DQUOTE : char := 34%N.

(** [str.isspace] on one character, which is also the class [\s] of a
    [str] pattern. *)
Definition isspace (c : char) : bool :=
  ((9 <=? c) && (c <=? 13) || (28 <=? c) && (c <=? 32) || (c =? 133) || (c =? 160)
   || (c =? 5760) || (8192 <=? c) && (c <=? 8202) || (c =? 8232) || (c =? 8233)
   || (c =? 8239) || (c =? 8287) || (c =? 12288))%N.

Fixpoint text_eqb (a b : text) : bool :=
  match a, b with
  | [], [] => true
  | x :: a', y :: b' => N.eqb x y && text_eqb a' b'
  | _, _ => false
  end.

(** [s.startswith(p)] *)
Fixpoint startswith (p s : text) : bool :=
  match p, s with
  | [], _ => true
  | x :: p', y :: s' => N.eqb x y && startswith p' s'
  | _ :: _, [] => false
  end.

(** [s.endswith(p)] *)
Definition endswith (p s : text) : bool :=
  startswith (rev p) (rev s).

(** [s.lstrip()], [s.rstrip()] and [s.strip()] with no argument. *)
Fixpoint lstrip (s : text) : text :=
  match s with
  | c :: s' => if isspace c then lstrip s' else s
  | [] => []
  end.

Definition rstrip (s : text) : text := rev (lstrip (rev s)).

Definition strip (s : text) : text := rstrip (lstrip s).

(** [s.split(sep)] for a separator of one character. *)
Fixpoint split (sep : char) (s : text) : list text :=
  match s with
  | [] => [[]]
  | c :: s' =>
      if N.eqb c sep then [] :: split sep s'
      else match split sep s' with
           | l :: ls => (c :: l) :: ls
           | [] => [[c]]
           end
  end.

(** [sep.join(parts)] *)
Fixpoint join (sep : text) (parts : list text) : text :=
  match parts with
  | [] => []
  | [p] => p
  | p :: ps => p ++ sep ++ join sep ps
  end.

(** [s.replace(old, new)]: the occurrences of [old] are found from the left
    and do not overlap.  [skip] counts the characters of the occurrence being
    replaced that are still to be passed over. *)
Fixpoint replace_from (old new s : text) (skip : nat) : text :=
  match s with
  | [] => []
  | c :: s' =>
      match skip with
      | S n => replace_from old new s' n
      | O =>
          if startswith old s
          then new ++ replace_from old new s' (length old - 1)
          else c :: replace_from old new s' 0
      end
  end.

(** An empty [old] matches between all characters and at both ends. *)
Definition replace (old new s : text) : text :=
  match old with
  | [] => new ++ flat_map (fun c => c :: new) s
  | _ :: _ => replace_from old new s 0
  end.

End PyStr.
Import PyStr.

(** ** The fragment of [re] the scripts use *)

Module Re.

(** Every quantifier of the scripts' patterns ([*], [+], [*?]) is applied to
    a single character or character class, so [Rep] carries a class. *)
Inductive regex : Type :=
| Eps
| Chr (c : char)
| Cls (p : char -> bool)
| Cat (r1 r2 : regex)
| Alt (r1 r2 : regex)
| Opt (r : regex)
| Rep (lazy : bool) (p : char -> bool)
| Grp (n : nat) (r : regex)
| Ahead (r : regex).

(** A literal, [p+], [p+?]. *)
Fixpoint Lit (s : text) : regex :=
  match s with
  | [] => Eps
  | c :: s' => Cat (Chr c) (Lit s')
  end.

Definition Rep1 (lazy : bool) (p : char -> bool) : regex :=
  Cat (Cls p) (Rep lazy p).

Definition groups := list (nat * text).

Fixpoint group (n : nat) (g : groups) : option text :=
  match g with
  | [] => None
  | (m, t) :: g' => if Nat.eqb m n then Some t else group n g'
  end.

Definition set_group (n : nat) (t : text) (g : groups) : groups := (n, t) :: g.

Definition kont := text -> groups -> option (text * groups).

Fixpoint rep_greedy (p : char -> bool) (k : kont) (s : text) (g : groups)
  : option (text * groups) :=
  match s with
  | c :: s' =>
      if p c
      then match rep_greedy p k s' g with
           | Some x => Some x
           | None => k s g
           end
      else k s g
  | [] => k s g
  end.

Fixpoint rep_lazy (p : char -> bool) (k : kont) (s : text) (g : groups)
  : option (text * groups) :=
  match k s g with
  | Some x => Some x
  | None =>
      match s with
      | c :: s' => if p c then rep_lazy p k s' g else None
      | [] => None
      end
  end.

(** The backtracking matcher, in continuation-passing style: [run r k s g]
    matches [r] at the start of [s] and hands the rest to [k]; when [k]
    refuses, the next way of matching [r] is tried, in Python's order. *)
Fixpoint run (r : regex) (k : kont) (s : text) (g : groups)
  : option (text * groups) :=
  match r with
  | Eps => k s g
  | Chr c =>
      match s with
      | x :: s' => if N.eqb x c then k s' g else None
      | [] => None
      end
  | Cls p =>
      match s with
      | x :: s' => if p x then k s' g else None
      | [] => None
      end
  | Cat a b => run a (run b k) s g
  | Alt a b =>
      match run a k s g with
      | Some x => Some x
      | None => run b k s g
      end
  | Opt a =>
      match run a k s g with
      | Some x => Some x
      | None => k s g
      end
  | Rep false p => rep_greedy p k s g
  | Rep true p => rep_lazy p k s g
  | Grp n a =>
      run a (fun s' g' => k s' (set_group n (firstn (length s - length s') s) g')) s g
  | Ahead a =>
      match run a (fun s' g' => Some (s', g')) s g with
      | Some (_, g') => k s g'
      | None => None
      end
  end.

(** The last continuation.  After an empty match the next one may not be
    empty at the same place ([adv]). *)
Definition accept (adv : bool) (s0 : text) : kont :=
  fun s g =>
    if adv && Nat.eqb (length s) (length s0) then None else Some (s, g).

(** A match object: group 0 and the numbered groups. *)
Record mobj : Type := MObj { whole : text; caps : groups }.

(** [m.group(n)] for a group that took part in the match. *)
Definition mgroup (n : nat) (m : mobj) : text :=
  match n with
  | O => whole m
  | _ => match group n (caps m) with Some t => t | None => [] end
  end.

(** A match anchored at the start of [s]: the match object and the rest. *)
Definition match_at (r : regex) (adv : bool) (s : text) : option (mobj * text) :=
  match run r (accept adv s) s [] with
  | Some (rest, g) => Some (MObj (firstn (length s - length rest) s) g, rest)
  | None => None
  end.

(** [re.search]: the text before the match, the match, the text after it. *)
Fixpoint search (r : regex) (s : text) : option (text * mobj * text) :=
  match match_at r false s with
  | Some (m, rest) => Some ([], m, rest)
  | None =>
      match s with
      | [] => None
      | c :: s' =>
          match search r s' with
          | Some (pre, m, rest) => Some (c :: pre, m, rest)
          | None => None
          end
      end
  end.

(** The scan shared by [re.sub] and [re.finditer]: the text cut into
    unmatched characters and matches, from the left. *)
Inductive piece : Type :=
| Keep (c : char)
| Hit (m : mobj).

Fixpoint scan (r : regex) (s : text) (skip : nat) : list piece :=
  match skip with
  | S n =>
      match s with
      | _ :: s' => scan r s' n
      | [] => []
      end
  | O =>
      let keep := match s with [] => [] | c :: s' => Keep c :: scan r s' 0 end in
      let pass (k : nat) :=
        match k, s with S n, _ :: s' => scan r s' n | _, _ => keep end in
      match match_at r false s with
      | None => keep
      | Some (m, _) =>
          Hit m ::
          match whole m with
          | _ :: _ => pass (length (whole m))
          | [] =>
              match match_at r true s with
              | Some (m', _) => Hit m' :: pass (length (whole m'))
              | None => keep
              end
          end
      end
  end.

Definition finditer (r : regex) (s : text) : list mobj :=
  flat_map (fun p => match p with Hit m => [m] | Keep _ => [] end) (scan r s 0).

(** Replacement templates: [\] is a backslash, a backslash and a digit a
    group reference; the templates of the scripts use no other escape. *)
Inductive titem : Type :=
| TLit (c : char)
| TGroup (n : nat).

Definition digit_val (c : char) : option nat :=
  if ((48 <=? c) && (c <=? 57))%N then Some (N.to_nat (c - 48)) else None.

Fixpoint parse_template (t : text) : list titem :=
  match t with
  | [] => []
  | c :: t' =>
      if N.eqb c BSL then
        match t' with
        | d :: t'' =>
            if N.eqb d BSL then TLit BSL :: parse_template t''
            else match digit_val d with
                 | Some n => TGroup n :: parse_template t''
                 | None => TLit c :: parse_template t'
                 end
        | [] => [TLit c]
        end
      else TLit c :: parse_template t'
  end.

Definition expand (tpl : list titem) (m : mobj) : text :=
  flat_map (fun i => match i with TLit c => [c] | TGroup n => mgroup n m end) tpl.

(** [re.sub(pattern, repl, s)] for a template string [repl]. *)
Definition sub (r : regex) (repl : text) (s : text) : text :=
  flat_map (fun p => match p with Keep c => [c] | Hit m => expand (parse_template repl) m end)
           (scan r s 0).

(** A sequence of sub-patterns. *)
Definition Seq (rs : list regex) : regex := fold_right Cat Eps rs.

(** Character classes: [\s], [.] under [re.DOTALL], [.] without it,
    [[^c]]. *)
Definition ws : char -> bool := isspace.
Definition any : char -> bool := fun _ => true.
Definition dot : char -> bool := fun c => negb (N.eqb c NL).
Definition just (c : char) : char -> bool := fun x => N.eqb x c.
Definition non (c : char) : char -> bool := fun x => negb (N.eqb x c).

(** [\d] of a [str] pattern: the decimal digits of Unicode (category Nd,
    Unicode 14), as inclusive ranges of code points. *)
Definition decimal_ranges : list (N * N) :=
  [ (48, 57); (1632, 1641); (1776, 1785); (1984, 1993); (2406, 2415);
    (2534, 2543); (2662, 2671); (2790, 2799); (2918, 2927); (3046, 3055);
    (3174, 3183); (3302, 3311); (3430, 3439); (3558, 3567); (3664, 3673);
    (3792, 3801); (3872, 3881); (4160, 4169); (4240, 4249); (6112, 6121);
    (6160, 6169); (6470, 6479); (6608, 6617); (6784, 6793); (6800, 6809);
    (6992, 7001); (7088, 7097); (7232, 7241); (7248, 7257); (42528, 42537);
    (43216, 43225); (43264, 43273); (43472, 43481); (43504, 43513);
    (43600, 43609); (44016, 44025); (65296, 65305); (66720, 66729);
    (68912, 68921); (69734, 69743); (69872, 69881); (69942, 69951);
    (70096, 70105); (70384, 70393); (70736, 70745); (70864, 70873);
    (71248, 71257); (71360, 71369); (71472, 71481); (71904, 71913);
    (72016, 72025); (72784, 72793); (73040, 73049); (73120, 73129);
    (92768, 92777); (92864, 92873); (93008, 93017); (120782, 120831);
    (123200, 123209); (123632, 123641); (125264, 125273);
    (130032, 130041) ]%N.

Definition digit (c : char) : bool :=
  existsb (fun r => (fst r <=? c) && (c <=? snd r))%N decimal_ranges.

End Re.
Import Re.

(** ** latexdiffcite.py *)

Module LatexDiffCite.

(** [r'\\begin{thebibliography}.*?\\end{thebibliography}'] with [re.DOTALL] *)
Definition bibliography_re : regex :=
  Seq [Lit (str "\begin{thebibliography}"); Rep true any;
       Lit (str "\end{thebibliography}")].

Definition extract_bibliography (t : text) : text :=
  match search bibliography_re t with
  | Some (_, m, _) => mgroup 0 m
  | None => []
  end.

(** [r'\\begin{thebibliography}{(\d+)}'] *)
Definition enumeration_re : regex :=
  Seq [Lit (str "\begin{thebibliography}{"); Grp 1 (Rep1 false digit);
       Chr 125%N].

(** [rf'\\begin{{thebibliography}}{{{final_num}}}'], the template string. *)
Definition enumeration_repl (final_num : text) : text :=
  str "\\begin{thebibliography}{" ++ final_num ++ str "}".

(** [None] is the [AttributeError] of [.group(1)] on a failed search. *)
Definition fix_bibliography_enumeration (bib_text final_bib_text : text)
  : option text :=
  match search enumeration_re final_bib_text with
  | None => None
  | Some (_, m, _) =>
      Some (sub enumeration_re (enumeration_repl (mgroup 1 m)) bib_text)
  end.

(** The patterns of [clean_difcommands], in the order of its [re.sub] calls:
    [\\DIFdelend\s*\\DIFaddbegin\s*\\?begin{thebibliography}],
    [\\DIFaddbegin\s*\n*], [\s*\\DIFaddend\s*\n*], [\\DIFdelbegin\s*\n*],
    [\s*\\DIFdelend\s*\n*], [(\\DIFadd{[^}]*})\s*\n\s*],
    [(\\DIFdel{[^}]*})\s*\n\s*], [\s+], [\\begin\s+{], [\\end\s+{]. *)
Definition delend_addbegin_re : regex :=
  Seq [Lit (str "\DIFdelend"); Rep false ws; Lit (str "\DIFaddbegin");
       Rep false ws; Opt (Chr BSL); Lit (str "begin{thebibliography}")].

(** [\\NAME\s*\n*] *)
Definition opening_re (name : text) : regex :=
  Seq [Lit (BSL :: name); Rep false ws; Rep false (just NL)].

(** [\s*\\NAME\s*\n*] *)
Definition closing_re (name : text) : regex :=
  Seq [Rep false ws; Lit (BSL :: name); Rep false ws; Rep false (just NL)].

(** [(\\NAME{[^}]*})\s*\n\s*] *)
Definition broken_re (name : text) : regex :=
  Seq [Grp 1 (Seq [Lit (BSL :: name); Chr 123%N; Rep false (non 125%N); Chr 125%N]);
       Rep false ws; Chr NL; Rep false ws].

Definition spaces_re : regex := Rep1 false ws.

(** [\\NAME\s+{] *)
Definition spaced_brace_re (name : text) : regex :=
  Seq [Lit (BSL :: name); Rep1 false ws; Chr 123%N].

Definition difcommand_steps : list (regex * text) :=
  [ (delend_addbegin_re, str "\\begin{thebibliography}");
    (opening_re (str "DIFaddbegin"), str "\\DIFaddbegin ");
    (closing_re (str "DIFaddend"), str " \\DIFaddend ");
    (opening_re (str "DIFdelbegin"), str "\\DIFdelbegin ");
    (closing_re (str "DIFdelend"), str " \\DIFdelend ");
    (broken_re (str "DIFadd"), str "\1 ");
    (broken_re (str "DIFdel"), str "\1 ");
    (spaces_re, str " ");
    (spaced_brace_re (str "begin"), str "\\begin{");
    (spaced_brace_re (str "end"), str "\\end{") ].

(** The ten [re.sub] calls, in order. *)
Definition clean_difcommands (t : text) : text :=
  fold_left (fun acc step => sub (fst step) (snd step) acc) difcommand_steps t.

(** What [subprocess.run] gave: a completed process, or an exception. *)
Inductive run_result : Type :=
| Completed (returncode : nat) (stdout stderr : text)
| LaunchError (message : text).

(** How [process_files] ends. *)
Inductive outcome : Type :=
| Returned (diff_text : text)
| SysExit (code : nat) (stderr : text)
| Uncaught (exception : text).

Definition process_files (latexdiff : run_result) (new_file : option text)
  : outcome :=
  match latexdiff with
  | LaunchError e => SysExit 1 (str "Unexpected error: " ++ e ++ [NL])
  | Completed (S _) _ err =>
      SysExit 1 (str "Error running latexdiff: " ++ err ++ [NL])
  | Completed O diff_text _ =>
      match new_file with
      | None => Uncaught (str "OSError")
      | Some new_text =>
          let diff_bib := extract_bibliography diff_text in
          let new_bib := extract_bibliography new_text in
          let fixed :=
            match diff_bib, new_bib with
            | _ :: _, _ :: _ =>
                match fix_bibliography_enumeration diff_bib new_bib with
                | None => None
                | Some fixed_bib =>
                    Some (replace diff_bib (clean_difcommands fixed_bib) diff_text)
                end
            | _, _ => Some diff_text
            end in
          match fixed with
          | None => Uncaught (str "AttributeError")
          | Some diff_text =>
              let diff_text := clean_difcommands diff_text in
              Returned (if endswith [NL] diff_text then diff_text
                        else diff_text ++ [NL])
          end
      end
  end.

(** [main]: the text written to standard output, the text written to the
    error stream (of a traceback only the exception is kept) and the exit
    status.  [latexdiff] and [read] stand for the program run and the file
    read by [process_files]. *)
Definition usage : text :=
  str "Usage: latexdiffcite.py old_file.tex new_file.tex" ++ [NL].

Definition main (argv : list text) (latexdiff : text -> text -> run_result)
    (read : text -> option text) : text * text * nat :=
  match argv with
  | [_; old_file; new_file] =>
      match process_files (latexdiff old_file new_file) (read new_file) with
      | Returned result => (result, [], 0)
      | SysExit code err => ([], err, code)
      | Uncaught exception => ([], exception, 1)
      end
  | _ => (usage, [], 1)
  end.

End LatexDiffCite.
Import LatexDiffCite.

(** ** tex_concatenator.py *)

(** Paths are texts, read the way [pathlib] reads a POSIX path and written
    the way it prints one; the empty text stands for the path [.]. *)
Module PyPath.

Definition SLASH : char := 47%N.
Definition DOT : char := 46%N.

(** The root of a path: [//] for exactly two leading slashes, [/] for one
    or for more than two, nothing for a relative path. *)
Definition root (s : text) : text :=
  match s with
  | c1 :: s1 =>
      if N.eqb c1 SLASH then
        match s1 with
        | c2 :: s2 =>
            if N.eqb c2 SLASH then
              match s2 with
              | c3 :: _ => if N.eqb c3 SLASH then [SLASH] else [SLASH; SLASH]
              | [] => [SLASH; SLASH]
              end
            else [SLASH]
        | [] => [SLASH]
        end
      else []
  | [] => []
  end.

(** The components: the pieces between slashes, but for the empty ones and
    the ones that are [.]. *)
Definition is_component (x : text) : bool :=
  match x with
  | [] => false
  | [c] => negb (N.eqb c DOT)
  | _ :: _ :: _ => true
  end.

Definition components (s : text) : list text :=
  filter is_component (split SLASH s).

(** [str(path)] for a root and components. *)
Definition format_parts (r : text) (parts : list text) : text :=
  r ++ join [SLASH] parts.

(** [p / rel]: an absolute [rel] replaces [p]. *)
Definition joinpath (p rel : text) : text :=
  if startswith [SLASH] rel then format_parts (root rel) (components rel)
  else format_parts (root p) (components p ++ components rel).

(** [p.name] of a path as it is printed: the last component, empty for a
    root and for [.]. *)
Definition name (p : text) : text := last (split SLASH p) [].

(** [p.parent]: the root is its own parent, and so is [.]. *)
Definition parent (p : text) : text :=
  format_parts (root p) (removelast (components p)).

(** The place of the suffix: [i = name.rfind('.')] with
    [0 < i < len(name) - 1], counted from the end of the name. *)
Fixpoint rfind_dot (rev_name : text) (seen : nat) : option nat :=
  match rev_name with
  | [] => None
  | c :: rest =>
      if N.eqb c DOT
      then match rest, seen with
           | _ :: _, S _ => Some (S seen)
           | _, _ => None
           end
      else rfind_dot rest (S seen)
  end.

Definition suffix (p : text) : text :=
  let n := name p in
  match rfind_dot (rev n) 0 with
  | Some k => skipn (length n - k) n
  | None => []
  end.

Definition stem (p : text) : text :=
  let n := name p in
  match rfind_dot (rev n) 0 with
  | Some k => firstn (length n - k) n
  | None => n
  end.

(** [p.with_name(n)] and [p.with_stem(s)] for a path that has a name and a
    new name of one component, which is how [get_unique_filename] is called
    on [output_dir / target_name]. *)
Definition with_name (p new_name : text) : text := joinpath (parent p) new_name.

Definition with_stem (p new_stem : text) : text := with_name p (new_stem ++ suffix p).

(** [p.with_suffix(s)] for a suffix [s] that starts with a dot and holds no
    slash; [None] is the [ValueError] raised for a path with an empty
    name. *)
Definition with_suffix (p new_suffix : text) : option text :=
  match name p with
  | [] => None
  | _ :: _ => Some (with_name p (stem p ++ new_suffix))
  end.

End PyPath.

(** [str(n)] *)
Definition decimal_text (n : nat) : text :=
  str (NilEmpty.string_of_uint (Nat.to_uint n)).

Module TexConcatenator.

Import PyPath.

(** *** The file system *)

Inductive node : Type :=
| File (content : text)
| Dir.

(** The first binding of a path is the one in force. *)
Definition fsys := list (text * node).

Fixpoint lookup (p : text) (fs : fsys) : option node :=
  match fs with
  | [] => None
  | (q, n) :: fs' => if text_eqb q p then Some n else lookup p fs'
  end.

(** [p.exists()] *)
Definition path_exists (fs : fsys) (p : text) : bool :=
  match lookup p fs with Some _ => true | None => false end.

(** [p.read_text()]: the decoded text of a file ([None]: an exception).  The
    fallback from UTF-8 to Latin-1 is part of the decoding and is not
    modelled. *)
Definition read_text (fs : fsys) (p : text) : option text :=
  match lookup p fs with Some (File c) => Some c | _ => None end.

(** [shutil.copy(src, dst)] for a [dst] that is no directory. *)
Definition shutil_copy (src dst : text) (fs : fsys) : option fsys :=
  match lookup src fs with
  | Some (File c) => Some ((dst, File c) :: fs)
  | _ => None
  end.

(** *** transform_accents *)

Definition accent_map : list (char * text) :=
  [ (225, str "{\'a}"); (233, str "{\'e}"); (237, str "{\'i}");
    (243, str "{\'o}"); (250, str "{\'u}"); (193, str "{\'A}");
    (201, str "{\'E}"); (205, str "{\'I}"); (211, str "{\'O}");
    (218, str "{\'U}"); (241, str "{\~n}"); (209, str "{\~N}");
    (252, str "{\" ++ DQUOTE :: str "u}"); (220, str "{\" ++ DQUOTE :: str "U}");
    (246, str "{\" ++ DQUOTE :: str "o}"); (214, str "{\" ++ DQUOTE :: str "O}");
    (228, str "{\" ++ DQUOTE :: str "a}"); (196, str "{\" ++ DQUOTE :: str "A}") ]%N.

Definition transform_accents (t : text) : text :=
  fold_left (fun acc kv => replace [fst kv] (snd kv) acc) accent_map t.

(** *** process_file *)

(** [r'\\(input|include)\{(.*?)\}'] *)
Definition include_re : regex :=
  Seq [Chr BSL; Grp 1 (Alt (Lit (str "input")) (Lit (str "include")));
       Chr 123%N; Grp 2 (Rep true dot); Chr 125%N].

(** [not line.strip()] *)
Definition is_blank (line : text) : bool :=
  match strip line with [] => true | _ :: _ => false end.

(** [line.lstrip().startswith('%')] *)
Definition is_commented (line : text) : bool :=
  startswith (str "%") (lstrip line).

(** [line[:len(line) - len(line.lstrip())]] *)
Definition indent_of (line : text) : text :=
  firstn (length line - length (lstrip line)) line.

(** [(file_path.parent / include_file).with_suffix('.tex')] *)
Definition include_path (file_path include_file : text) : option text :=
  with_suffix (joinpath (parent file_path) include_file) (str ".tex").

(** The outcome of one line of the loop: the lines appended to
    [processed_lines] and the lines printed, or [None] for an exception.
    [recur] is [process_file] on an included file. *)
Definition process_line (fs : fsys) (recur : text -> option (text * list text))
    (file_path line : text) : option (list text * list text) :=
  if is_blank line then Some ([line], [])
  else if is_commented line then Some ([line], [])
  else
    match search include_re line with
    | Some (_, m, _) =>
        let indent := indent_of line in
        match include_path file_path (mgroup 2 m) with
        | None => None
        | Some target =>
            if path_exists fs target then
              match recur target with
              | Some (included_content, printed) =>
                  Some (map (fun l => indent ++ l) (split NL included_content),
                        printed)
              | None => None
              end
            else
              Some ([line],
                    [str "Warning: Could not find included file: " ++ target])
        end
    | None => Some ([line], [])
    end.

Fixpoint process_lines (fs : fsys) (recur : text -> option (text * list text))
    (file_path : text) (lines : list text) : option (list text * list text) :=
  match lines with
  | [] => Some ([], [])
  | line :: rest =>
      match process_line fs recur file_path line with
      | None => None
      | Some (out, printed) =>
          match process_lines fs recur file_path rest with
          | None => None
          | Some (outs, printeds) => Some (out ++ outs, printed ++ printeds)
          end
      end
  end.

(** The text returned and the lines printed; [None] when an exception ends
    the call or the includes nest deeper than [depth]. *)
Fixpoint process_file (fs : fsys) (depth : nat) (file_path : text)
  : option (text * list text) :=
  match depth with
  | O => None
  | S depth' =>
      match read_text fs file_path with
      | None => None
      | Some content =>
          let content := transform_accents content in
          match process_lines fs (process_file fs depth') file_path
                  (split NL content) with
          | None => None
          | Some (processed_lines, printed) =>
              Some (join [NL] processed_lines, printed)
          end
      end
  end.

(** *** reorder_bibliography *)

Definition bib_definitions : text :=
  str "\makeatletter
\providecommand \@ifxundefined [1]{%
 \@ifx{#1\undefined}
}%
\providecommand \@ifnum [1]{%
 \ifnum #1\expandafter \@firstoftwo
 \else \expandafter \@secondoftwo
 \fi
}%
\providecommand \@ifx [1]{%
 \ifx #1\expandafter \@firstoftwo
 \else \expandafter \@secondoftwo
 \fi
}%
\providecommand \natexlab [1]{#1}%
\providecommand \enquote  [1]{``#1''}%
\providecommand \bibnamefont  [1]{#1}%
\providecommand \bibfnamefont [1]{#1}%
\providecommand \citenamefont [1]{#1}%
\providecommand \href@noop [0]{\@secondoftwo}%
\providecommand \href [0]{\begingroup \@sanitize@url \@href}%
\providecommand \@href[1]{\@@startlink{#1}\@@href}%
\providecommand \@@href[1]{\endgroup#1\@@endlink}%
\providecommand \@sanitize@url [0]{\catcode `\\12\catcode `\$12\catcode
  `\&12\catcode `\#12\catcode `\^12\catcode `\_12\catcode `\%12\relax}%
\providecommand \@@startlink[1]{}%
\providecommand \@@endlink[0]{}%
\providecommand \url  [0]{\begingroup\@sanitize@url \@url }%
\providecommand \@url [1]{\endgroup\@href {#1}{\urlprefix }}%
\providecommand \urlprefix  [0]{URL }%
\providecommand \Eprint [0]{\href }%
\providecommand \doibase [0]{https://doi.org/}%
\providecommand \selectlanguage [0]{\@gobble}%
\providecommand \bibinfo  [0]{\@secondoftwo}%
\providecommand \bibfield  [0]{\@secondoftwo}%
\providecommand \translation [1]{[#1]}%
\providecommand \BibitemOpen [0]{}%
\providecommand \bibitemStop [0]{}%
\providecommand \bibitemNoStop [0]{.\EOS\space}%
\providecommand \EOS [0]{\spacefactor3000\relax}%
\providecommand \BibitemShut  [1]{\csname bibitem#1\endcsname}%
\let\auto@bib@innerbib\@empty
%</preamble>
".

(** [r'\\bibitem\s*(?:\[[^]]*\])?\s*\{([^}]+)\}(.*?)(?=\\bibitem|\s*\\end\{thebibliography\})']
    with [re.DOTALL] *)
Definition bibitem_re : regex :=
  Seq [Lit (str "\bibitem"); Rep false ws;
       Opt (Seq [Chr 91%N; Rep false (non 93%N); Chr 93%N]); Rep false ws;
       Chr 123%N; Grp 1 (Rep1 false (non 125%N)); Chr 125%N;
       Grp 2 (Rep true any);
       Ahead (Alt (Lit (str "\bibitem"))
                  (Seq [Rep false ws; Lit (str "\end{thebibliography}")]))].

(** [r'\\begin\{thebibliography\}\{[^}]*\}'] *)
Definition begin_re : regex :=
  Seq [Lit (str "\begin{thebibliography}{"); Rep false (non 125%N); Chr 125%N].

(** A [dict] with [str] keys, in insertion order. *)
Definition dict := list (text * text).

Fixpoint dict_set (k v : text) (d : dict) : dict :=
  match d with
  | [] => [(k, v)]
  | (k', v') :: d' =>
      if text_eqb k' k then (k', v) :: d' else (k', v') :: dict_set k v d'
  end.

Fixpoint dict_get (k : text) (d : dict) : option text :=
  match d with
  | [] => None
  | (k', v) :: d' => if text_eqb k' k then Some v else dict_get k d'
  end.

Definition bibitem_dict (bbl_content : text) : dict :=
  fold_left (fun d m => dict_set (mgroup 1 m) (strip (mgroup 2 m)) d)
            (finditer bibitem_re bbl_content) [].

(** [enumerate(l, 1)] *)
Definition enumerate1 (l : list text) : list (nat * text) :=
  combine (seq 1 (length l)) l.

(** The entries appended to [new_bbl]: number (if any), key and body. *)
Definition ordered_items (fix_reference_numbers : bool) (d : dict)
    (citations : list text) : list (option nat * text * text) :=
  match fix_reference_numbers, citations with
  | true, _ :: _ =>
      flat_map (fun ik =>
                  match dict_get (snd ik) d with
                  | Some body => [(Some (fst ik), snd ik, body)]
                  | None => []
                  end)
               (enumerate1 citations)
  | _, _ => map (fun kv => (None, fst kv, snd kv)) d
  end.

(** The two f-strings. *)
Definition bibitem_text (item : option nat * text * text) : text :=
  match item with
  | (Some i, cite_key, body) =>
      str "\bibitem [{" ++ decimal_text i ++ str "}] {" ++ cite_key ++ str "}" ++ body
  | (None, cite_key, body) =>
      str "\bibitem {" ++ cite_key ++ str "}" ++ body
  end.

Definition reorder_bibliography (fix_reference_numbers : bool)
    (bbl_content : text) (citations : list text) : text :=
  match search begin_re bbl_content with
  | None => bbl_content
  | Some (_, begin_match, _) =>
      join [NL]
        ([bib_definitions; mgroup 0 begin_match]
         ++ map bibitem_text
              (ordered_items fix_reference_numbers (bibitem_dict bbl_content)
                 citations)
         ++ [str "\end{thebibliography}"])
  end.

(** *** process_bibliography *)

(** [r'\\bibliography\{.*?\}'], [r'\\cite\{([^}]+)\}'], and the first
    pattern again between two captured runs of white space (groups 1 and 2). *)
Definition bibliography_cmd_re : regex :=
  Seq [Lit (str "\bibliography{"); Rep true dot; Chr 125%N].

Definition cite_re : regex :=
  Seq [Lit (str "\cite{"); Grp 1 (Rep1 false (non 125%N)); Chr 125%N].

Definition spaced_bibliography_re : regex :=
  Seq [Grp 1 (Rep false ws); Lit (str "\bibliography{"); Rep true dot;
       Chr 125%N; Grp 2 (Rep false ws)].

(** [x in seen] *)
Definition mem (x : text) (seen : list text) : bool := existsb (text_eqb x) seen.

(** [[x for x in citations if not (x in seen or seen.add(x))]] *)
Fixpoint dedup_from (seen : list text) (l : list text) : list text :=
  match l with
  | [] => []
  | x :: l' =>
      if mem x seen then dedup_from seen l' else x :: dedup_from (x :: seen) l'
  end.

(** The citation keys of a document, in the order they are first cited. *)
Definition cited_keys (content : text) : list text :=
  dedup_from []
    (flat_map (fun m => map strip (split 44%N (mgroup 1 m)))
              (finditer cite_re content)).

(** [generated] is what [generate_bbl_content] returned. *)
Definition process_bibliography (fix_reference_numbers : bool)
    (generated content : text) : text * list text :=
  match search bibliography_cmd_re content with
  | None => (content, [])
  | Some _ =>
      match generated with
      | [] => (content, [str "Warning: Could not generate bibliography"])
      | _ :: _ =>
          let bbl_content :=
            reorder_bibliography fix_reference_numbers generated
              (cited_keys content) in
          match search spaced_bibliography_re content with
          | Some (_, full_match, _) =>
              (replace (mgroup 0 full_match)
                 (mgroup 1 full_match ++ bbl_content ++ mgroup 2 full_match)
                 content, [])
          | None => (content, [])
          end
      end
  end.

(** *** get_unique_filename and copy_bibliography *)

(** The [while True] loop from [counter]; [tries] bounds the iterations. *)
Fixpoint first_free (fs : fsys) (target_path : text) (tries counter : nat)
  : option text :=
  match tries with
  | O => None
  | S tries' =>
      let new_name :=
        with_stem target_path (stem target_path ++ str "_" ++ decimal_text counter) in
      if negb (path_exists fs new_name) then Some new_name
      else first_free fs target_path tries' (S counter)
  end.

Definition get_unique_filename_within (tries : nat) (fs : fsys)
    (target_path : text) : option text :=
  if negb (path_exists fs target_path) then Some target_path
  else first_free fs target_path tries 1.

(** One more try than there are files is always enough (see
    [get_unique_filename_total]). *)
Definition get_unique_filename (fs : fsys) (target_path : text) : option text :=
  get_unique_filename_within (S (length fs)) fs target_path.

(** [r'\\bibliography\{(.*?)\}'] *)
Definition bibliography_files_re : regex :=
  Seq [Lit (str "\bibliography{"); Grp 1 (Rep true dot); Chr 125%N].

(** The state of the loops: the file system, [renamed_files] and the lines
    printed. *)
Record copying : Type :=
  Copying { files : fsys; renamed_files : list text; printed : list text }.

(** The body of [for bib_file in bib_files]. *)
Definition copy_bib_file (project_dir output_dir : text) (st : copying)
    (bib_file : text) : option copying :=
  let bib_file := strip bib_file in
  let bib_paths :=
    [joinpath project_dir bib_file; joinpath project_dir (bib_file ++ str ".bib")] in
  match find (path_exists (files st)) bib_paths with
  | Some bib_path =>
      let target_name :=
        if text_eqb (suffix bib_path) (str ".bib") then name bib_path
        else name bib_path ++ str ".bib" in
      let target_path := joinpath output_dir target_name in
      match get_unique_filename (files st) target_path with
      | None => None
      | Some actual_target =>
          match shutil_copy bib_path actual_target (files st) with
          | None => None
          | Some fs' =>
              Some (Copying fs'
                      (renamed_files st ++ [stem actual_target])
                      (printed st ++
                       [str "Copied bibliography file to: " ++ actual_target]))
          end
      end
  | None =>
      Some (Copying (files st) (renamed_files st)
              (printed st ++
               [str "Warning: Could not find bibliography file: " ++ bib_file]))
  end.

Fixpoint copy_bib_files (project_dir output_dir : text) (st : copying)
    (bib_files : list text) : option copying :=
  match bib_files with
  | [] => Some st
  | bib_file :: rest =>
      match copy_bib_file project_dir output_dir st bib_file with
      | None => None
      | Some st' => copy_bib_files project_dir output_dir st' rest
      end
  end.

(** The body of [for match in bib_matches], on the content so far. *)
Definition copy_bib_match (project_dir output_dir : text)
    (acc : text * fsys * list text) (m : mobj) : option (text * fsys * list text) :=
  let '(content, fs, out) := acc in
  match copy_bib_files project_dir output_dir (Copying fs [] out)
          (split 44%N (mgroup 1 m)) with
  | None => None
  | Some st =>
      match renamed_files st with
      | [] => Some (content, files st, printed st)
      | _ :: _ =>
          let new_bib :=
            str "\bibliography{" ++ join (str ",") (renamed_files st) ++ str "}" in
          Some (replace (mgroup 0 m) new_bib content, files st, printed st)
      end
  end.

Fixpoint copy_bib_matches (project_dir output_dir : text)
    (acc : text * fsys * list text) (ms : list mobj)
  : option (text * fsys * list text) :=
  match ms with
  | [] => Some acc
  | m :: rest =>
      match copy_bib_match project_dir output_dir acc m with
      | None => None
      | Some acc' => copy_bib_matches project_dir output_dir acc' rest
      end
  end.

(** The content returned, the file system left and the lines printed; the
    matches are those of the content as it was passed in.  The dictionary
    [filename_map] is written and never read, and is left out. *)
Definition copy_bibliography (project_dir output_dir : text) (fs : fsys)
    (content : text) : option (text * fsys * list text) :=
  copy_bib_matches project_dir output_dir (content, fs, [])
    (finditer bibliography_files_re content).

End TexConcatenator.
Import PyPath TexConcatenator.

(** *** generate_bbl_content

    The function acts on the process: it creates a temporary directory,
    changes the working directory, runs programs and reads a file.  The world
    is the working directory, the lines printed and the rest (files,
    environment, child processes); an action returns a value or raises. *)

Module Process.

Inductive res (A : Type) : Type :=
| Ok (a : A)
| Raise (exception : text).
Arguments Ok {A} a.
Arguments Raise {A} exception.

Record world (R : Type) : Type :=
  World { cwd : text; stdout : list text; rest : R }.
Arguments World {R} cwd stdout rest.
Arguments cwd {R} w.
Arguments stdout {R} w.
Arguments rest {R} w.

Definition action (R A : Type) : Type := world R -> res A * world R.

Section Actions.
Context {R : Type}.

Definition ret {A} (a : A) : action R A := fun w => (Ok a, w).

Definition bind {A B} (m : action R A) (f : A -> action R B) : action R B :=
  fun w =>
    match m w with
    | (Ok a, w') => f a w'
    | (Raise e, w') => (Raise e, w')
    end.

(** [try: body finally: final] *)
Definition try_finally {A} (body : action R A) (final : action R unit)
  : action R A :=
  fun w =>
    let (r, w1) := body w in
    match final w1 with
    | (Ok _, w2) => (r, w2)
    | (Raise e, w2) => (Raise e, w2)
    end.

(** [try: body except exc: handler] *)
Definition try_except {A} (body : action R A) (exc : text)
    (handler : action R A) : action R A :=
  fun w =>
    match body w with
    | (Raise e, w1) => if text_eqb e exc then handler w1 else (Raise e, w1)
    | ok => ok
    end.

(** [os.getcwd()], [os.chdir(p)] for a directory that exists, [print]. *)
Definition getcwd : action R text := fun w => (Ok (cwd w), w).

Definition chdir (p : text) : action R unit :=
  fun w => (Ok tt, World p (stdout w) (rest w)).

Definition print (line : text) : action R unit :=
  fun w => (Ok tt, World (cwd w) (stdout w ++ [line]) (rest w)).

(** What the rest of the world does, given the working directory: it cannot
    change the working directory of this process. *)
Definition outside {A} (f : text -> R -> res A * R) : action R A :=
  fun w =>
    let (r, rest') := f (cwd w) (rest w) in
    (r, World (cwd w) (stdout w) rest').

End Actions.

Declare Scope action_scope.
Delimit Scope action_scope with action.
Notation "x <- m ;; k" := (bind m (fun x => k))
  (at level 61, m at next level, right associativity) : action_scope.
Notation "m ;; k" := (bind m (fun _ => k))
  (at level 61, right associativity) : action_scope.

End Process.

Module GenerateBbl.

Import Process.
Local Open Scope action_scope.

Section Generate.

(** The rest of the world and what it answers. *)
Variable R : Type.
(** [tempfile.TemporaryDirectory()]: entering gives the directory, leaving
    removes it. *)
Variable temporary_directory : text -> R -> res text * R.
Variable cleanup : text -> text -> R -> res unit * R.
(** [shutil.copytree(src, dst, dirs_exist_ok=True)] *)
Variable copytree : text -> text -> text -> R -> res unit * R.
(** [os.environ[k] = v] and [os.system(command)] *)
Variable setenv : text -> text -> text -> R -> res unit * R.
Variable system : text -> text -> R -> res nat * R.
(** [p.exists()] and [p.read_text(encoding='utf-8')] for a relative [p] *)
Variable exists_file : text -> text -> R -> res bool * R.
Variable read_file : text -> text -> R -> res text * R.

(** [self.project_dir], [self.tex_file.name], [self.tex_file.stem] *)
Variables project_dir tex_name tex_stem : text.

(** [with tempfile.TemporaryDirectory() as temp_dir: body] *)
Definition with_temporary_directory {A} (body : text -> action R A)
  : action R A :=
  temp_dir <- outside temporary_directory ;;
  try_finally (body temp_dir) (outside (cleanup temp_dir)).

(** [r'\\begin{thebibliography}.*?\\end{thebibliography}'] with [re.DOTALL] *)
Definition thebibliography_re : regex :=
  Seq [Lit (str "\begin{thebibliography}"); Rep true any;
       Lit (str "\end{thebibliography}")].

Definition pdflatex : text :=
  str "pdflatex -interaction=nonstopmode " ++ tex_name.

Definition compile_and_read : action R text :=
  outside (setenv (str "TEXEDIT") (str "false")) ;;
  outside (system pdflatex) ;;
  outside (system (str "bibtex " ++ tex_stem)) ;;
  outside (system pdflatex) ;;
  outside (system pdflatex) ;;
  let bbl_file := tex_stem ++ str ".bbl" in
  found <- outside (exists_file bbl_file) ;;
  if (found : bool) then
    try_except
      (bbl_content <- outside (read_file bbl_file) ;;
       match search thebibliography_re bbl_content with
       | Some (_, bib_match, _) => ret (mgroup 0 bib_match)
       | None => ret []
       end)
      (str "UnicodeDecodeError")
      (print (str "Warning: BBL file encoding issue") ;; ret [])
  else ret [].

Definition generate_bbl_content : action R text :=
  with_temporary_directory (fun temp_dir =>
    let copy := PyPath.joinpath temp_dir (PyPath.name project_dir) in
    outside (copytree project_dir copy) ;;
    original_dir <- getcwd ;;
    chdir copy ;;
    try_finally compile_and_read (chdir original_dir)).

End Generate.

End GenerateBbl.
(** ** Facts about the matcher *)

Module ReFacts.

(** The words a pattern can match, whatever the captures; a lookahead
    consumes nothing. *)
Fixpoint lang (r : regex) (w : text) : Prop :=
  match r with
  | Eps => w = []
  | Chr c => w = [c]
  | Cls p => exists c, w = [c] /\ p c = true
  | Cat a b => exists u v, w = u ++ v /\ lang a u /\ lang b v
  | Alt a b => lang a w \/ lang b w
  | Opt a => lang a w \/ w = []
  | Rep _ p => forallb p w = true
  | Grp _ a => lang a w
  | Ahead _ => w = []
  end.

Lemma rep_greedy_sound p (k : kont) s g res :
  rep_greedy p k s g = Some res ->
  exists w s', s = w ++ s' /\ forallb p w = true /\ k s' g = Some res.
Proof.
  induction s as [|c s IH]; simpl; intros H.
  - exists [], []. auto.
  - destruct (p c) eqn:Hc.
    + destruct (rep_greedy p k s g) eqn:Hr.
      * injection H as <-. destruct (IH eq_refl) as (w & s' & -> & Hw & Hk).
        exists (c :: w), s'. simpl. rewrite Hc, Hw. auto.
      * exists [], (c :: s). auto.
    + exists [], (c :: s). auto.
Qed.

Lemma rep_lazy_sound p (k : kont) s g res :
  rep_lazy p k s g = Some res ->
  exists w s', s = w ++ s' /\ forallb p w = true /\ k s' g = Some res.
Proof.
  induction s as [|c s IH]; simpl; intros H.
  - destruct (k [] g) eqn:Hk; [|discriminate].
    exists [], []. injection H as <-. auto.
  - destruct (k (c :: s) g) eqn:Hk.
    + injection H as <-. exists [], (c :: s). auto.
    + destruct (p c) eqn:Hc; [|discriminate].
      destruct (IH H) as (w & s' & -> & Hw & Hk').
      exists (c :: w), s'. simpl. rewrite Hc, Hw. auto.
Qed.

Lemma run_sound r : forall (k : kont) s g res,
  run r k s g = Some res ->
  exists w s' g', s = w ++ s' /\ lang r w /\ k s' g' = Some res.
Proof.
  induction r as [|c|p|a IHa b IHb|a IHa b IHb|a IHa|lz p|n a IHa|a IHa];
    simpl; intros k s g res H.
  - exists [], s, g. auto.
  - destruct s as [|x s]; [discriminate|].
    destruct (N.eqb_spec x c); [subst x|discriminate].
    exists [c], s, g. auto.
  - destruct s as [|x s]; [discriminate|].
    destruct (p x) eqn:Hp; [|discriminate].
    exists [x], s, g. eauto.
  - destruct (IHa _ _ _ _ H) as (u & s1 & g1 & -> & Hu & H1).
    destruct (IHb _ _ _ _ H1) as (v & s2 & g2 & -> & Hv & H2).
    exists (u ++ v), s2, g2. rewrite app_assoc. eauto 8.
  - destruct (run a k s g) eqn:Ha.
    + injection H as <-. destruct (IHa _ _ _ _ Ha) as (w & s' & g' & ? & ? & ?).
      exists w, s', g'. auto.
    + destruct (IHb _ _ _ _ H) as (w & s' & g' & ? & ? & ?).
      exists w, s', g'. auto.
  - destruct (run a k s g) eqn:Ha.
    + injection H as <-. destruct (IHa _ _ _ _ Ha) as (w & s' & g' & ? & ? & ?).
      exists w, s', g'. auto.
    + exists [], s, g. auto.
  - destruct lz.
    + destruct (rep_lazy_sound _ _ _ _ _ H) as (w & s' & ? & ? & ?). exists w, s', g. auto.
    + destruct (rep_greedy_sound _ _ _ _ _ H) as (w & s' & ? & ? & ?). exists w, s', g. auto.
  - destruct (IHa _ _ _ _ H) as (w & s' & g' & ? & ? & ?). eauto 8.
  - destruct (run a (fun s' g' => Some (s', g')) s g) as [[? g']|] eqn:Ha; [|discriminate].
    exists [], s, g'. auto.
Qed.

Lemma firstn_app_exact (w s : text) : firstn (length (w ++ s) - length s) (w ++ s) = w.
Proof.
  rewrite length_app. replace (length w + length s - length s) with (length w) by lia.
  rewrite firstn_app, Nat.sub_diag, firstn_all. simpl. apply app_nil_r.
Qed.

Lemma match_at_sound r adv s m rest :
  match_at r adv s = Some (m, rest) ->
  s = whole m ++ rest /\ lang r (whole m) /\ (adv = true -> whole m <> []).
Proof.
  unfold match_at. destruct (run r (accept adv s) s []) as [[rest' g]|] eqn:H; [|discriminate].
  intros E. injection E as <- <-.
  destruct (run_sound _ _ _ _ _ H) as (w & s' & g' & -> & Hw & Hk).
  unfold accept in Hk.
  destruct (adv && (length s' =? length (w ++ s'))) eqn:Ha; [discriminate|].
  injection Hk as <- <-. simpl. rewrite firstn_app_exact. repeat split; auto.
  intros -> ->. simpl in Ha. rewrite Nat.eqb_refl in Ha. discriminate.
Qed.

Lemma search_sound r s : forall pre m rest,
  search r s = Some (pre, m, rest) ->
  s = pre ++ whole m ++ rest /\ lang r (whole m) /\
  match_at r false (whole m ++ rest) = Some (m, rest).
Proof.
  induction s as [|c s IH]; simpl; intros pre m rest H.
  - destruct (match_at r false []) as [[m' rest']|] eqn:Hm; [|discriminate].
    injection H as <- <- <-. destruct (match_at_sound _ _ _ _ _ Hm) as (E & L & _).
    simpl. rewrite <- E. auto.
  - destruct (match_at r false (c :: s)) as [[m' rest']|] eqn:Hm.
    + injection H as <- <- <-. destruct (match_at_sound _ _ _ _ _ Hm) as (E & L & _).
      simpl. rewrite <- E. auto.
    + destruct (search r s) as [[[pre' m'] rest']|] eqn:Hs; [|discriminate].
      injection H as <- <- <-. destruct (IH _ _ _ eq_refl) as (E & L & M).
      simpl. rewrite <- E. auto.
Qed.

(** *** Equations of the scan *)

Definition keep_next (r : regex) (s : text) : list piece :=
  match s with [] => [] | c :: s' => Keep c :: scan r s' 0 end.

Lemma scan_0 r s :
  scan r s 0 =
  match match_at r false s with
  | None => keep_next r s
  | Some (m, _) =>
      Hit m ::
      match whole m with
      | _ :: _ => match s with _ :: s' => scan r s' (length (whole m) - 1) | [] => [] end
      | [] =>
          match match_at r true s with
          | Some (m', _) =>
              Hit m' :: match whole m', s with
                        | _ :: _, _ :: s' => scan r s' (length (whole m') - 1)
                        | _, _ => keep_next r s
                        end
          | None => keep_next r s
          end
      end
  end.
Proof.
  destruct s as [|c s]; simpl.
  - destruct (match_at r false []) as [[m rest]|]; [|reflexivity].
    destruct (whole m); [|reflexivity].
    destruct (match_at r true []) as [[m' rest']|]; [|reflexivity].
    destruct (whole m'); reflexivity.
  - destruct (match_at r false (c :: s)) as [[m rest]|]; [|reflexivity].
    destruct (whole m) as [|x w]; simpl.
    + destruct (match_at r true (c :: s)) as [[m' rest']|]; [|reflexivity].
      destruct (whole m'); simpl; [reflexivity|]. now rewrite Nat.sub_0_r.
    + now rewrite Nat.sub_0_r.
Qed.

Lemma scan_skip r : forall n s,
  n <= length s -> scan r s n = scan r (skipn n s) 0.
Proof.
  induction n as [|n IH]; intros s Hn; [reflexivity|].
  destruct s as [|c s]; simpl in Hn; [lia|].
  change (scan r (c :: s) (S n)) with (scan r s n).
  rewrite IH by lia. reflexivity.
Qed.

Lemma skipn_app_exact (w s : text) : skipn (length w) (w ++ s) = s.
Proof.
  rewrite skipn_app, skipn_all, Nat.sub_diag. reflexivity.
Qed.

(** A match that is not empty is followed by the scan of the rest. *)
Lemma scan_hit r s m rest :
  match_at r false s = Some (m, rest) -> whole m <> [] ->
  scan r s 0 = Hit m :: scan r rest 0.
Proof.
  intros H Hne. rewrite scan_0, H.
  destruct (match_at_sound _ _ _ _ _ H) as (E & _ & _).
  destruct (whole m) as [|x w] eqn:Hw; [congruence|].
  subst s. simpl. rewrite Nat.sub_0_r, scan_skip by (rewrite length_app; lia).
  now rewrite skipn_app_exact.
Qed.

Lemma scan_miss r c s :
  match_at r false (c :: s) = None ->
  scan r (c :: s) 0 = Keep c :: scan r s 0.
Proof. intros H. rewrite scan_0, H. reflexivity. Qed.

Lemma scan_end r :
  match_at r false [] = None -> scan r [] 0 = [].
Proof. intros H. rewrite scan_0, H. reflexivity. Qed.

(** Patterns that match no empty word. *)
Definition nonnull (r : regex) : Prop := forall w, lang r w -> w <> [].

Lemma nonnull_end r : nonnull r -> match_at r false [] = None.
Proof.
  intros Hr. destruct (match_at r false []) as [[m rest]|] eqn:H; [|reflexivity].
  destruct (match_at_sound _ _ _ _ _ H) as (E & L & _).
  symmetry in E. apply app_eq_nil in E. destruct E as [E _].
  now apply Hr in L.
Qed.

Definition render (tpl : list titem) (p : piece) : text :=
  match p with Keep c => [c] | Hit m => expand tpl m end.

Lemma sub_scan r repl s :
  sub r repl s = flat_map (render (parse_template repl)) (scan r s 0).
Proof. reflexivity. Qed.

Lemma sub_hit r repl s m rest :
  match_at r false s = Some (m, rest) -> whole m <> [] ->
  sub r repl s = expand (parse_template repl) m ++ sub r repl rest.
Proof. intros H Hne. rewrite !sub_scan, (scan_hit _ _ _ _ H Hne). reflexivity. Qed.

Lemma sub_miss r repl c s :
  match_at r false (c :: s) = None ->
  sub r repl (c :: s) = c :: sub r repl s.
Proof. intros H. rewrite !sub_scan, (scan_miss _ _ _ H). reflexivity. Qed.

Lemma sub_end r repl :
  match_at r false [] = None -> sub r repl [] = [].
Proof. intros H. rewrite sub_scan, (scan_end _ H). reflexivity. Qed.

(** An unmatched character of the scan is a character of the text. *)
Lemma scan_keep_in r c : forall s n, In (Keep c) (scan r s n) -> In c s.
Proof.
  induction s as [|x s IH]; intros n H.
  - destruct n; [|contradiction].
    rewrite scan_0 in H.
    destruct (match_at r false []) as [[m rest]|]; [|contradiction].
    destruct H as [H|H]; [discriminate|].
    destruct (whole m); [|contradiction].
    destruct (match_at r true []) as [[m' rest']|]; [|contradiction].
    destruct H as [H|H]; [discriminate|]. destruct (whole m'); contradiction.
  - assert (K : In (Keep c) (keep_next r (x :: s)) -> In c (x :: s)).
    { simpl. intros [E|E]; [injection E; auto|]. right. eapply IH, E. }
    destruct n as [|n]; [|right; eapply IH, H].
    rewrite scan_0 in H.
    destruct (match_at r false (x :: s)) as [[m rest]|]; [|auto].
    destruct H as [H|H]; [discriminate|].
    destruct (whole m).
    + destruct (match_at r true (x :: s)) as [[m' rest']|]; [|auto].
      destruct H as [H|H]; [discriminate|].
      destruct (whole m'); [auto|]. right. eapply IH, H.
    + right. eapply IH, H.
Qed.

(** The literal text of a template without escapes. *)
Lemma parse_template_plain t :
  ~ In BSL t -> parse_template t = map TLit t.
Proof.
  induction t as [|c t IH]; simpl; intros H; [reflexivity|].
  destruct (N.eqb_spec c BSL) as [->|Hc]; [tauto|].
  rewrite IH by tauto. reflexivity.
Qed.

Definition plain (tpl : list titem) : text :=
  flat_map (fun i => match i with TLit c => [c] | TGroup _ => [] end) tpl.

Definition closed (tpl : list titem) : bool :=
  forallb (fun i => match i with TLit _ => true | TGroup _ => false end) tpl.

Lemma expand_closed tpl m : closed tpl = true -> expand tpl m = plain tpl.
Proof.
  unfold expand, plain. induction tpl as [|[c|n] tpl IH]; simpl; intros H;
    [reflexivity| |discriminate].
  now rewrite IH.
Qed.

(** A substitution whose template names no group only moves characters of
    the text and of the template. *)
Lemma sub_closed_Forall (P : char -> Prop) r repl s :
  closed (parse_template repl) = true ->
  Forall P (plain (parse_template repl)) -> Forall P s ->
  Forall P (sub r repl s).
Proof.
  intros Hc Hr Hs. rewrite sub_scan. apply Forall_flat_map, Forall_forall.
  intros [c|m] Hin; simpl.
  - constructor; [|constructor]. rewrite Forall_forall in Hs.
    eapply Hs, scan_keep_in, Hin.
  - now rewrite expand_closed.
Qed.

(** *** Patterns that need a character the text does not have *)

Fixpoint mentions (c : char) (r : regex) : bool :=
  match r with
  | Chr x => N.eqb x c
  | Cat a b => mentions c a || mentions c b
  | Alt a b => mentions c a && mentions c b
  | Grp _ a => mentions c a
  | _ => false
  end.

Lemma lang_mentions c r : forall w, mentions c r = true -> lang r w -> In c w.
Proof.
  induction r as [|x|p|a IHa b IHb|a IHa b IHb|a IHa|lz p|n a IHa|a IHa];
    simpl; intros w Hm Hw; try discriminate.
  - apply N.eqb_eq in Hm. subst. simpl. auto.
  - destruct Hw as (u & v & -> & Hu & Hv). apply in_or_app.
    apply orb_true_iff in Hm. destruct Hm; [left|right]; auto.
  - apply andb_true_iff in Hm. destruct Hm, Hw; auto.
  - auto.
Qed.

Lemma match_at_absent c r adv s :
  mentions c r = true -> ~ In c s -> match_at r adv s = None.
Proof.
  intros Hm Hs. destruct (match_at r adv s) as [[m rest]|] eqn:H; [|reflexivity].
  destruct (match_at_sound _ _ _ _ _ H) as (E & L & _).
  exfalso. apply Hs. rewrite E. apply in_or_app. left.
  eapply lang_mentions; eauto.
Qed.

Lemma sub_absent c r repl s :
  mentions c r = true -> ~ In c s -> sub r repl s = s.
Proof.
  intros Hm. induction s as [|x s IH]; intros Hs.
  - apply sub_end. eapply match_at_absent; eauto.
  - rewrite sub_miss by (eapply match_at_absent; eauto).
    rewrite IH; [reflexivity|]. intros H. apply Hs. now right.
Qed.

(** *** [\s+] *)

Fixpoint skip_while (p : char -> bool) (s : text) : text :=
  match s with
  | c :: s' => if p c then skip_while p s' else s
  | [] => []
  end.

Lemma skip_while_length p s : length (skip_while p s) <= length s.
Proof. induction s as [|c s IH]; simpl; [lia|]. destruct (p c); simpl; lia. Qed.

Lemma rep_greedy_accept p s0 s g :
  rep_greedy p (accept false s0) s g = Some (skip_while p s, g).
Proof.
  induction s as [|c s IH]; simpl; [reflexivity|].
  destruct (p c); [|reflexivity]. now rewrite IH.
Qed.

Lemma spaces_match c s :
  isspace c = true ->
  exists m, match_at spaces_re false (c :: s) = Some (m, skip_while isspace s)
            /\ whole m <> [].
Proof.
  intros Hc. unfold match_at, spaces_re, Rep1. simpl run. unfold ws at 1. rewrite Hc.
  rewrite rep_greedy_accept. eexists. split; [reflexivity|].
  cbn [whole]. intros E.
  apply (f_equal (@length char)) in E. rewrite length_firstn in E.
  pose proof (skip_while_length ws s) as Hl. cbn [length] in E. lia.
Qed.

Lemma spaces_miss c s :
  isspace c = false -> match_at spaces_re false (c :: s) = None.
Proof.
  intros Hc. unfold match_at, spaces_re, Rep1. simpl run. unfold ws at 1. now rewrite Hc.
Qed.

Lemma spaces_end : match_at spaces_re false [] = None.
Proof. reflexivity. Qed.

Definition SP : char := 32%N.

(** The runs of white space of a text, each replaced by one space; [inside]
    says that the text continues a run. *)
Fixpoint squeeze (inside : bool) (s : text) : text :=
  match s with
  | [] => []
  | c :: s' =>
      if isspace c
      then if inside then squeeze true s' else SP :: squeeze true s'
      else c :: squeeze false s'
  end.

Lemma squeeze_skip s : squeeze true s = squeeze false (skip_while isspace s).
Proof.
  induction s as [|c s IH]; simpl; [reflexivity|].
  destruct (isspace c) eqn:Hc; [exact IH|]. simpl. now rewrite Hc.
Qed.

Lemma sub_spaces_squeeze s : sub spaces_re [SP] s = squeeze false s.
Proof.
  remember (length s) as n eqn:Hn. revert s Hn.
  induction n as [n IH] using lt_wf_ind. intros s Hn.
  destruct s as [|c s]; [now rewrite sub_end|].
  simpl squeeze. destruct (isspace c) eqn:Hc.
  - destruct (spaces_match c s Hc) as (m & Hm & Hne).
    rewrite (sub_hit _ _ _ _ _ Hm Hne). simpl.
    rewrite squeeze_skip. f_equal. eapply IH; [|reflexivity].
    subst n. pose proof (skip_while_length isspace s). simpl. lia.
  - rewrite sub_miss by now apply spaces_miss.
    f_equal. eapply IH; [|reflexivity]. subst n. simpl. lia.
Qed.

Lemma squeeze_idem s :
  squeeze false (squeeze false s) = squeeze false s /\
  squeeze true (squeeze true s) = squeeze true s.
Proof.
  induction s as [|c s [IHf IHt]]; simpl; [auto|].
  destruct (isspace c) eqn:Hc; simpl.
  - now rewrite IHt.
  - now rewrite Hc, IHf.
Qed.

(** After the squeeze the only white space is the space. *)
Lemma squeeze_spaces b s :
  Forall (fun c => isspace c = true -> c = SP) (squeeze b s).
Proof.
  revert b. induction s as [|c s IH]; intros b; simpl; [constructor|].
  destruct (isspace c) eqn:Hc.
  - destruct b; [apply IH|]. constructor; [reflexivity|apply IH].
  - constructor; [congruence|apply IH].
Qed.

Lemma squeeze_keeps (P : char -> Prop) b s :
  P SP -> Forall P s -> Forall P (squeeze b s).
Proof.
  intros Hsp. revert b. induction s as [|c s IH]; intros b H; simpl; [constructor|].
  inversion H; subst. destruct (isspace c); [destruct b|]; auto.
Qed.

(** *** Literals and sequences *)

Lemma lang_Lit s w : lang (Lit s) w <-> w = s.
Proof.
  revert w. induction s as [|c s IH]; simpl; intros w; [tauto|]. split.
  - intros (u & v & -> & -> & Hv). apply IH in Hv. now subst.
  - intros ->. exists [c], s. repeat split. now apply IH.
Qed.

Lemma run_Lit l k s g : run (Lit l) k (l ++ s) g = k s g.
Proof.
  induction l as [|c l IH]; simpl; [reflexivity|]. now rewrite N.eqb_refl.
Qed.

Lemma rep_greedy_app p k w s g x :
  forallb p w = true -> rep_greedy p k s g = Some x ->
  rep_greedy p k (w ++ s) g = Some x.
Proof.
  intros Hw Hs. induction w as [|c w IH]; simpl in *; [exact Hs|].
  apply andb_true_iff in Hw. destruct Hw as [Hc Hw]. now rewrite Hc, IH.
Qed.

Lemma absent_Forall (a : char) l : ~ In a l <-> Forall (fun c => c <> a) l.
Proof.
  rewrite Forall_forall. split.
  - intros H x Hx ->. contradiction.
  - intros H Hin. now apply (H a Hin).
Qed.

Lemma squeeze_absent a b s : a <> SP -> ~ In a s -> ~ In a (squeeze b s).
Proof.
  intros Ha. rewrite !absent_Forall. apply squeeze_keeps. congruence.
Qed.

(** *** White space and digits *)

Lemma isspace_cases c :
  isspace c = true ->
  (9 <= c <= 13 \/ 28 <= c <= 32 \/ c = 133 \/ c = 160 \/ c = 5760 \/
   8192 <= c <= 8202 \/ c = 8232 \/ c = 8233 \/ c = 8239 \/ c = 8287 \/
   c = 12288)%N.
Proof.
  unfold isspace.
  rewrite !orb_true_iff, !andb_true_iff, !N.leb_le, !N.eqb_eq. tauto.
Qed.

Lemma digit_range c :
  digit c = true -> exists lo hi, In (lo, hi) decimal_ranges /\ (lo <= c <= hi)%N.
Proof.
  unfold digit. intros H. apply existsb_exists in H.
  destruct H as ([lo hi] & Hin & H). apply andb_true_iff in H.
  rewrite !N.leb_le in H. simpl in H. eauto.
Qed.

Lemma digit_not_space c : digit c = true -> isspace c = false.
Proof.
  intros H. destruct (isspace c) eqn:E; [|reflexivity]. exfalso.
  apply isspace_cases in E. apply digit_range in H.
  destruct H as (lo & hi & Hin & Hc). unfold decimal_ranges in Hin.
  repeat (destruct Hin as [Hin|Hin]; [injection Hin as <- <-; lia|]).
  contradiction.
Qed.

Lemma digit_ge_48 c : digit c = true -> (48 <= c)%N.
Proof.
  intros H. apply digit_range in H.
  destruct H as (lo & hi & Hin & Hc). unfold decimal_ranges in Hin.
  repeat (destruct Hin as [Hin|Hin]; [injection Hin as <- <-; lia|]).
  contradiction.
Qed.

Lemma digit_not_symbol c :
  digit c = true -> c <> BSL /\ c <> 123%N /\ c <> 125%N.
Proof.
  intros H. apply digit_range in H.
  destruct H as (lo & hi & Hin & Hc). unfold decimal_ranges, BSL in *.
  repeat (destruct Hin as [Hin|Hin]; [injection Hin as <- <-; lia|]).
  contradiction.
Qed.

(** *** Occurrences *)

Definition occurs (m t : text) : Prop := exists pre post, t = pre ++ m ++ post.

Lemma occurs_app_l m a t : occurs m t -> occurs m (a ++ t).
Proof. intros (p & q & ->). exists (a ++ p), q. now rewrite app_assoc. Qed.

Lemma occurs_app_r m t b : occurs m t -> occurs m (t ++ b).
Proof. intros (p & q & ->). exists p, (q ++ b). now rewrite <- !app_assoc. Qed.

Lemma occurs_here m t : occurs m (m ++ t).
Proof. now exists [], t. Qed.

(** Two ways of cutting one text. *)
Lemma app_cut (a b c d : text) :
  a ++ b = c ++ d ->
  (exists e, c = a ++ e /\ b = e ++ d) \/
  (exists e, e <> [] /\ a = c ++ e /\ d = e ++ b).
Proof.
  revert c. induction a as [|x a IH]; intros c H; simpl in H.
  - left. exists c. auto.
  - destruct c as [|y c]; simpl in H.
    + right. exists (x :: a). subst d. split; [discriminate|auto].
    + injection H as <- H. destruct (IH _ H) as [(e & -> & ->)|(e & Hne & -> & ->)].
      * left. exists e. auto.
      * right. exists e. auto.
Qed.

(** *** A block of text that a substitution leaves whole

    [overlap r repl B]: a match of [r] never starts inside [B]; one that
    starts before [B] ends before it, or ends inside it with a replacement
    that gives back what it took of the block. *)
Definition clear_inside (r : regex) (B : text) : Prop :=
  forall B1 B2 s2, B = B1 ++ B2 -> B2 <> [] ->
    match_at r false (B2 ++ s2) = None.

Definition clear_before (r : regex) (repl B : text) : Prop :=
  forall s1 s2 m rest,
    match_at r false (s1 ++ B ++ s2) = Some (m, rest) ->
    whole m <> [] /\
    ((exists e, s1 = whole m ++ e) \/
     (exists P Q E, B = P ++ Q /\ whole m = s1 ++ P /\
                    expand (parse_template repl) m = E ++ P)).

Lemma sub_inside r repl B :
  clear_inside r B ->
  forall B2 B1 s2, B = B1 ++ B2 -> sub r repl (B2 ++ s2) = B2 ++ sub r repl s2.
Proof.
  intros Hin. induction B2 as [|c B2 IH]; intros B1 s2 E; [reflexivity|].
  cbn [app]. rewrite sub_miss.
  - f_equal. apply (IH (B1 ++ [c])). now rewrite <- app_assoc.
  - apply (Hin B1 (c :: B2) s2 E). discriminate.
Qed.

Lemma sub_keeps_block r repl B :
  clear_inside r B -> clear_before r repl B ->
  forall s1 s2, exists X, sub r repl (s1 ++ B ++ s2) = X ++ B ++ sub r repl s2.
Proof.
  intros Hin Hbe s1. remember (length s1) as n eqn:Hn. revert s1 Hn.
  induction n as [n IH] using lt_wf_ind. intros s1 Hn s2.
  destruct (match_at r false (s1 ++ B ++ s2)) as [[m rest]|] eqn:Hm.
  - destruct (Hbe _ _ _ _ Hm) as (Hne & [(e & He)|(P & Q & E & HB & Hw & Hex)]).
    + destruct (match_at_sound _ _ _ _ _ Hm) as (Hs & _ & _).
      rewrite (sub_hit _ _ _ _ _ Hm Hne).
      rewrite He, <- app_assoc in Hs at 1. apply app_inv_head in Hs. subst rest.
      destruct (IH (length e)) with (s1 := e) (s2 := s2) as (X & ->); [|reflexivity|].
      * subst n s1. rewrite length_app. destruct (whole m); [congruence|simpl; lia].
      * exists (expand (parse_template repl) m ++ X). now rewrite <- app_assoc.
    + destruct (match_at_sound _ _ _ _ _ Hm) as (Hs & _ & _).
      rewrite (sub_hit _ _ _ _ _ Hm Hne).
      rewrite Hw, HB, <- !app_assoc in Hs. apply app_inv_head, app_inv_head in Hs.
      subst rest. rewrite (sub_inside r repl B Hin Q P s2 HB).
      exists E. rewrite Hex, HB, <- !app_assoc. reflexivity.
  - destruct s1 as [|c s1].
    + exists []. cbn [app]. apply (sub_inside r repl B Hin B [] s2). reflexivity.
    + cbn [app] in *. rewrite (sub_miss _ _ _ _ Hm).
      destruct (IH (length s1)) with (s1 := s1) (s2 := s2) as (X & ->);
        [subst n; simpl; lia|reflexivity|].
      now exists (c :: X).
Qed.

Lemma sub_keeps_occurrence r repl B t :
  clear_inside r B /\ clear_before r repl B ->
  occurs B t -> occurs B (sub r repl t).
Proof.
  intros (Hin & Hbe) (s1 & s2 & ->).
  destruct (sub_keeps_block r repl B Hin Hbe s1 s2) as (X & ->).
  now exists X, (sub r repl s2).
Qed.

(** In terms of the words of the pattern: [w] is no prefix of a text that
    starts inside the block, and lies before the block when it starts
    before it. *)
Definition starts_outside (B w : text) : Prop :=
  forall B1 B2 rest s2, B = B1 ++ B2 -> B2 <> [] -> w ++ rest <> B2 ++ s2.

Definition ends_before (B w : text) : Prop :=
  forall s1 s2 rest, w ++ rest = s1 ++ B ++ s2 -> exists e, s1 = w ++ e.

Lemma lang_clear_inside r B :
  (forall w, lang r w -> starts_outside B w) -> clear_inside r B.
Proof.
  intros H B1 B2 s2 E Hne.
  destruct (match_at r false (B2 ++ s2)) as [[m rest]|] eqn:Hm; [|reflexivity].
  destruct (match_at_sound _ _ _ _ _ Hm) as (Hs & L & _).
  exfalso. exact (H _ L B1 B2 rest s2 E Hne (eq_sym Hs)).
Qed.

Lemma lang_clear_before r repl B :
  (forall w, lang r w -> w <> [] /\ ends_before B w) -> clear_before r repl B.
Proof.
  intros H s1 s2 m rest Hm.
  destruct (match_at_sound _ _ _ _ _ Hm) as (Hs & L & _).
  destruct (H _ L) as (Hne & Hb). split; [exact Hne|]. left.
  exact (Hb s1 s2 rest (eq_sym Hs)).
Qed.

(** *** A text in which the pattern matches nowhere *)

Definition unmatched (r : regex) (s : text) : Prop :=
  forall s1 s2, s = s1 ++ s2 -> match_at r false s2 = None.

Lemma unmatched_tail r c s : unmatched r (c :: s) -> unmatched r s.
Proof. intros H s1 s2 E. apply (H (c :: s1) s2). now rewrite E. Qed.

Lemma scan_unmatched r s : unmatched r s -> scan r s 0 = map Keep s.
Proof.
  induction s as [|c s IH]; intros H.
  - apply scan_end. now apply (H [] []).
  - rewrite scan_miss by now apply (H [] (c :: s)).
    cbn [map]. f_equal. apply IH. eapply unmatched_tail, H.
Qed.

Lemma sub_unmatched r repl s : unmatched r s -> sub r repl s = s.
Proof.
  intros H. rewrite sub_scan, (scan_unmatched _ _ H).
  induction s as [|c s IH]; [reflexivity|]. cbn. f_equal. apply IH.
  eapply unmatched_tail, H.
Qed.

Lemma finditer_unmatched r s : unmatched r s -> finditer r s = [].
Proof.
  intros H. unfold finditer. rewrite (scan_unmatched _ _ H).
  induction s as [|c s IH]; [reflexivity|]. cbn. apply IH.
  eapply unmatched_tail, H.
Qed.

Lemma search_unmatched r s : unmatched r s -> search r s = None.
Proof.
  induction s as [|c s IH]; intros H; cbn [search].
  - now rewrite (H [] []).
  - rewrite (H [] (c :: s)) by reflexivity.
    rewrite IH; [reflexivity|]. eapply unmatched_tail, H.
Qed.

(** A pattern whose words all hold the text [lit] matches nowhere in a text
    without [lit]. *)
Lemma unmatched_without r lit s :
  (forall w, lang r w -> occurs lit w) -> ~ occurs lit s -> unmatched r s.
Proof.
  intros Hr Hs s1 s2 E.
  destruct (match_at r false s2) as [[m rest]|] eqn:Hm; [|reflexivity].
  exfalso. apply Hs. destruct (match_at_sound _ _ _ _ _ Hm) as (E2 & L & _).
  subst s. rewrite E2. apply occurs_app_l, occurs_app_r, Hr, L.
Qed.

(** *** Whether a match is found does not depend on the groups *)

Definition same_success (k k' : kont) : Prop :=
  forall s g g', k s g = None <-> k' s g' = None.

Ltac success_cases H :=
  try (split; discriminate);
  try discriminate (proj1 H eq_refl);
  try discriminate (proj2 H eq_refl).

Lemma rep_greedy_success p k k' :
  same_success k k' -> same_success (rep_greedy p k) (rep_greedy p k').
Proof.
  intros H s. induction s as [|c s IH]; intros g g'; cbn [rep_greedy]; [apply H|].
  destruct (p c); [|apply H].
  specialize (IH g g'). specialize (H (c :: s) g g').
  destruct (rep_greedy p k s g), (rep_greedy p k' s g'); success_cases IH.
  exact H.
Qed.

Lemma rep_lazy_success p k k' :
  same_success k k' -> same_success (rep_lazy p k) (rep_lazy p k').
Proof.
  intros H s. induction s as [|c s IH]; intros g g'; cbn [rep_lazy].
  - specialize (H [] g g').
    destruct (k [] g), (k' [] g'); success_cases H. tauto.
  - specialize (H (c :: s) g g').
    destruct (k (c :: s) g), (k' (c :: s) g'); success_cases H.
    destruct (p c); [apply IH|tauto].
Qed.

Lemma run_success r : forall k k',
  same_success k k' -> same_success (run r k) (run r k').
Proof.
  induction r as [|c|p|a IHa b IHb|a IHa b IHb|a IHa|lz p|n a IHa|a IHa];
    intros k k' H; cbn [run].
  - exact H.
  - intros [|x s] g g'; [tauto|]. destruct (N.eqb x c); [apply H|tauto].
  - intros [|x s] g g'; [tauto|]. destruct (p x); [apply H|tauto].
  - apply IHa, IHb, H.
  - intros s g g'. specialize (IHa k k' H s g g'). specialize (IHb k k' H s g g').
    destruct (run a k s g), (run a k' s g'); success_cases IHa. exact IHb.
  - intros s g g'. specialize (IHa k k' H s g g'). specialize (H s g g').
    destruct (run a k s g), (run a k' s g'); success_cases IHa. exact H.
  - destruct lz; [now apply rep_lazy_success|now apply rep_greedy_success].
  - intros s g g'. apply IHa. intros s1 g1 g1'. apply H.
  - intros s g g'.
    assert (T : same_success (fun s' g' => Some (s', g')) (fun s' g' => Some (s', g'))).
    { intros ? ? ?. split; discriminate. }
    specialize (IHa _ _ T s g g').
    destruct (run a _ s g) as [[? g1]|], (run a _ s g') as [[? g2]|];
      success_cases IHa; [apply H|tauto].
Qed.

(** *** Lazy repetition stops at the first place where the rest matches *)

Lemma rep_lazy_complete p k w s g :
  forallb p w = true -> k s g <> None -> rep_lazy p k (w ++ s) g <> None.
Proof.
  intros Hw Hk. induction w as [|c w IH]; cbn [app].
  - destruct s; cbn [rep_lazy]; destruct (k _ g); congruence.
  - cbn [forallb] in Hw. apply andb_true_iff in Hw. destruct Hw as [Hc Hw].
    cbn [rep_lazy]. destruct (k (c :: w ++ s) g); [discriminate|].
    rewrite Hc. now apply IH.
Qed.

Lemma rep_lazy_first p k s g res :
  rep_lazy p k s g = Some res ->
  exists w s', s = w ++ s' /\ forallb p w = true /\ k s' g = Some res /\
    forall w1 w2, w = w1 ++ w2 -> w2 <> [] -> k (w2 ++ s') g = None.
Proof.
  induction s as [|c s IH]; cbn [rep_lazy]; intros H.
  - destruct (k [] g) eqn:Hk; [|discriminate]. injection H as <-.
    exists [], []. repeat split; auto. intros w1 w2 E Hne.
    symmetry in E. apply app_eq_nil in E. tauto.
  - destruct (k (c :: s) g) eqn:Hk.
    + injection H as <-. exists [], (c :: s). repeat split; auto.
      intros w1 w2 E Hne. symmetry in E. apply app_eq_nil in E. tauto.
    + destruct (p c) eqn:Hc; [|discriminate].
      destruct (IH H) as (w & s' & -> & Hw & Hk' & Hfirst).
      exists (c :: w), s'. cbn [forallb app]. rewrite Hc, Hw.
      repeat split; auto. intros w1 w2 E Hne.
      destruct w1 as [|x w1]; cbn [app] in E.
      * subst w2. exact Hk.
      * injection E as _ E. now apply (Hfirst w1 w2).
Qed.

Lemma rep_lazy_exact p (k : kont) w s g res :
  forallb p w = true ->
  (forall w1 w2, w = w1 ++ w2 -> w2 <> [] -> k (w2 ++ s) g = None) ->
  k s g = Some res ->
  rep_lazy p k (w ++ s) g = Some res.
Proof.
  intros Hw Hnone Hk. induction w as [|c w IH]; cbn [app].
  - destruct s; cbn [rep_lazy]; now rewrite Hk.
  - pose proof (Hnone [] (c :: w) eq_refl ltac:(discriminate)) as E0.
    cbn [app] in E0. cbn [rep_lazy]. rewrite E0.
    cbn [forallb] in Hw. apply andb_true_iff in Hw. destruct Hw as [Hc Hw].
    rewrite Hc. apply IH; [exact Hw|].
    intros w1 w2 E Hne. apply (Hnone (c :: w1) w2); [now rewrite E|exact Hne].
Qed.


End ReFacts.
Import ReFacts.

(** ** Facts about latexdiffcite.py *)

Module DiffFacts.

(** *** The end of [clean_difcommands] *)

Definition step (acc : text) (s : regex * text) : text := sub (fst s) (snd s) acc.

(** The text after the first seven substitutions. *)
Definition markers_done (t : text) : text :=
  fold_left step (firstn 7 difcommand_steps) t.

Lemma clean_split t :
  clean_difcommands t =
  sub (spaced_brace_re (str "end")) (str "\\end{")
    (sub (spaced_brace_re (str "begin")) (str "\\begin{")
       (squeeze false (markers_done t))).
Proof. rewrite <- sub_spaces_squeeze. reflexivity. Qed.

Lemma clean_no_newline t : ~ In NL (clean_difcommands t).
Proof.
  rewrite clean_split.
  assert (H : Forall (fun c => c <> NL) (squeeze false (markers_done t))).
  { eapply Forall_impl; [|apply squeeze_spaces with (b := false)].
    intros c Hc ->. specialize (Hc eq_refl). discriminate. }
  apply absent_Forall.
  apply sub_closed_Forall; [reflexivity|repeat constructor; discriminate|].
  apply sub_closed_Forall; [reflexivity|repeat constructor; discriminate|exact H].
Qed.

Lemma endswith_one_In c s : endswith [c] s = true -> In c s.
Proof.
  unfold endswith. simpl. destruct (rev s) as [|x r] eqn:E; [discriminate|].
  rewrite andb_true_r. intros H. apply N.eqb_eq in H. subst x.
  apply in_rev. rewrite E. now left.
Qed.

Lemma process_files_returned ld nf t :
  process_files ld nf = Returned t ->
  exists u, t = clean_difcommands u ++ [NL].
Proof.
  unfold process_files. destruct ld as [[|rc] out err|e]; try discriminate.
  destruct nf as [new_text|]; [|discriminate].
  match goal with |- match ?f with _ => _ end = _ -> _ => destruct f as [d|] end;
    [|discriminate].
  exists d.
  assert (E : endswith [NL] (clean_difcommands d) = false).
  { destruct (endswith [NL] (clean_difcommands d)) eqn:E; [|reflexivity].
    apply endswith_one_In in E. now apply clean_no_newline in E. }
  rewrite E in H. congruence.
Qed.

(** C7: the text returned by [process_files] ends with a newline, and with
    one only: the character before it, if there is one, is no newline. *)
Theorem output_ends_with_one_newline ld nf t :
  process_files ld nf = Returned t ->
  exists body, t = body ++ [NL] /\ endswith [NL] body = false.
Proof.
  intros H. apply process_files_returned in H. destruct H as (u & ->).
  exists (clean_difcommands u). split; [reflexivity|].
  destruct (endswith [NL] (clean_difcommands u)) eqn:E; [|reflexivity].
  apply endswith_one_In in E. now apply clean_no_newline in E.
Qed.

Lemma output_ends_with_one_newline_witness :
  exists body,
    str "a b " ++ [NL] = body ++ [NL] /\ endswith [NL] body = false.
Proof.
  apply (output_ends_with_one_newline
           (Completed 0 (str "a" ++ [NL; NL] ++ str "b" ++ [NL; NL]) [])
           (Some [])).
  vm_compute. reflexivity.
Defined.


Lemma clean_plain t : ~ In BSL t -> clean_difcommands t = squeeze false t.
Proof.
  intros H. rewrite clean_split.
  assert (E : markers_done t = t).
  { unfold markers_done, difcommand_steps. cbn [firstn fold_left].
    unfold step. cbn [fst snd].
    rewrite !(sub_absent BSL _ _ t) by (reflexivity || assumption). reflexivity. }
  rewrite E.
  assert (H' : ~ In BSL (squeeze false t)).
  { apply squeeze_absent; [discriminate|assumption]. }
  rewrite !(sub_absent BSL _ _ (squeeze false t)) by (reflexivity || assumption).
  reflexivity.
Qed.

(** *** The begin marker with a count *)

(** [\begin{thebibliography}{N}] *)
Definition marker (count : text) : text :=
  str "\begin{thebibliography}{" ++ count ++ str "}".

Lemma lang_enumeration w :
  lang enumeration_re w ->
  exists digits, w = marker digits /\ digits <> [] /\ forallb digit digits = true.
Proof.
  unfold enumeration_re, Rep1. cbn [Seq fold_right lang].
  intros (u & v & -> & Hu & u1 & v1 & -> & (a & b & -> & (c & -> & Hc) & Hb)
          & u2 & v2 & -> & -> & ->).
  apply lang_Lit in Hu. subst u. exists (c :: b). split; [|split].
  - unfold marker. now rewrite app_nil_r, <- !app_assoc.
  - discriminate.
  - cbn [forallb]. now rewrite Hc, Hb.
Qed.

Lemma no_count_no_search new_bib :
  (forall before digits after,
     new_bib = before ++ marker digits ++ after ->
     digits <> [] -> forallb digit digits = true -> False) ->
  search enumeration_re new_bib = None.
Proof.
  intros Hcount.
  destruct (search enumeration_re new_bib) as [[[before m] after]|] eqn:Hs;
    [|reflexivity].
  exfalso. apply search_sound in Hs. destruct Hs as (E & L & _).
  apply lang_enumeration in L. destruct L as (digits & Hw & Hne & Hdig).
  rewrite Hw in E. eapply Hcount; eauto.
Qed.


Lemma empty_count_is_no_count before digits after :
  str "\begin{thebibliography}{}\end{thebibliography}"
  = before ++ marker digits ++ after ->
  digits <> [] -> forallb digit digits = true -> False.
Proof.
  intros E Hne Hdig. unfold marker in E.
  destruct before as [|b0 before].
  - cbn in E. injection E as E. destruct digits as [|d ds]; [congruence|].
    cbn in E. injection E as <- _. discriminate Hdig.
  - cbn in E. injection E as _ E.
    repeat (destruct before as [|? before];
            [cbn in E; discriminate E|cbn in E; injection E as _ E]).
    destruct before; discriminate E.
Qed.


(** *** The words of the patterns of clean_difcommands *)

Lemma lang_Seq_cons r rs w :
  lang (Seq (r :: rs)) w <-> exists u v, w = u ++ v /\ lang r u /\ lang (Seq rs) v.
Proof. reflexivity. Qed.

Lemma lang_Seq_nil w : lang (Seq []) w <-> w = [].
Proof. reflexivity. Qed.

Lemma lang_opening name w :
  lang (opening_re name) w ->
  exists u v, w = (BSL :: name) ++ u ++ v /\
              forallb ws u = true /\ forallb (just NL) v = true.
Proof.
  unfold opening_re. rewrite !lang_Seq_cons.
  intros (l & t1 & -> & Hl & H1). apply lang_Lit in Hl. subst l.
  rewrite lang_Seq_cons in H1. destruct H1 as (u & t2 & -> & Hu & H2).
  rewrite lang_Seq_cons in H2. destruct H2 as (v & t3 & -> & Hv & H3).
  cbn [Seq fold_right lang] in H3. subst t3. rewrite app_nil_r. eauto.
Qed.

Lemma lang_closing name w :
  lang (closing_re name) w ->
  exists u0 u v, w = u0 ++ (BSL :: name) ++ u ++ v /\ forallb ws u0 = true /\
                 forallb ws u = true /\ forallb (just NL) v = true.
Proof.
  unfold closing_re. rewrite lang_Seq_cons.
  intros (u0 & t0 & -> & Hu0 & H0). fold (opening_re name) in H0.
  apply lang_opening in H0. destruct H0 as (u & v & -> & Hu & Hv). eauto 8.
Qed.

Lemma lang_spaces w :
  lang spaces_re w -> exists c u, w = c :: u /\ isspace c = true /\ forallb ws u = true.
Proof.
  unfold spaces_re, Rep1. cbn [lang].
  intros (a & u & -> & (c & -> & Hc) & Hu). exists c, u. auto.
Qed.

Lemma lang_spaced_brace name w :
  lang (spaced_brace_re name) w ->
  exists c u, w = (BSL :: name) ++ (c :: u) ++ [123%N] /\
              isspace c = true /\ forallb ws u = true.
Proof.
  unfold spaced_brace_re. rewrite lang_Seq_cons.
  intros (l & t1 & -> & Hl & H1). apply lang_Lit in Hl. subst l.
  rewrite lang_Seq_cons in H1. destruct H1 as (s & t2 & -> & Hs & H2).
  apply lang_spaces in Hs. destruct Hs as (c & u & -> & Hc & Hu).
  rewrite lang_Seq_cons in H2. destruct H2 as (b & t3 & -> & Hb & H3).
  cbn [Seq fold_right lang] in H3. cbn [lang] in Hb. subst. rewrite app_nil_r. eauto.
Qed.

Lemma lang_broken name w :
  lang (broken_re name) w ->
  exists x u1 u2,
    w = ((BSL :: name) ++ [123%N] ++ x ++ [125%N]) ++ u1 ++ [NL] ++ u2 /\
    forallb (non 125%N) x = true /\ forallb ws u1 = true /\ forallb ws u2 = true.
Proof.
  unfold broken_re. rewrite lang_Seq_cons.
  intros (g & t1 & -> & Hg & H1). cbn [lang] in Hg. rewrite lang_Seq_cons in Hg.
  destruct Hg as (l & g1 & -> & Hl & Hg). apply lang_Lit in Hl. subst l.
  rewrite lang_Seq_cons in Hg. destruct Hg as (b & g2 & -> & Hb & Hg).
  rewrite lang_Seq_cons in Hg. destruct Hg as (x & g3 & -> & Hx & Hg).
  rewrite lang_Seq_cons in Hg. destruct Hg as (e & g4 & -> & He & Hg).
  cbn [Seq fold_right lang] in Hg. cbn [lang] in Hb, Hx, He. subst b e g4.
  rewrite lang_Seq_cons in H1. destruct H1 as (u1 & t2 & -> & Hu1 & H1).
  rewrite lang_Seq_cons in H1. destruct H1 as (n & t3 & -> & Hn & H1).
  rewrite lang_Seq_cons in H1. destruct H1 as (u2 & t4 & -> & Hu2 & H1).
  cbn [Seq fold_right lang] in H1. cbn [lang] in Hu1, Hn, Hu2. subst n t4.
  exists x, u1, u2. rewrite !app_nil_r. auto.
Qed.

Lemma lang_delend_addbegin w :
  lang delend_addbegin_re w ->
  exists u1 u2 o,
    w = (str "\DIFdelend" ++ u1 ++ str "\DIFaddbegin" ++ u2) ++ o
        ++ str "begin{thebibliography}" /\
    forallb ws u1 = true /\ forallb ws u2 = true /\ (o = [] \/ o = [BSL]).
Proof.
  unfold delend_addbegin_re. rewrite lang_Seq_cons.
  intros (l1 & t1 & -> & Hl1 & H). apply lang_Lit in Hl1. subst l1.
  rewrite lang_Seq_cons in H. destruct H as (u1 & t2 & -> & Hu1 & H).
  rewrite lang_Seq_cons in H. destruct H as (l2 & t3 & -> & Hl2 & H).
  apply lang_Lit in Hl2. subst l2.
  rewrite lang_Seq_cons in H. destruct H as (u2 & t4 & -> & Hu2 & H).
  rewrite lang_Seq_cons in H. destruct H as (o & t5 & -> & Ho & H).
  rewrite lang_Seq_cons in H. destruct H as (l3 & t6 & -> & Hl3 & H).
  apply lang_Lit in Hl3. cbn [Seq fold_right lang] in H. subst l3 t6.
  cbn [lang] in Hu1, Hu2, Ho. exists u1, u2, o.
  rewrite app_nil_r, <- !app_assoc. repeat split; auto.
  destruct Ho as [-> | ->]; auto.
Qed.

(** *** Words that cannot reach into a block that starts with [\b] *)

(** Every backslash of the word is followed by a character other than [b]. *)
Fixpoint calm (w : text) : bool :=
  match w with
  | [] => true
  | c :: w' =>
      (if N.eqb c BSL
       then match w' with d :: _ => negb (N.eqb d 98) | [] => false end
       else true) && calm w'
  end.

Definition tame (w : text) : Prop :=
  calm w = true /\ exists c w', w = c :: w' /\ (c = BSL \/ isspace c = true).

Lemma calm_app a b : calm a = true -> calm b = true -> calm (a ++ b) = true.
Proof.
  induction a as [|c a IH]; [auto|]. cbn [calm app]. intros Ha Hb.
  apply andb_true_iff in Ha. destruct Ha as [Hc Ha]. rewrite (IH Ha Hb), andb_true_r.
  destruct (N.eqb c BSL); [|reflexivity]. destruct a; [discriminate|exact Hc].
Qed.

Lemma calm_suffix a b : calm (a ++ b) = true -> calm b = true.
Proof.
  induction a as [|c a IH]; [auto|]. cbn [calm app]. intros H.
  apply andb_true_iff in H. tauto.
Qed.

Lemma calm_plain w : ~ In BSL w -> calm w = true.
Proof.
  induction w as [|c w IH]; [reflexivity|]. cbn [calm]. intros H.
  destruct (N.eqb_spec c BSL) as [->|_]; [simpl in H; tauto|].
  apply IH. simpl in H. tauto.
Qed.

Lemma calm_head d w : calm (BSL :: d :: w) = true -> d <> 98%N.
Proof.
  cbn [calm]. rewrite N.eqb_refl. intros H. apply andb_true_iff in H.
  destruct H as [H _]. apply negb_true_iff, N.eqb_neq in H. exact H.
Qed.

Lemma space_not_backslash c : isspace c = true -> c <> BSL.
Proof. intros H ->. discriminate H. Qed.

Lemma spaces_plain u : forallb ws u = true -> ~ In BSL u.
Proof.
  rewrite forallb_forall. intros H Hin. apply H in Hin. discriminate Hin.
Qed.

Lemma newlines_plain v : forallb (just NL) v = true -> ~ In BSL v.
Proof.
  rewrite forallb_forall. intros H Hin. apply H in Hin. discriminate Hin.
Qed.

(** A block [\b...] with no other backslash and no white space. *)
Definition quiet (c : char) : Prop := c <> BSL /\ isspace c = false.

Definition b_block (B : text) : Prop :=
  exists T, B = BSL :: 98%N :: T /\ Forall quiet (98%N :: T).

Lemma b_block_suffix B B1 B2 :
  b_block B -> B = B1 ++ B2 -> B1 <> [] -> Forall quiet B2.
Proof.
  intros (T & -> & HT) E Hne. destruct B1 as [|x B1]; [congruence|].
  injection E as _ E. rewrite E in HT. apply Forall_app in HT. tauto.
Qed.

Lemma tame_starts_outside B w : b_block B -> tame w -> starts_outside B w.
Proof.
  intros HB (Hcalm & c & w' & -> & Hc) B1 B2 rest s2 E Hne H.
  destruct B1 as [|x B1].
  - cbn [app] in E. subst B2. destruct HB as (T & -> & _).
    injection H as -> H. destruct w' as [|d w'].
    + discriminate Hcalm.
    + injection H as -> _. now apply calm_head in Hcalm.
  - pose proof (b_block_suffix B (x :: B1) B2 HB E) as Q.
    destruct B2 as [|y B2]; [congruence|].
    injection H as -> _. assert (Hq : quiet y).
    { assert (F : Forall quiet (y :: B2)) by (apply Q; discriminate).
      now inversion F. }
    destruct Hq as (Hq1 & Hq2). destruct Hc; congruence.
Qed.

Lemma calm_ends_before B w : b_block B -> calm w = true -> ends_before B w.
Proof.
  intros (T & -> & _) Hcalm s1 s2 rest H.
  destruct (app_cut _ _ _ _ H) as [(e & -> & _)|(e & Hne & -> & He)]; [eauto|].
  exfalso. apply calm_suffix in Hcalm.
  destruct e as [|x e]; [congruence|]. cbn [app] in He. injection He as <- He.
  destruct e as [|d e]; [discriminate Hcalm|].
  injection He as <- _. now apply calm_head in Hcalm.
Qed.

Lemma tame_clear r repl B :
  b_block B -> (forall w, lang r w -> tame w) ->
  clear_inside r B /\ clear_before r repl B.
Proof.
  intros HB H. split.
  - apply lang_clear_inside. intros w L. apply tame_starts_outside; auto.
  - apply lang_clear_before. intros w L. destruct (H w L) as (Hc & c & w' & -> & _).
    split; [discriminate|]. now apply calm_ends_before.
Qed.

Lemma opening_tame name :
  calm (BSL :: name) = true -> forall w, lang (opening_re name) w -> tame w.
Proof.
  intros Hn w L. apply lang_opening in L. destruct L as (u & v & -> & Hu & Hv).
  split; [|cbn [app]; eauto].
  apply calm_app; [exact Hn|]. apply calm_plain. intros Hin.
  apply in_app_or in Hin. destruct Hin as [Hin|Hin].
  - now apply spaces_plain in Hin.
  - now apply newlines_plain in Hin.
Qed.

Lemma closing_tame name :
  calm (BSL :: name) = true -> forall w, lang (closing_re name) w -> tame w.
Proof.
  intros Hn w L. apply lang_closing in L.
  destruct L as (u0 & u & v & -> & Hu0 & Hu & Hv). split.
  - apply calm_app; [apply calm_plain; now apply spaces_plain|].
    apply calm_app; [exact Hn|]. apply calm_plain. intros Hin.
    apply in_app_or in Hin. destruct Hin as [Hin|Hin].
    + now apply spaces_plain in Hin.
    + now apply newlines_plain in Hin.
  - destruct u0 as [|c u0]; cbn [app]; [eauto|].
    cbn [forallb] in Hu0. apply andb_true_iff in Hu0. destruct Hu0 as [Hc _]. eauto.
Qed.

Lemma spaces_tame w : lang spaces_re w -> tame w.
Proof.
  intros L. apply lang_spaces in L. destruct L as (c & u & -> & Hc & Hu).
  split; [|eauto]. apply calm_plain. intros [E|Hin].
  - subst c. discriminate Hc.
  - now apply spaces_plain in Hin.
Qed.

Lemma spaced_brace_tame name :
  calm (BSL :: name) = true -> forall w, lang (spaced_brace_re name) w -> tame w.
Proof.
  intros Hn w L. apply lang_spaced_brace in L. destruct L as (c & u & -> & Hc & Hu).
  split; [|cbn [app]; eauto].
  apply calm_app; [exact Hn|]. apply calm_plain. intros Hin.
  apply in_app_or in Hin. destruct Hin as [Hin|[Hin|[]]]; [|discriminate Hin].
  destruct Hin as [E|Hin]; [subst c; discriminate Hc|].
  now apply spaces_plain in Hin.
Qed.

(** *** The counted begin marker is such a block *)

Lemma quiet_digits N : forallb digit N = true -> Forall quiet N.
Proof.
  rewrite forallb_forall, Forall_forall. intros H c Hc. specialize (H c Hc).
  split; [now apply digit_not_symbol|now apply digit_not_space].
Qed.

Lemma marker_b_block N : forallb digit N = true -> b_block (marker N).
Proof.
  intros HN. exists (str "egin{thebibliography}{" ++ N ++ str "}").
  split; [reflexivity|].
  change (98%N :: str "egin{thebibliography}{" ++ N ++ str "}")
    with (str "begin{thebibliography}{" ++ N ++ str "}").
  apply Forall_app. split; [|apply Forall_app; split; [now apply quiet_digits|]].
  - repeat constructor; discriminate.
  - repeat constructor; discriminate.
Qed.

Lemma first_split (c : char) a b a' b' :
  ~ In c a -> ~ In c a' -> a ++ c :: b = a' ++ c :: b' -> a = a' /\ b = b'.
Proof.
  revert a'. induction a as [|x a IH]; intros [|y a'] Ha Ha' H; cbn [app] in H.
  - injection H as ->. auto.
  - injection H as -> _. simpl in Ha'. tauto.
  - injection H as -> _. simpl in Ha. tauto.
  - injection H as -> H. destruct (IH a') as [-> ->]; auto; simpl in *; tauto.
Qed.

(** [\\begin\s+{] *)
Lemma begin_brace_clear N repl :
  forallb digit N = true ->
  clear_inside (spaced_brace_re (str "begin")) (marker N) /\
  clear_before (spaced_brace_re (str "begin")) repl (marker N).
Proof.
  intros HN. pose proof (marker_b_block N HN) as HB.
  assert (S : forall w, lang (spaced_brace_re (str "begin")) w ->
                        starts_outside (marker N) w).
  { intros w L B1 B2 rest s2 E Hne H.
    apply lang_spaced_brace in L. destruct L as (c & u & -> & Hc & Hu).
    destruct B1 as [|x B1].
    - cbn [app] in E. subst B2. unfold marker in H. cbn in H.
      injection H as H _. subst c. discriminate Hc.
    - pose proof (b_block_suffix _ _ _ HB E) as Q.
      destruct B2 as [|y B2]; [congruence|]. cbn [app] in H. injection H as <- _.
      assert (F : Forall quiet (BSL :: B2)) by (apply Q; discriminate).
      inversion F as [|? ? [Hq _] _]. congruence. }
  split; [now apply lang_clear_inside|].
  apply lang_clear_before. intros w L. split.
  { apply lang_spaced_brace in L. destruct L as (c & u & -> & _). discriminate. }
  intros s1 s2 rest H.
  destruct (app_cut _ _ _ _ H) as [(e & -> & _)|(e & Hne & Hw & He)]; [eauto|].
  exfalso. destruct s1 as [|x s1].
  - cbn [app] in Hw. subst e.
    exact (S w L [] (marker N) rest s2 eq_refl
             ltac:(unfold marker; discriminate) (eq_sym He)).
  - apply lang_spaced_brace in L. destruct L as (c & u & -> & Hc & Hu).
    destruct HB as (T & HT & _). rewrite HT in He.
    destruct e as [|y e]; [congruence|]. cbn [app] in He. injection He as <- _.
    cbn [app] in Hw. injection Hw as _ Hw.
    assert (Hin : In BSL (s1 ++ BSL :: e)) by (apply in_or_app; right; now left).
    rewrite <- Hw in Hin. cbn [In] in Hin.
    repeat (destruct Hin as [Hin|Hin]; [discriminate Hin|]).
    destruct Hin as [Hin|Hin]; [subst c; discriminate Hc|].
    apply in_app_or in Hin. destruct Hin as [Hin|[Hin|[]]].
    + now apply spaces_plain in Hin.
    + discriminate Hin.
Qed.

(** [(\\NAME{[^}]*})\s*\n\s*] for a name that does not start with [b] *)
Lemma broken_clear name N repl :
  calm (BSL :: name) = true -> ~ In BSL name ->
  forallb digit N = true ->
  clear_inside (broken_re name) (marker N) /\
  clear_before (broken_re name) repl (marker N).
Proof.
  intros Hname Hplain HN. pose proof (marker_b_block N HN) as HB.
  assert (S : forall w, lang (broken_re name) w -> starts_outside (marker N) w).
  { intros w L B1 B2 rest s2 E Hne H.
    apply lang_broken in L. destruct L as (x & u1 & u2 & -> & Hx & Hu1 & Hu2).
    destruct B1 as [|y B1].
    - cbn [app] in E. subst B2. destruct HB as (T & HT & _). rewrite HT in H.
      destruct name as [|d name]; [discriminate Hname|].
      cbn [app] in H. injection H as -> _. now apply calm_head in Hname.
    - pose proof (b_block_suffix _ _ _ HB E) as Q.
      destruct B2 as [|z B2]; [congruence|]. cbn [app] in H. injection H as <- _.
      assert (F : Forall quiet (BSL :: B2)) by (apply Q; discriminate).
      inversion F as [|? ? [Hq _] _]. congruence. }
  split; [now apply lang_clear_inside|].
  apply lang_clear_before. intros w L. split.
  { apply lang_broken in L. destruct L as (x & u1 & u2 & -> & _). discriminate. }
  intros s1 s2 rest H.
  destruct (app_cut _ _ _ _ H) as [(e & -> & _)|(e & Hne & Hw & He)]; [eauto|].
  exfalso. destruct s1 as [|y s1].
  { cbn [app] in Hw. subst e.
    assert (Hm : marker N <> []) by (unfold marker; discriminate).
    exact (S w L [] (marker N) rest s2 eq_refl Hm (eq_sym He)). }
  apply lang_broken in L. destruct L as (x & u1 & u2 & -> & Hx & Hu1 & Hu2).
  (* [e] starts with the backslash of the marker *)
  assert (He0 : exists e', e = BSL :: e').
  { destruct HB as (T & HT & _). rewrite HT in He.
    destruct e as [|z e]; [congruence|]. injection He as <- _. eauto. }
  destruct He0 as (e' & ->).
  (* where the word is cut: in the command name, in the braces, or after *)
  rewrite <- !app_assoc in Hw. symmetry in Hw.
  destruct (app_cut _ _ _ _ Hw) as [(f & Hf & Hrest)|(f & Hfne & Hf & Hrest)].
  - (* the cut is in the command name *)
    injection Hf as _ Hf. destruct f as [|z f]; [discriminate Hrest|].
    injection Hrest as <- _. apply Hplain. rewrite Hf.
    apply in_or_app. right. now left.
  - change ([123%N] ++ x ++ [125%N] ++ u1 ++ [NL] ++ u2)
      with ((123%N :: x) ++ 125%N :: u1 ++ NL :: u2) in Hrest.
    destruct (app_cut _ _ _ _ Hrest) as [(g & Hg & Htail)|(g & Hgne & Hg & Htail)].
    + (* the cut is after the closing brace *)
      assert (Hin : In BSL (125%N :: u1 ++ NL :: u2)).
      { rewrite Htail. apply in_or_app. right. now left. }
      destruct Hin as [Hin|Hin]; [discriminate Hin|].
      apply in_app_or in Hin. destruct Hin as [Hin|[Hin|Hin]].
      * now apply spaces_plain in Hin.
      * discriminate Hin.
      * now apply spaces_plain in Hin.
    + (* the cut is between the braces *)
      destruct g as [|z g']; [congruence|]. cbn [app] in Htail.
      injection Htail as <- ->.
      assert (Hg' : ~ In 125%N g').
      { intros Hin. rewrite forallb_forall in Hx.
        assert (Hx' : In 125%N x).
        { destruct f as [|f0 f]; [congruence|]. cbn [app] in Hg.
          injection Hg as _ ->. apply in_or_app. right. now right. }
        apply Hx in Hx'. discriminate Hx'. }
      unfold marker in He.
      change (str "\begin{thebibliography}{" ++ N ++ str "}")
        with (BSL :: str "begin{thebibliography" ++ 125%N :: 123%N :: N ++ str "}")
        in He.
      cbn [app] in He. injection He as He. rewrite <- !app_assoc in He.
      cbn [app] in He.
      apply (first_split 125%N (str "begin{thebibliography")
               (123%N :: N ++ str "}" ++ s2) g' ((u1 ++ NL :: u2) ++ rest)) in He;
        [|cbn; intuition discriminate|exact Hg'].
      destruct He as [_ He]. destruct u1 as [|c u1]; cbn [app] in He.
      * discriminate He.
      * injection He as <- _. discriminate Hu1.
Qed.

(** [\\DIFdelend\s*\\DIFaddbegin\s*\\?begin{thebibliography}]: a match may
    end with the first part of the marker, which the replacement gives
    back. *)
Lemma delend_addbegin_clear N :
  forallb digit N = true ->
  clear_inside delend_addbegin_re (marker N) /\
  clear_before delend_addbegin_re (str "\\begin{thebibliography}") (marker N).
Proof.
  intros HN. pose proof (marker_b_block N HN) as HB.
  assert (W0 : forall u1 u2, forallb ws u1 = true -> forallb ws u2 = true ->
             calm (str "\DIFdelend" ++ u1 ++ str "\DIFaddbegin" ++ u2) = true).
  { intros u1 u2 H1 H2. apply calm_app; [reflexivity|].
    apply calm_app; [apply calm_plain; now apply spaces_plain|].
    apply calm_app; [reflexivity|]. apply calm_plain. now apply spaces_plain. }
  split.
  - apply lang_clear_inside. intros w L B1 B2 rest s2 E Hne H.
    apply lang_delend_addbegin in L. destruct L as (u1 & u2 & o & -> & _).
    destruct B1 as [|y B1].
    + cbn [app] in E. subst B2. unfold marker in H. cbn in H. discriminate H.
    + pose proof (b_block_suffix _ _ _ HB E) as Q.
      destruct B2 as [|z B2]; [congruence|]. cbn in H. injection H as <- _.
      assert (F : Forall quiet (BSL :: B2)) by (apply Q; discriminate).
      inversion F as [|? ? [Hq _] _]. congruence.
  - intros s1 s2 m rest Hm.
    destruct (match_at_sound _ _ _ _ _ Hm) as (Hs & L & _).
    apply lang_delend_addbegin in L. destruct L as (u1 & u2 & o & Hw & H1 & H2 & Ho).
    split; [rewrite Hw; discriminate|].
    symmetry in Hs.
    destruct (app_cut _ _ _ _ Hs) as [(e & -> & _)|(e & Hne & He & Hrest)]; [eauto|].
    right.
    (* [e], the end of the match, starts the marker: [\b...] *)
    destruct HB as (T & HT & _). rewrite HT in Hrest.
    destruct e as [|e0 e]; [congruence|]. cbn [app] in Hrest. injection Hrest as <- Hrest.
    destruct e as [|e1 e].
    { exfalso. rewrite Hw in He.
      apply (f_equal (@rev char)) in He. rewrite !rev_app_distr in He.
      cbn in He. discriminate He. }
    cbn [app] in Hrest. injection Hrest as <- Hrest.
    specialize (W0 u1 u2 H1 H2).
    destruct Ho as [-> | ->].
    + (* without the optional backslash the whole word is calm *)
      exfalso. rewrite Hw in He.
      assert (C : calm (s1 ++ BSL :: 98%N :: e) = true).
      { refine (eq_trans (eq_sym (f_equal calm He)) _).
        apply calm_app; [exact W0|reflexivity]. }
      apply calm_suffix, calm_head in C. congruence.
    + rewrite Hw in He.
      destruct (app_cut _ _ _ _ He) as [(f & Hf & Hrest')|(f & Hfne & Hf & Hrest')].
      * destruct f as [|f0 f].
        -- (* the match ends with [\begin{thebibliography}] *)
           rewrite app_nil_r in Hf. subst s1.
           exists (str "\begin{thebibliography}"), (123%N :: N ++ str "}"), [].
           split; [reflexivity|]. split; [exact Hw|reflexivity].
        -- exfalso. cbn [app] in Hrest'. injection Hrest' as _ Hrest'.
           assert (Hin : In BSL (str "begin{thebibliography}")).
           { rewrite Hrest'. apply in_or_app. right. now left. }
           cbn in Hin. intuition discriminate.
      * exfalso. destruct f as [|f0 f]; [congruence|].
        cbn [app] in Hrest'. injection Hrest' as <- Hrest'.
        destruct f as [|f1 f]; cbn [app] in Hrest'; [discriminate Hrest'|].
        injection Hrest' as <- _.
        assert (C : calm (s1 ++ BSL :: 98%N :: f) = true).
        { refine (eq_trans (eq_sym (f_equal calm Hf)) _). exact W0. }
        apply calm_suffix, calm_head in C. congruence.
Qed.

(** The cleanup keeps every counted begin marker. *)
Lemma clean_keeps_marker N t :
  forallb digit N = true ->
  occurs (marker N) t -> occurs (marker N) (clean_difcommands t).
Proof.
  intros HN H. pose proof (marker_b_block N HN) as HB.
  unfold clean_difcommands, difcommand_steps. cbn [fold_left fst snd].
  apply sub_keeps_occurrence;
    [apply tame_clear; [exact HB|apply spaced_brace_tame; reflexivity]|].
  apply sub_keeps_occurrence; [apply begin_brace_clear; exact HN|].
  apply sub_keeps_occurrence; [apply tame_clear; [exact HB|apply spaces_tame]|].
  apply sub_keeps_occurrence;
    [apply broken_clear; [reflexivity|cbn; intuition discriminate|exact HN]|].
  apply sub_keeps_occurrence;
    [apply broken_clear; [reflexivity|cbn; intuition discriminate|exact HN]|].
  apply sub_keeps_occurrence;
    [apply tame_clear; [exact HB|apply closing_tame; reflexivity]|].
  apply sub_keeps_occurrence;
    [apply tame_clear; [exact HB|apply opening_tame; reflexivity]|].
  apply sub_keeps_occurrence;
    [apply tame_clear; [exact HB|apply closing_tame; reflexivity]|].
  apply sub_keeps_occurrence;
    [apply tame_clear; [exact HB|apply opening_tame; reflexivity]|].
  apply sub_keeps_occurrence; [apply delend_addbegin_clear; exact HN|].
  exact H.
Qed.

(** *** str.replace puts the new text in *)

Lemma startswith_app p s : startswith p (p ++ s) = true.
Proof. induction p as [|c p IH]; [reflexivity|]. cbn. now rewrite N.eqb_refl. Qed.

(** A test for [occurs]. *)
Fixpoint occursb (m t : text) : bool :=
  startswith m t || match t with [] => false | _ :: t' => occursb m t' end.

Lemma occursb_complete m t : occurs m t -> occursb m t = true.
Proof.
  intros (pre & post & ->). induction pre as [|c pre IH].
  - cbn [app]. destruct (m ++ post) eqn:E; cbn [occursb]; rewrite <- E;
      now rewrite startswith_app.
  - cbn [app occursb]. rewrite IH. apply orb_true_r.
Qed.

Lemma replace_from_occurs old new : forall pre post,
  old <> [] -> occurs new (replace_from old new (pre ++ old ++ post) 0).
Proof.
  intros pre post Hold. induction pre as [|c pre IH].
  - destruct old as [|o old]; [congruence|].
    cbn [app replace_from]. change (o :: old ++ post) with ((o :: old) ++ post).
    rewrite startswith_app. apply occurs_here.
  - cbn [app replace_from]. destruct (startswith old (c :: pre ++ old ++ post)).
    + apply occurs_here.
    + apply (occurs_app_l new [c]). exact IH.
Qed.

Lemma replace_occurs old new s :
  old <> [] -> occurs old s -> occurs new (replace old new s).
Proof.
  intros Hold (pre & post & ->). destruct old as [|o old]; [congruence|].
  apply replace_from_occurs. discriminate.
Qed.

(** *** The first match of a search is the first replaced *)

Lemma sub_search r repl s : forall pre m rest,
  search r s = Some (pre, m, rest) -> whole m <> [] ->
  sub r repl s = pre ++ expand (parse_template repl) m ++ sub r repl rest.
Proof.
  induction s as [|c s IH]; intros pre m rest H Hne; cbn [search] in H.
  - destruct (match_at r false []) as [[m' rest']|] eqn:Hm; [|discriminate].
    injection H as <- <- <-. now rewrite (sub_hit _ _ _ _ _ Hm Hne).
  - destruct (match_at r false (c :: s)) as [[m' rest']|] eqn:Hm.
    + injection H as <- <- <-. now rewrite (sub_hit _ _ _ _ _ Hm Hne).
    + destruct (search r s) as [[[pre' m'] rest']|] eqn:Hs; [|discriminate].
      injection H as <- <- <-. rewrite (sub_miss _ _ _ _ Hm).
      now rewrite (IH _ _ _ eq_refl Hne).
Qed.

Lemma search_here r s m rest :
  match_at r false s = Some (m, rest) -> search r s = Some ([], m, rest).
Proof. intros H. destruct s; cbn [search]; now rewrite H. Qed.

Lemma search_found r : forall pre s,
  match_at r false s <> None -> search r (pre ++ s) <> None.
Proof.
  induction pre as [|c pre IH]; intros s H.
  - cbn [app]. destruct (match_at r false s) as [[m rest]|] eqn:Hm; [|congruence].
    now rewrite (search_here _ _ _ _ Hm).
  - cbn [app search]. destruct (match_at r false (c :: pre ++ s)) as [[m rest]|];
      [discriminate|].
    specialize (IH s H). destruct (search r (pre ++ s)) as [[[p m] q]|];
      [discriminate|congruence].
Qed.

(** *** [\\begin{thebibliography}{(\d+)}] at a counted marker *)

Lemma firstn_app_all (a b : text) : firstn (length (a ++ b) - length b) (a ++ b) = a.
Proof. apply firstn_app_exact. Qed.

Lemma match_at_marker N t :
  N <> [] -> forallb digit N = true ->
  match_at enumeration_re false (marker N ++ t)
  = Some (MObj (marker N) [(1, N)], t).
Proof.
  intros Hne HN. destruct N as [|d N]; [congruence|].
  cbn [forallb] in HN. apply andb_true_iff in HN. destruct HN as [Hd HN].
  unfold match_at.
  assert (R : run enumeration_re (accept false (marker (d :: N) ++ t))
                (marker (d :: N) ++ t) []
              = Some (t, [(1, d :: N)])).
  { unfold enumeration_re, marker, Rep1. cbn [Seq fold_right run].
    rewrite <- !app_assoc, run_Lit. cbn [app]. rewrite Hd.
    apply rep_greedy_app; [exact HN|].
    change (str "}" ++ t) with (125%N :: t).
    cbn [rep_greedy]. replace (digit 125%N) with false by reflexivity.
    rewrite N.eqb_refl. unfold accept. cbn [andb set_group].
    change (d :: N ++ 125%N :: t) with ((d :: N) ++ 125%N :: t).
    now rewrite firstn_app_all. }
  rewrite R. now rewrite firstn_app_all.
Qed.

Lemma occurs_trans a b c : occurs a b -> occurs b c -> occurs a c.
Proof.
  intros (p & q & ->) (p' & q' & ->). exists (p' ++ p), (q ++ q').
  now rewrite <- !app_assoc.
Qed.

Lemma extract_occurs t : occurs (extract_bibliography t) t.
Proof.
  unfold extract_bibliography.
  destruct (search bibliography_re t) as [[[pre m] rest]|] eqn:H.
  - apply search_sound in H. destruct H as (E & _). now exists pre, rest.
  - now exists [], t.
Qed.

Lemma expand_lits X m : expand (map TLit X) m = X.
Proof.
  unfold expand. induction X as [|c X IH]; [reflexivity|]. cbn. now rewrite IH.
Qed.

Lemma parse_template_backslash t :
  parse_template (BSL :: BSL :: t) = TLit BSL :: parse_template t.
Proof. reflexivity. Qed.

Lemma expand_cons_lit c tpl m : expand (TLit c :: tpl) m = c :: expand tpl m.
Proof. reflexivity. Qed.

Lemma enumeration_repl_eq N :
  enumeration_repl N = BSL :: BSL :: str "begin{thebibliography}{" ++ N ++ str "}".
Proof. reflexivity. Qed.

Lemma marker_eq N :
  marker N = BSL :: str "begin{thebibliography}{" ++ N ++ str "}".
Proof. reflexivity. Qed.

(** The template of fix_bibliography_enumeration expands to the marker. *)
Lemma expand_enumeration_repl N m :
  forallb digit N = true ->
  expand (parse_template (enumeration_repl N)) m = marker N.
Proof.
  intros HN.
  rewrite enumeration_repl_eq, parse_template_backslash, marker_eq, expand_cons_lit.
  rewrite parse_template_plain; [now rewrite expand_lits|].
  intros Hin. apply in_app_or in Hin. destruct Hin as [Hin|Hin].
  - cbn in Hin. intuition discriminate.
  - apply in_app_or in Hin. destruct Hin as [Hin|[Hin|[]]]; [|discriminate Hin].
    rewrite forallb_forall in HN. apply HN, digit_not_symbol in Hin. tauto.
Qed.

Lemma fix_declares_count bib_text final_bib_text N M after before_d after_d :
  N <> [] -> forallb digit N = true -> M <> [] -> forallb digit M = true ->
  final_bib_text = marker N ++ after ->
  bib_text = before_d ++ marker M ++ after_d ->
  exists fixed, fix_bibliography_enumeration bib_text final_bib_text = Some fixed
                /\ occurs (marker N) fixed.
Proof.
  intros HNe HN HMe HM -> ->. unfold fix_bibliography_enumeration.
  rewrite (search_here _ _ _ _ (match_at_marker N after HNe HN)).
  eexists. split; [reflexivity|]. cbn [mgroup caps group Nat.eqb].
  destruct (search enumeration_re (before_d ++ marker M ++ after_d))
    as [[[pre m] rest]|] eqn:Hs.
  - assert (Hw : whole m <> []).
    { apply search_sound in Hs. destruct Hs as (_ & L & _).
      apply lang_enumeration in L. destruct L as (ds & -> & _).
      unfold marker. discriminate. }
    rewrite (sub_search _ _ _ _ _ _ Hs Hw), expand_enumeration_repl by exact HN.
    apply occurs_app_l, occurs_here.
  - exfalso. revert Hs. apply search_found.
    now rewrite (match_at_marker M after_d HMe HM).
Qed.

(** C2, as the code has it: when the bibliography of the new document
    starts with a begin marker that declares the count [N] in decimal
    digits, and the bibliography of the diff holds a begin marker with a
    decimal count, [process_files]
    returns, and the text returned holds the begin marker with the count
    [N]: the marker written by [fix_bibliography_enumeration] goes through
    the two cleanups and the replacement untouched. *)
Theorem diff_declares_final_count
    diff_text stderr new_text N M after before_d after_d :
  N <> [] -> forallb digit N = true ->
  M <> [] -> forallb digit M = true ->
  extract_bibliography new_text = marker N ++ after ->
  extract_bibliography diff_text = before_d ++ marker M ++ after_d ->
  exists t,
    process_files (Completed 0 diff_text stderr) (Some new_text) = Returned t /\
    occurs (marker N) t.
Proof.
  intros HNe HN HMe HM Hnew Hdiff. unfold process_files.
  destruct (fix_declares_count _ _ N M after before_d after_d HNe HN HMe HM Hnew Hdiff)
    as (fixed & Hfix & Hocc).
  rewrite Hfix.
  assert (Hd : extract_bibliography diff_text <> []).
  { rewrite Hdiff. unfold marker. destruct before_d; discriminate. }
  assert (Hn : extract_bibliography new_text <> []).
  { rewrite Hnew. unfold marker. discriminate. }
  pose proof (extract_occurs diff_text) as Hin.
  destruct (extract_bibliography diff_text) as [|x dbib] eqn:Ed; [congruence|].
  destruct (extract_bibliography new_text) as [|y nbib] eqn:En; [congruence|].
  eexists. split; [reflexivity|].
  assert (O : occurs (marker N)
                (clean_difcommands
                   (replace (x :: dbib) (clean_difcommands fixed) diff_text))).
  { apply clean_keeps_marker; [exact HN|].
    eapply occurs_trans; [apply clean_keeps_marker; [exact HN|exact Hocc]|].
    apply replace_occurs; [discriminate|exact Hin]. }
  destruct (endswith [NL] _); [exact O|now apply occurs_app_r].
Qed.

Lemma diff_declares_final_count_witness :
  exists t,
    process_files
      (Completed 0
         (str "\begin{thebibliography}{9}\bibitem{a}A\end{thebibliography}") [])
      (Some (str "\begin{thebibliography}{10}\bibitem{a}A\end{thebibliography}"))
    = Returned t /\ occurs (marker (str "10")) t.
Proof.
  apply (diff_declares_final_count _ [] _ (str "10") (str "9")
           (str "\bibitem{a}A\end{thebibliography}") []
           (str "\bibitem{a}A\end{thebibliography}"));
    try discriminate; reflexivity.
Defined.

(** C2 as stated fails when the diff tool has marked up the count itself:
    the begin marker of the diff then carries no plain count, nothing is
    rewritten, and the text returned does not declare the count of the new
    document. *)
Lemma diff_with_marked_count_keeps_it :
  let diff_text :=
    str "\begin{thebibliography}{\DIFdelbegin \DIFdel{9}\DIFdelend \DIFaddbegin \DIFadd{10}\DIFaddend }\bibitem{a}A\end{thebibliography}" in
  let new_text := str "\begin{thebibliography}{10}\bibitem{a}A\end{thebibliography}" in
  let returned :=
    str "\begin{thebibliography}{\DIFdelbegin \DIFdel{9} \DIFdelend \DIFaddbegin \DIFadd{10} \DIFaddend }\bibitem{a}A\end{thebibliography}"
    ++ [NL] in
  extract_bibliography diff_text = diff_text /\
  extract_bibliography new_text = marker (str "10") ++ str "\bibitem{a}A\end{thebibliography}" /\
  process_files (Completed 0 diff_text []) (Some new_text) = Returned returned /\
  ~ occurs (marker (str "10")) returned.
Proof.
  cbv zeta. split; [vm_compute; reflexivity|]. split; [vm_compute; reflexivity|].
  split; [vm_compute; reflexivity|].
  intros H. apply occursb_complete in H. vm_compute in H. discriminate H.
Qed.

(** *** More on latexdiffcite.py *)

(** The only white space left by the cleanup is the space. *)
Lemma clean_only_spaces t :
  Forall (fun c => isspace c = true -> c = SP) (clean_difcommands t).
Proof.
  rewrite clean_split.
  apply sub_closed_Forall; [reflexivity|repeat constructor; discriminate|].
  apply sub_closed_Forall; [reflexivity|repeat constructor; discriminate|].
  apply squeeze_spaces.
Qed.

(** The text returned by [process_files] is one line: a body in which the
    only white space is the space (no line break and no tab of the diff is
    kept), and the newline that ends it. *)
Theorem output_is_one_line ld nf t :
  process_files ld nf = Returned t ->
  exists body, t = body ++ [NL] /\
               Forall (fun c => isspace c = true -> c = SP) body.
Proof.
  intros H. apply process_files_returned in H. destruct H as (u & ->).
  exists (clean_difcommands u). split; [reflexivity|apply clean_only_spaces].
Qed.

Lemma output_is_one_line_witness :
  exists body,
    str "a b c " ++ [NL] = body ++ [NL] /\
    Forall (fun c => isspace c = true -> c = SP) body.
Proof.
  apply (output_is_one_line
           (Completed 0 (str "a" ++ [NL; 9%N] ++ str "b" ++ [NL] ++ str "c" ++ [NL]) [])
           (Some [])).
  vm_compute. reflexivity.
Defined.

(** On text without a backslash the cleanup is the squeeze of white space
    and nothing else. *)
Theorem cleanup_of_plain_text t :
  ~ In BSL t -> clean_difcommands t = squeeze false t.
Proof. apply clean_plain. Qed.

Lemma cleanup_of_plain_text_witness :
  clean_difcommands (str "a  {b}" ++ [NL; NL] ++ str "c ")
  = squeeze false (str "a  {b}" ++ [NL; NL] ++ str "c ").
Proof.
  apply cleanup_of_plain_text. vm_compute. intuition discriminate.
Defined.

(** **** extract_bibliography *)

Definition BEGIN : text := str "\begin{thebibliography}".
Definition END : text := str "\end{thebibliography}".

Lemma run_Lit_startswith l k s g :
  startswith l s = true -> run (Lit l) k s g = k (skipn (length l) s) g.
Proof.
  revert s. induction l as [|c l IH]; intros s H; [reflexivity|].
  destruct s as [|x s]; [discriminate H|]. cbn [startswith] in H.
  apply andb_true_iff in H. destruct H as [Hc Hl]. apply N.eqb_eq in Hc. subst x.
  cbn [Lit run length skipn]. rewrite N.eqb_refl. now apply IH.
Qed.

Lemma match_at_bibliography s m rest :
  match_at bibliography_re false s = Some (m, rest) ->
  exists x, whole m = BEGIN ++ x ++ END /\
    forall x1 x2, x = x1 ++ x2 -> x2 <> [] ->
      startswith END (x2 ++ END ++ rest) = false.
Proof.
  intros Hm. destruct (match_at_sound _ _ _ _ _ Hm) as (Hs & L & _).
  unfold bibliography_re in L. rewrite lang_Seq_cons in L.
  destruct L as (b & t1 & Hw & Hb & L). apply lang_Lit in Hb. subst b.
  rewrite lang_Seq_cons in L. destruct L as (x & t2 & -> & _ & L).
  rewrite lang_Seq_cons in L. destruct L as (e & t3 & -> & He & L).
  apply lang_Lit in He. cbn [Seq fold_right lang] in L. subst e t3.
  rewrite app_nil_r in Hw. exists x. split; [exact Hw|].
  (* the lazy repetition stopped at the first end marker *)
  unfold match_at in Hm.
  destruct (run bibliography_re (accept false s) s []) as [[rest' g]|] eqn:R;
    [|discriminate].
  injection Hm as _ <-.
  rewrite Hs, Hw in R. unfold bibliography_re in R. cbn [Seq fold_right run] in R.
  rewrite <- !app_assoc in R. fold BEGIN in R. unfold BEGIN in R.
  rewrite run_Lit in R.
  apply rep_lazy_first in R. destruct R as (w & s' & E & _ & Hk & Hfirst).
  assert (Hs' : s' = END ++ rest').
  { destruct (run_sound _ _ _ _ _ Hk) as (u & s'' & g' & -> & Lu & Hacc).
    apply lang_Lit in Lu. subst u. cbn [run] in Hacc. unfold accept in Hacc.
    cbn [andb] in Hacc. injection Hacc as <- _. reflexivity. }
  subst s'. fold END in E. apply app_inv_tail in E. subst w.
  intros x1 x2 Ex Hne.
  destruct (startswith END (x2 ++ END ++ rest')) eqn:St; [|reflexivity].
  specialize (Hfirst x1 x2 Ex Hne). fold END in Hfirst.
  rewrite (run_Lit_startswith _ _ _ _ St) in Hfirst. discriminate Hfirst.
Qed.

Lemma match_at_bibliography_found x t :
  match_at bibliography_re false (BEGIN ++ x ++ END ++ t) <> None.
Proof.
  unfold match_at.
  destruct (run bibliography_re _ _ []) as [[rest g]|] eqn:R; [discriminate|].
  exfalso. revert R. unfold bibliography_re. cbn [Seq fold_right run].
  unfold BEGIN. rewrite run_Lit. apply rep_lazy_complete; [|].
  - clear. induction x as [|c x IH]; [reflexivity|exact IH].
  - fold END. rewrite run_Lit. discriminate.
Qed.

Lemma run_Lit_refused l (k : kont) s g :
  startswith l s = false -> run (Lit l) k s g = None.
Proof.
  revert s. induction l as [|c l IH]; intros s H; [discriminate H|].
  destruct s as [|x s]; [reflexivity|]. cbn [startswith] in H. cbn [Lit run].
  destruct (N.eqb x c) eqn:E.
  - apply IH. rewrite N.eqb_sym in E. now rewrite E in H.
  - reflexivity.
Qed.

Lemma startswith_longer p s t :
  startswith p s = true -> startswith p (s ++ t) = true.
Proof.
  revert s. induction p as [|c p IH]; intros s H; [reflexivity|].
  destruct s as [|x s]; [discriminate H|]. cbn [startswith app] in *.
  apply andb_true_iff in H. destruct H as [-> H]. now apply IH.
Qed.

Lemma extract_bibliography_shape t :
  extract_bibliography t <> [] ->
  exists before x after,
    t = before ++ BEGIN ++ x ++ END ++ after /\
    extract_bibliography t = BEGIN ++ x ++ END /\
    forall x1 x2, x = x1 ++ x2 -> x2 <> [] ->
      startswith END (x2 ++ END ++ after) = false.
Proof.
  unfold extract_bibliography.
  destruct (search bibliography_re t) as [[[pre m] rest]|] eqn:H; [|congruence].
  intros _. apply search_sound in H. destruct H as (E & _ & Hm).
  apply match_at_bibliography in Hm. destruct Hm as (x & Hw & Hfirst).
  exists pre, x, rest. cbn [mgroup]. rewrite E, Hw, <- !app_assoc. auto.
Qed.

Lemma forallb_any x : forallb any x = true.
Proof. induction x as [|c x IH]; [reflexivity|exact IH]. Qed.

(** [extract_bibliography] returns the first environment of the text: it
    is empty exactly when no begin marker is followed by an end marker;
    otherwise it is a part of the text that starts with the begin marker and
    ends at the first end marker after it. *)
Theorem extract_bibliography_first_environment t :
  (extract_bibliography t <> [] <->
   exists a x b, t = a ++ BEGIN ++ x ++ END ++ b) /\
  (extract_bibliography t <> [] ->
   exists before x after,
     t = before ++ BEGIN ++ x ++ END ++ after /\
     extract_bibliography t = BEGIN ++ x ++ END /\
     forall x1 x2, x = x1 ++ x2 -> x2 <> [] ->
       startswith END (x2 ++ END ++ after) = false).
Proof.
  split; [split|apply extract_bibliography_shape].
  - intros H. destruct (extract_bibliography_shape t H) as (a & x & b & E & _). eauto.
  - intros (a & x & b & ->). unfold extract_bibliography.
    pose proof (search_found bibliography_re a _ (match_at_bibliography_found x b)) as F.
    destruct (search bibliography_re _) as [[[pre m] rest]|] eqn:H; [|congruence].
    apply search_sound in H. destruct H as (_ & L & _). cbn [mgroup].
    intros Hw. rewrite Hw in L. unfold bibliography_re in L.
    rewrite lang_Seq_cons in L. destruct L as (u & v & E & Lu & _).
    apply lang_Lit in Lu. subst u. discriminate E.
Qed.

(** The block returned by [extract_bibliography] is its own block: the
    function returns at once what it returns when applied twice. *)
Theorem extract_bibliography_idempotent t :
  extract_bibliography (extract_bibliography t) = extract_bibliography t.
Proof.
  destruct (extract_bibliography t) as [|c e] eqn:E; [reflexivity|].
  destruct (extract_bibliography_shape t) as (before & x & after & _ & Ex & Hfirst);
    [congruence|].
  rewrite E in Ex. rewrite Ex.
  assert (M : match_at bibliography_re false (BEGIN ++ x ++ END)
              = Some (MObj (BEGIN ++ x ++ END) [], [])).
  { unfold match_at, bibliography_re. cbn [Seq fold_right run].
    unfold BEGIN at 2. rewrite run_Lit.
    rewrite (rep_lazy_exact any _ x END [] ([], [])).
    - rewrite Nat.sub_0_r, firstn_all. reflexivity.
    - apply forallb_any.
    - intros x1 x2 Hx Hne. apply run_Lit_refused.
      destruct (startswith (str "\end{thebibliography}") (x2 ++ END)) eqn:S;
        [|reflexivity].
      apply (startswith_longer _ _ after) in S. rewrite <- app_assoc in S.
      fold END in S. now rewrite (Hfirst x1 x2 Hx Hne) in S.
    - reflexivity. }
  unfold extract_bibliography. rewrite (search_here _ _ _ _ M). reflexivity.
Qed.

(** **** fix_bibliography_enumeration *)

(** Without a begin marker with a decimal count in the block to fix,
    nothing is rewritten. *)
Theorem fix_without_count_is_identity bib_text final_bib_text fixed :
  (forall a digits b, bib_text = a ++ marker digits ++ b ->
     digits <> [] -> forallb digit digits = true -> False) ->
  fix_bibliography_enumeration bib_text final_bib_text = Some fixed ->
  fixed = bib_text.
Proof.
  intros Hnone. unfold fix_bibliography_enumeration.
  destruct (search enumeration_re final_bib_text) as [[[pre m] rest]|];
    [|discriminate].
  intros H. injection H as <-. apply sub_unmatched. intros s1 s2 E.
  destruct (match_at enumeration_re false s2) as [[m' rest']|] eqn:Hm;
    [|reflexivity].
  exfalso. destruct (match_at_sound _ _ _ _ _ Hm) as (E2 & L & _).
  apply lang_enumeration in L. destruct L as (ds & Hw & Hne & Hd).
  apply (Hnone s1 ds rest'); auto. now rewrite E, E2, Hw.
Qed.

Lemma fix_without_count_is_identity_witness :
  fix_bibliography_enumeration (str "\begin{thebibliography}{}x")
    (str "\begin{thebibliography}{7}")
  = Some (str "\begin{thebibliography}{}x").
Proof.
  destruct (fix_bibliography_enumeration (str "\begin{thebibliography}{}x")
              (str "\begin{thebibliography}{7}")) as [fixed|] eqn:E;
    [|discriminate E].
  f_equal. refine (fix_without_count_is_identity _ _ _ _ E).
  intros a digits b H Hne Hd.
  assert (F : search enumeration_re (str "\begin{thebibliography}{}x") <> None).
  { rewrite H. apply search_found. rewrite (match_at_marker digits b Hne Hd); discriminate. }
  apply F. reflexivity.
Defined.

(** **** process_files and main *)

(** [process_files] returns whenever the diff tool succeeded, the new file
    was read and the failure of [fix_bibliography_enumeration] is excluded:
    one of the two texts has no bibliography environment, or the block of
    the new document holds a begin marker with a decimal count. *)
Theorem process_files_returns diff_text stderr new_text :
  extract_bibliography diff_text = [] \/
  extract_bibliography new_text = [] \/
  (exists a digits b,
     extract_bibliography new_text = a ++ marker digits ++ b /\
     digits <> [] /\ forallb digit digits = true) ->
  exists t, process_files (Completed 0 diff_text stderr) (Some new_text) = Returned t.
Proof.
  intros H. unfold process_files.
  destruct (extract_bibliography diff_text) as [|x dbib]; [eauto|].
  destruct (extract_bibliography new_text) as [|y nbib] eqn:En; [eauto|].
  destruct H as [H|[H|(a & ds & b & E & Hne & Hd)]]; try discriminate H.
  unfold fix_bibliography_enumeration.
  assert (F : search enumeration_re (y :: nbib) <> None).
  { rewrite E. apply search_found. rewrite (match_at_marker ds b Hne Hd); discriminate. }
  destruct (search enumeration_re (y :: nbib)) as [[[pre m] rest]|]; [eauto|congruence].
Qed.

Lemma process_files_returns_witness :
  exists t,
    process_files (Completed 0 (str "no bibliography") [])
      (Some (str "\begin{thebibliography}{}\end{thebibliography}"))
    = Returned t.
Proof. apply process_files_returns. left. reflexivity. Defined.

(** [main] exits with status 0 exactly when it has written a diff, which is
    then one line; in every other case the status is 1 and standard output
    holds nothing, or the usage line when the arguments are not two. *)
Theorem main_writes_a_diff_or_nothing argv latexdiff read out err status :
  main argv latexdiff read = (out, err, status) ->
  (status = 0 /\ length argv = 3 /\
   exists body, out = body ++ [NL] /\ ~ In NL body) \/
  (status = 1 /\ length argv = 3 /\ out = []) \/
  (status = 1 /\ length argv <> 3 /\ out = usage).
Proof.
  unfold main.
  destruct argv as [|a0 [|a1 [|a2 [|a3 argv]]]];
    try (intros H; injection H as <- <- <-; right; right;
         repeat split; cbn [length]; lia).
  destruct (process_files (latexdiff a1 a2) (read a2)) as [t|code e|e] eqn:P;
    intros H; injection H as <- <- <-.
  - left. repeat split. apply process_files_returned in P. destruct P as (u & ->).
    exists (clean_difcommands u). split; [reflexivity|apply clean_no_newline].
  - right. left. repeat split. unfold process_files in P.
    destruct (latexdiff a1 a2) as [[|rc] o e'|msg]; try (injection P as <- _; reflexivity).
    destruct (read a2); [|discriminate P].
    destruct (match extract_bibliography o with [] => _ | _ :: _ => _ end);
      discriminate P.
  - right. left. repeat split.
Qed.

Lemma main_writes_a_diff_or_nothing_witness :
  (1 = 1 /\ length [str "latexdiffcite.py"; str "old.tex"] = 3 /\ usage = []) \/
  (1 = 1 /\ length [str "latexdiffcite.py"; str "old.tex"] <> 3 /\ usage = usage).
Proof.
  destruct (main_writes_a_diff_or_nothing
              [str "latexdiffcite.py"; str "old.tex"]
              (fun _ _ => LaunchError []) (fun _ => None) usage [] 1 eq_refl)
    as [(H & _)|H]; [discriminate H|exact H].
Defined.

(** *** Texts cut at the backslashes *)

(** The text made of segments, each a backslash and what follows it up to
    the next backslash. *)
Definition segs (ys : list text) : text := flat_map (fun y => BSL :: y) ys.

Definition bfree (y : text) : Prop := ~ In BSL y.

Lemma segs_cut t :
  exists x ys, t = x ++ segs ys /\ bfree x /\ Forall bfree ys.
Proof.
  induction t as [|c t (x & ys & -> & Hx & Hys)].
  - exists [], []. repeat split; [intros []|constructor].
  - destruct (N.eqb c BSL) eqn:E.
    + apply N.eqb_eq in E. subst c. exists [], (x :: ys).
      repeat split; [intros []|now constructor].
    + apply N.eqb_neq in E. exists (c :: x), ys.
      repeat split; [|exact Hys]. intros [H|H]; [congruence|now apply Hx].
Qed.

Lemma segs_app a b : segs (a ++ b) = segs a ++ segs b.
Proof. apply flat_map_app. Qed.

Lemma segs_head ys : ys = [] \/ exists y ys', segs ys = BSL :: y ++ segs ys'.
Proof. destruct ys as [|y ys]; [now left|right]. now exists y, ys. Qed.

Lemma startswith_split w y : startswith w y = true -> exists l, y = w ++ l.
Proof.
  revert y. induction w as [|c w IH]; intros y H; [now exists y|].
  destruct y as [|d y]; [discriminate H|]. cbn [startswith] in H.
  apply andb_true_iff in H. destruct H as [Hc Hw]. apply N.eqb_eq in Hc. subst d.
  destruct (IH y Hw) as (l & ->). now exists l.
Qed.

(** A word that starts with a backslash and holds no other occurs in a text
    exactly when it starts one of the segments. *)
Lemma occurs_segs x ys y w :
  In y ys -> startswith w y = true -> occurs (BSL :: w) (x ++ segs ys).
Proof.
  intros Hin Hw. apply in_split in Hin. destruct Hin as (a & b & ->).
  apply startswith_split in Hw. destruct Hw as (l & ->).
  rewrite segs_app. cbn [segs flat_map]. exists (x ++ segs a), (l ++ segs b).
  unfold segs. cbn [app]. rewrite <- !app_assoc. reflexivity.
Qed.

Lemma no_occurs_segs w : bfree w -> forall ys x,
  bfree x -> Forall bfree ys ->
  Forall (fun y => startswith w y = false) ys ->
  ~ occurs (BSL :: w) (x ++ segs ys).
Proof.
  intros Hw. induction ys as [|y ys IH]; intros x Hx Hys Hno (pre & post & E).
  - cbn [segs flat_map] in E. rewrite app_nil_r in E. apply Hx. rewrite E.
    apply in_or_app. right. now left.
  - inversion Hys as [|? ? Hy Hys']; subst. inversion Hno as [|? ? Hny Hno']; subst.
    cbn [segs flat_map] in E. fold (segs ys) in E.
    change (x ++ BSL :: y ++ segs ys = pre ++ BSL :: w ++ post) in E.
    destruct (app_cut _ _ _ _ E) as [(e & Hpre & He)|(e & Hne & Hxe & He)].
    + destruct e as [|c e].
      * cbn [app] in He. injection He as He.
        destruct (app_cut _ _ _ _ He) as [(e & Hwe & Hs)|(e & Hne & Hye & _)].
        -- destruct e as [|c e].
           ++ rewrite app_nil_r in Hwe. subst w.
              assert (T : startswith y y = true).
              { rewrite <- (app_nil_r y) at 2. apply startswith_app. }
              congruence.
           ++ destruct ys as [|y2 ys]; [discriminate Hs|].
              cbn [segs flat_map app] in Hs. injection Hs as <- _.
              apply Hw. rewrite Hwe. apply in_or_app. right. now left.
        -- rewrite Hye in Hny.
           now rewrite startswith_app in Hny.
      * cbn [app] in He. injection He as <- He.
        apply (IH y Hy Hys' Hno'). now exists e, post.
    + destruct e as [|c e]; [congruence|].
      cbn [app] in He. injection He as <- _.
      apply Hx. rewrite Hxe. apply in_or_app. right. now left.
Qed.

Lemma segs_without x ys w :
  ~ occurs (BSL :: w) (x ++ segs ys) ->
  Forall (fun y => startswith w y = false) ys.
Proof.
  intros H. apply Forall_forall. intros y Hy.
  destruct (startswith w y) eqn:E; [|reflexivity].
  exfalso. apply H. now apply (occurs_segs x ys y w).
Qed.

(** *** The squeeze, segment by segment *)

Lemma squeeze_stop c r : isspace c = false -> forall x b,
  squeeze b (x ++ c :: r) = squeeze b x ++ c :: squeeze false r.
Proof.
  intros Hc. induction x as [|d x IH]; intros b; cbn [app squeeze].
  - now rewrite Hc.
  - destruct (isspace d); [destruct b|]; cbn [app]; now rewrite IH.
Qed.

Lemma squeeze_segs ys : forall x b,
  squeeze b (x ++ segs ys) = squeeze b x ++ segs (map (squeeze false) ys).
Proof.
  induction ys as [|y ys IH]; intros x b.
  - cbn [segs flat_map map]. now rewrite !app_nil_r.
  - cbn [segs flat_map map]. fold (segs ys). fold (segs (map (squeeze false) ys)).
    change (x ++ (BSL :: y) ++ segs ys) with (x ++ BSL :: (y ++ segs ys)).
    rewrite squeeze_stop by reflexivity. now rewrite IH.
Qed.

Lemma squeeze_length s : forall b, length (squeeze b s) <= length s.
Proof.
  induction s as [|c s IH]; intros b; cbn [squeeze length]; [lia|].
  destruct (isspace c); [destruct b|]; cbn [length];
    [specialize (IH true)|specialize (IH true)|specialize (IH false)]; lia.
Qed.

Lemma app_same_length {A} (a a' b b' : list A) :
  a ++ b = a' ++ b' -> length a = length a' -> a = a' /\ b = b'.
Proof.
  revert a'. induction a as [|x a IH]; intros [|x' a'] E L; try discriminate L.
  - now split.
  - cbn [app] in E. injection E as <- E. injection L as L.
    destruct (IH a' E L) as [-> ->]. now split.
Qed.

(** What follows a character that is no white space in a squeezed text is
    squeezed. *)
Lemma squeezed_tail z a c r :
  squeeze false z = z -> z = a ++ c :: r -> isspace c = false ->
  squeeze false r = r.
Proof.
  intros Hz -> Hc. rewrite squeeze_stop in Hz by exact Hc.
  pose proof (squeeze_length a false) as La.
  pose proof (squeeze_length r false) as Lr.
  assert (L : length (squeeze false a) = length a).
  { apply (f_equal (@length _)) in Hz. rewrite !length_app in Hz.
    cbn [length] in Hz. lia. }
  apply app_same_length in Hz; [|exact L]. destruct Hz as [_ Hz]. now injection Hz.
Qed.

Lemma bfree_squeeze b y : bfree y -> bfree (squeeze b y).
Proof. apply squeeze_absent. discriminate. Qed.

Lemma startswith_squeeze w : forallb (fun c => negb (isspace c)) w = true ->
  forall y, startswith w (squeeze false y) = startswith w y.
Proof.
  induction w as [|c w IH]; intros Hw y; [reflexivity|].
  cbn [forallb] in Hw. apply andb_true_iff in Hw. destruct Hw as [Hc Hw].
  apply negb_true_iff in Hc.
  destruct y as [|d y]; [reflexivity|]. cbn [squeeze].
  destruct (isspace d) eqn:Hd; cbn [startswith].
  - assert (E1 : N.eqb c SP = false).
    { apply N.eqb_neq. intros ->. discriminate Hc. }
    assert (E2 : N.eqb c d = false).
    { apply N.eqb_neq. intros ->. congruence. }
    now rewrite E1, E2.
  - now rewrite IH.
Qed.

(** *** The last two substitutions, segment by segment *)

Ltac reassoc :=
  repeat (progress (rewrite <- ?app_assoc; cbn [app])); try reflexivity.

Definition LB : char := 123%N.

Fixpoint strip_prefix (p s : text) : option text :=
  match p, s with
  | [], _ => Some s
  | x :: p', y :: s' => if N.eqb x y then strip_prefix p' s' else None
  | _ :: _, [] => None
  end.

Lemma strip_prefix_app p s : strip_prefix p (p ++ s) = Some s.
Proof. induction p as [|c p IH]; [reflexivity|]. cbn. now rewrite N.eqb_refl. Qed.

Lemma strip_prefix_Some p : forall s a, strip_prefix p s = Some a -> s = p ++ a.
Proof.
  induction p as [|c p IH]; intros s a H; [now injection H as <-|].
  destruct s as [|d s]; [discriminate H|]. cbn [strip_prefix] in H.
  destruct (N.eqb c d) eqn:E; [|discriminate H]. apply N.eqb_eq in E. subst d.
  cbn [app]. f_equal. now apply IH.
Qed.

Lemma skip_while_cut p s :
  exists u, s = u ++ skip_while p s /\ forallb p u = true.
Proof.
  induction s as [|c s (u & E & Hu)]; [now exists []|]. cbn [skip_while].
  destruct (p c) eqn:Hc.
  - exists (c :: u). cbn [app forallb]. rewrite Hc, Hu. split; [now f_equal|reflexivity].
  - now exists [].
Qed.

Lemma skip_while_stop p u c r :
  forallb p u = true -> p c = false -> skip_while p (u ++ c :: r) = c :: r.
Proof.
  intros Hu Hc. induction u as [|d u IH]; cbn [app skip_while]; [now rewrite Hc|].
  cbn [forallb] in Hu. apply andb_true_iff in Hu. destruct Hu as [-> Hu]. now apply IH.
Qed.

(** What follows [name], white space and an opening brace at the start of
    a segment. *)
Definition shape (name y : text) : option text :=
  match strip_prefix name y with
  | Some (c :: a) =>
      if isspace c then
        match skip_while isspace a with
        | b :: r => if N.eqb b LB then Some r else None
        | [] => None
        end
      else None
  | _ => None
  end.

Definition tighten (name y : text) : text :=
  match shape name y with
  | Some r => name ++ LB :: r
  | None => y
  end.

Lemma shape_complete name c u r :
  isspace c = true -> forallb ws u = true ->
  shape name (name ++ c :: u ++ LB :: r) = Some r.
Proof.
  intros Hc Hu. unfold shape. rewrite strip_prefix_app, Hc.
  rewrite (skip_while_stop isspace u LB r Hu eq_refl). now rewrite N.eqb_refl.
Qed.

Lemma shape_sound name y r :
  shape name y = Some r ->
  exists c u, y = name ++ c :: u ++ LB :: r /\ isspace c = true /\
              forallb ws u = true.
Proof.
  unfold shape. destruct (strip_prefix name y) as [[|c a]|] eqn:S; try discriminate.
  apply strip_prefix_Some in S. destruct (isspace c) eqn:Hc; [|discriminate].
  destruct (skip_while_cut isspace a) as (u & Ea & Hu).
  destruct (skip_while isspace a) as [|b r']; [discriminate|].
  destruct (N.eqb b LB) eqn:Eb; [|discriminate]. apply N.eqb_eq in Eb. subst b.
  intros H. injection H as <-. exists c, u. now rewrite S, Ea at 1.
Qed.

Section SpacedBrace.

Variable name : text.
Variable repl : text.
Hypothesis name_bfree : bfree name.
Hypothesis repl_expands :
  forall m, expand (parse_template repl) m = BSL :: name ++ [LB].

Let sb := spaced_brace_re name.

Lemma sb_head c s : c <> BSL -> match_at sb false (c :: s) = None.
Proof.
  intros Hc. unfold match_at, sb, spaced_brace_re. cbn [Seq fold_right Lit run].
  apply N.eqb_neq in Hc. now rewrite Hc.
Qed.

Lemma sb_nil : match_at sb false [] = None.
Proof. reflexivity. Qed.

Lemma sb_sound s m rest :
  match_at sb false s = Some (m, rest) ->
  exists c u, s = (BSL :: name) ++ (c :: u) ++ [LB] ++ rest /\
              whole m <> [] /\ isspace c = true /\ forallb ws u = true.
Proof.
  intros H. destruct (match_at_sound _ _ _ _ _ H) as (E & L & _).
  apply lang_spaced_brace in L. destruct L as (c & u & Hw & Hc & Hu).
  exists c, u. rewrite E, Hw. repeat split; try assumption.
  - now rewrite <- !app_assoc.
  - discriminate.
Qed.

Lemma sb_complete c u r :
  isspace c = true -> forallb ws u = true ->
  match_at sb false ((BSL :: name) ++ (c :: u) ++ LB :: r) <> None.
Proof.
  intros Hc Hu. unfold match_at.
  destruct (run sb _ _ []) as [[rest g]|] eqn:R; [discriminate|].
  exfalso. revert R. unfold sb, spaced_brace_re. cbn [Seq fold_right run].
  rewrite run_Lit. unfold Rep1. cbn [run app]. unfold ws at 1. rewrite Hc.
  intros R.
  rewrite (rep_greedy_app ws _ u (LB :: r) [] (r, [])) in R; [discriminate|exact Hu|].
  reflexivity.
Qed.

Lemma sb_plain x : bfree x -> forall rest,
  sub sb repl (x ++ rest) = x ++ sub sb repl rest.
Proof.
  induction x as [|c x IH]; intros Hx rest; [reflexivity|]. cbn [app].
  rewrite sub_miss.
  - f_equal. apply IH. intros H. apply Hx. now right.
  - apply sb_head. intros ->. apply Hx. now left.
Qed.

Lemma sb_segment y rest :
  bfree y -> (rest = [] \/ exists r', rest = BSL :: r') ->
  sub sb repl (BSL :: y ++ rest) = BSL :: tighten name y ++ sub sb repl rest.
Proof.
  intros Hy Hrest. unfold tighten. destruct (shape name y) as [r|] eqn:S.
  - apply shape_sound in S. destruct S as (c & u & -> & Hc & Hu).
    assert (Hr : bfree r).
    { intros H. apply Hy. apply in_or_app. right. right.
      apply in_or_app. right. now right. }
    destruct (match_at sb false (BSL :: (name ++ c :: u ++ LB :: r) ++ rest))
      as [[m rest']|] eqn:M.
    + destruct (sb_sound _ _ _ M) as (c' & u' & E & Hne & Hc' & Hu').
      rewrite (sub_hit _ _ _ _ _ M Hne), repl_expands.
      assert (rest' = r ++ rest).
      { cbn [app] in E. injection E as E. rewrite <- app_assoc in E.
        apply app_inv_head in E.
        assert (E' : (c :: u) ++ LB :: (r ++ rest) = (c' :: u') ++ LB :: rest').
        { cbn [app] in E |- *. rewrite <- app_assoc in E. exact E. }
        apply first_split in E'; [now destruct E'|..];
          intros H; [destruct H as [H|H]|destruct H as [H|H]].
        - subst c. discriminate Hc.
        - rewrite forallb_forall in Hu. now specialize (Hu _ H).
        - subst c'. discriminate Hc'.
        - rewrite forallb_forall in Hu'. now specialize (Hu' _ H). }
      subst rest'. rewrite (sb_plain r Hr). cbn [app]. f_equal.
      rewrite <- !app_assoc. cbn [app]. reflexivity.
    + exfalso. revert M.
      replace (BSL :: (name ++ c :: u ++ LB :: r) ++ rest)
        with ((BSL :: name) ++ (c :: u) ++ LB :: (r ++ rest))
        by reassoc.
      now apply sb_complete.
  - destruct (match_at sb false (BSL :: y ++ rest)) as [[m rest']|] eqn:M.
    + exfalso. destruct (sb_sound _ _ _ M) as (c & u & E & _ & Hc & Hu).
      cbn [app] in E. injection E as E.
      replace (name ++ c :: u ++ LB :: rest')
        with ((name ++ c :: u ++ [LB]) ++ rest') in E
        by reassoc.
      assert (Hq : bfree (name ++ c :: u ++ [LB])).
      { intros H. apply in_app_or in H. destruct H as [H|[H|H]];
          [now apply name_bfree|subst c; discriminate Hc|].
        apply in_app_or in H. destruct H as [H|[H|[]]]; [|discriminate H].
        rewrite forallb_forall in Hu. now specialize (Hu _ H). }
      destruct (app_cut _ _ _ _ E) as [(e & Hq' & He)|(e & Hne & Hye & _)].
      * destruct e as [|b e].
        -- rewrite app_nil_r in Hq'. rewrite <- Hq' in S.
           now rewrite (shape_complete name c u [] Hc Hu) in S.
        -- destruct Hrest as [-> | (r' & ->)]; [discriminate He|].
           injection He as <- _. apply Hq. rewrite Hq'.
           apply in_or_app. right. now left.
      * rewrite Hye in S.
        replace ((name ++ c :: u ++ [LB]) ++ e) with (name ++ c :: u ++ LB :: e) in S
          by reassoc.
        now rewrite (shape_complete name c u e Hc Hu) in S.
    + rewrite sub_miss by exact M. f_equal. now apply sb_plain.
Qed.

Lemma sb_segs ys : Forall bfree ys ->
  sub sb repl (segs ys) = segs (map (tighten name) ys).
Proof.
  induction ys as [|y ys IH]; intros H; [reflexivity|].
  inversion H as [|? ? Hy Hys]; subst. cbn [segs flat_map map].
  fold (segs ys). fold (segs (map (tighten name) ys)). cbn [app].
  rewrite sb_segment; [now rewrite IH| exact Hy |].
  destruct ys as [|y2 ys]; [now left|right]. now eexists.
Qed.

Lemma sb_text x ys : bfree x -> Forall bfree ys ->
  sub sb repl (x ++ segs ys) = x ++ segs (map (tighten name) ys).
Proof. intros Hx Hys. now rewrite sb_plain, sb_segs. Qed.

Lemma tighten_bfree y : bfree y -> bfree (tighten name y).
Proof.
  intros Hy. unfold tighten. destruct (shape name y) as [r|] eqn:S; [|exact Hy].
  apply shape_sound in S. destruct S as (c & u & -> & _).
  intros H. apply in_app_or in H. destruct H as [H|[H|H]];
    [now apply name_bfree|discriminate H|].
  apply Hy. apply in_or_app. right. right. apply in_or_app. right. now right.
Qed.

End SpacedBrace.

(** *** The cleanup of a text without diff markers *)

Definition DIF : text := str "DIF".

Lemma marker_occurs name' rest u w :
  w = u ++ (BSL :: DIF ++ name') ++ rest -> occurs (BSL :: DIF) w.
Proof.
  intros ->. exists u, (name' ++ rest). cbn [app]. now rewrite <- !app_assoc.
Qed.

Lemma opening_DIF name' w :
  lang (opening_re (DIF ++ name')) w -> occurs (BSL :: DIF) w.
Proof.
  intros H. apply lang_opening in H. destruct H as (u & v & E & _).
  now apply (marker_occurs name' (u ++ v) []).
Qed.

Lemma closing_DIF name' w :
  lang (closing_re (DIF ++ name')) w -> occurs (BSL :: DIF) w.
Proof.
  intros H. apply lang_closing in H. destruct H as (u0 & u & v & E & _).
  now apply (marker_occurs name' (u ++ v) u0).
Qed.

Lemma broken_DIF name' w :
  lang (broken_re (DIF ++ name')) w -> occurs (BSL :: DIF) w.
Proof.
  intros H. apply lang_broken in H. destruct H as (x & u1 & u2 & E & _).
  apply (marker_occurs name' (([123%N] ++ x ++ [125%N]) ++ u1 ++ [NL] ++ u2) []).
  rewrite E. unfold DIF. reassoc.
Qed.

Lemma delend_addbegin_DIF w :
  lang delend_addbegin_re w -> occurs (BSL :: DIF) w.
Proof.
  intros H. apply lang_delend_addbegin in H. destruct H as (u1 & u2 & o & E & _).
  apply (marker_occurs (str "delend")
           ((u1 ++ str "\DIFaddbegin" ++ u2) ++ o ++ str "begin{thebibliography}") []).
  rewrite E. unfold DIF. reassoc.
Qed.

(** Without [\DIF] the first seven substitutions find nothing. *)
Lemma markers_done_without t : ~ occurs (BSL :: DIF) t -> markers_done t = t.
Proof.
  intros H. unfold markers_done, difcommand_steps. cbn [firstn fold_left].
  unfold step. cbn [fst snd].
  rewrite (sub_unmatched delend_addbegin_re) by
    (apply (unmatched_without _ (BSL :: DIF)); [apply delend_addbegin_DIF|exact H]).
  rewrite (sub_unmatched (opening_re (str "DIFaddbegin"))) by
    (apply (unmatched_without _ (BSL :: DIF));
       [apply (opening_DIF (str "addbegin"))|exact H]).
  rewrite (sub_unmatched (closing_re (str "DIFaddend"))) by
    (apply (unmatched_without _ (BSL :: DIF));
       [apply (closing_DIF (str "addend"))|exact H]).
  rewrite (sub_unmatched (opening_re (str "DIFdelbegin"))) by
    (apply (unmatched_without _ (BSL :: DIF));
       [apply (opening_DIF (str "delbegin"))|exact H]).
  rewrite (sub_unmatched (closing_re (str "DIFdelend"))) by
    (apply (unmatched_without _ (BSL :: DIF));
       [apply (closing_DIF (str "delend"))|exact H]).
  rewrite (sub_unmatched (broken_re (str "DIFadd"))) by
    (apply (unmatched_without _ (BSL :: DIF));
       [apply (broken_DIF (str "add"))|exact H]).
  rewrite (sub_unmatched (broken_re (str "DIFdel"))) by
    (apply (unmatched_without _ (BSL :: DIF));
       [apply (broken_DIF (str "del"))|exact H]).
  reflexivity.
Qed.

(** What the cleanup makes of one segment. *)
Definition clean_segment (y : text) : text :=
  tighten (str "end") (tighten (str "begin") (squeeze false y)).

Lemma begin_bfree : bfree (str "begin").
Proof. vm_compute. intuition discriminate. Qed.

Lemma end_bfree : bfree (str "end").
Proof. vm_compute. intuition discriminate. Qed.

Lemma clean_segment_bfree y : bfree y -> bfree (clean_segment y).
Proof.
  intros H. unfold clean_segment.
  apply (tighten_bfree _ end_bfree), (tighten_bfree _ begin_bfree).
  now apply bfree_squeeze.
Qed.

(** Without [\DIF] the cleanup squeezes the white space and closes up
    [\begin {] and [\end {], each segment for itself. *)
Lemma clean_segments x ys :
  bfree x -> Forall bfree ys -> ~ occurs (BSL :: DIF) (x ++ segs ys) ->
  clean_difcommands (x ++ segs ys)
  = squeeze false x ++ segs (map clean_segment ys).
Proof.
  intros Hx Hys H. rewrite clean_split, (markers_done_without _ H), squeeze_segs.
  assert (Hx' : bfree (squeeze false x)) by now apply bfree_squeeze.
  assert (Hs : Forall bfree (map (squeeze false) ys)).
  { apply Forall_map. eapply Forall_impl; [|exact Hys].
    intros y. apply bfree_squeeze. }
  rewrite (sb_text (str "begin") (str "\\begin{") begin_bfree) by
    (reflexivity || assumption).
  rewrite (sb_text (str "end") (str "\\end{") end_bfree); [|reflexivity|exact Hx'|].
  - now rewrite !map_map.
  - apply Forall_map. eapply Forall_impl; [|exact Hs].
    intros y. apply (tighten_bfree _ begin_bfree).
Qed.

Lemma tighten_fixed name y : shape name y = None -> tighten name y = y.
Proof. unfold tighten. now intros ->. Qed.

Lemma tighten_done name r : tighten name (name ++ LB :: r) = name ++ LB :: r.
Proof.
  apply tighten_fixed. unfold shape. now rewrite strip_prefix_app.
Qed.

Lemma squeeze_done name r :
  forallb (fun c => negb (isspace c)) name = true ->
  squeeze false r = r ->
  squeeze false (name ++ LB :: r) = name ++ LB :: r.
Proof.
  intros Hn Hr. rewrite squeeze_stop by reflexivity. rewrite Hr. f_equal.
  induction name as [|c name IH]; [reflexivity|]. cbn [forallb] in Hn.
  apply andb_true_iff in Hn. destruct Hn as [Hc Hn]. apply negb_true_iff in Hc.
  cbn [squeeze]. rewrite Hc. f_equal. now apply IH.
Qed.

Lemma squeezed_after name z r :
  squeeze false z = z -> shape name z = Some r -> squeeze false r = r.
Proof.
  intros Hz S. apply shape_sound in S. destruct S as (c & u & E & _).
  apply (squeezed_tail z (name ++ c :: u) LB r Hz); [|reflexivity].
  rewrite E. now rewrite <- app_assoc.
Qed.

Lemma clean_segment_idem y : clean_segment (clean_segment y) = clean_segment y.
Proof.
  unfold clean_segment.
  pose proof (proj1 (squeeze_idem y)) as Hz. set (z := squeeze false y) in *.
  destruct (shape (str "begin") z) as [r|] eqn:SB.
  - pose proof (squeezed_after _ _ _ Hz SB) as Hr.
    assert (TB : tighten (str "begin") z = str "begin" ++ LB :: r)
      by (unfold tighten; now rewrite SB).
    assert (E : tighten (str "end") (str "begin" ++ LB :: r) = str "begin" ++ LB :: r)
      by reflexivity.
    rewrite TB, E, (squeeze_done (str "begin") r eq_refl Hr), tighten_done. exact E.
  - rewrite (tighten_fixed _ _ SB).
    destruct (shape (str "end") z) as [r|] eqn:SE.
    + pose proof (squeezed_after _ _ _ Hz SE) as Hr.
      assert (TE : tighten (str "end") z = str "end" ++ LB :: r)
        by (unfold tighten; now rewrite SE).
      assert (E : tighten (str "begin") (str "end" ++ LB :: r) = str "end" ++ LB :: r)
        by reflexivity.
      rewrite TE, (squeeze_done (str "end") r eq_refl Hr), E. apply tighten_done.
    + rewrite (tighten_fixed _ _ SE), Hz, (tighten_fixed _ _ SB).
      now apply tighten_fixed.
Qed.

Lemma clean_segment_DIF y :
  startswith DIF (clean_segment y) = startswith DIF y.
Proof.
  unfold clean_segment. rewrite <- (startswith_squeeze DIF eq_refl y).
  set (z := squeeze false y).
  destruct (shape (str "begin") z) as [r|] eqn:SB.
  - assert (TB : tighten (str "begin") z = str "begin" ++ LB :: r)
      by (unfold tighten; now rewrite SB).
    rewrite TB. apply shape_sound in SB. destruct SB as (c & u & -> & _).
    reflexivity.
  - rewrite (tighten_fixed _ _ SB).
    destruct (shape (str "end") z) as [r|] eqn:SE;
      [|now rewrite (tighten_fixed _ _ SE)].
    assert (TE : tighten (str "end") z = str "end" ++ LB :: r)
      by (unfold tighten; now rewrite SE).
    rewrite TE. apply shape_sound in SE. destruct SE as (c & u & -> & _).
    reflexivity.
Qed.



End DiffFacts.
(** ** Facts about tex_concatenator.py *)

Module TexFacts.

Import Process GenerateBbl.

(** *** Texts *)

Lemma text_eqb_eq a b : text_eqb a b = true <-> a = b.
Proof.
  revert b. induction a as [|x a IH]; intros [|y b]; simpl; try easy.
  rewrite andb_true_iff, N.eqb_eq, IH. split; [intros [-> ->]; reflexivity|].
  intros E. injection E as -> ->. auto.
Qed.

Lemma text_eqb_refl a : text_eqb a a = true.
Proof. now apply text_eqb_eq. Qed.

Lemma str_inj a b : str a = str b -> a = b.
Proof.
  unfold str. intros H.
  rewrite <- (string_of_list_ascii_of_string a), <- (string_of_list_ascii_of_string b).
  f_equal. revert H. generalize (list_ascii_of_string a) (list_ascii_of_string b).
  induction l as [|x l IH]; intros [|y l']; simpl; try easy.
  intros H. injection H as Hxy Hl. f_equal; [|now apply IH].
  rewrite <- (ascii_N_embedding x), <- (ascii_N_embedding y). now rewrite Hxy.
Qed.

Lemma decimal_inj m n : decimal_text m = decimal_text n -> m = n.
Proof.
  unfold decimal_text. intros H. apply str_inj in H.
  apply (f_equal NilEmpty.uint_of_string) in H. rewrite !NilEmpty.usu in H.
  injection H as H. apply (f_equal Nat.of_uint) in H.
  now rewrite !DecimalNat.Unsigned.of_to in H.
Qed.

(** *** Paths *)

Lemma split_cons sep s : exists l ls, split sep s = l :: ls.
Proof.
  induction s as [|c s (l & ls & E)]; simpl; [eauto|].
  destruct (N.eqb c sep); [eauto|]. rewrite E. eauto.
Qed.

Lemma split_sep_app sep a x :
  split sep (a ++ sep :: x) = split sep a ++ split sep x.
Proof.
  induction a as [|c a IH]; cbn [app split].
  - now rewrite N.eqb_refl.
  - destruct (N.eqb c sep); [now rewrite IH|]. rewrite IH.
    destruct (split_cons sep a) as (l & ls & ->). reflexivity.
Qed.

Lemma split_plain sep x : ~ In sep x -> split sep x = [x].
Proof.
  induction x as [|c x IH]; intros H; [reflexivity|]. cbn [split].
  destruct (N.eqb c sep) eqn:E.
  - apply N.eqb_eq in E. subst c. exfalso. apply H. now left.
  - rewrite IH; [reflexivity|]. intros F. apply H. now right.
Qed.

Lemma split_no_sep sep s : forall l, In l (split sep s) -> ~ In sep l.
Proof.
  induction s as [|c s IH]; cbn [split]; intros l H.
  - destruct H as [<-|[]]. intros [].
  - destruct (N.eqb c sep) eqn:E.
    + destruct H as [<-|H]; [intros []|now apply IH].
    + destruct (split_cons sep s) as (l0 & ls & Es). rewrite Es in H, IH.
      destruct H as [<-|H].
      * intros [F|F]; [subst c; now rewrite N.eqb_refl in E|].
        apply (IH l0); [now left|exact F].
      * apply IH. now right.
Qed.

Lemma last_In {A} (l : list A) d : l <> [] -> In (last l d) l.
Proof.
  induction l as [|x l IH]; [congruence|]. intros _.
  destruct l as [|y l]; [now left|]. right. apply IH. discriminate.
Qed.

Lemma name_no_slash p : ~ In SLASH (name p).
Proof.
  unfold name. apply (split_no_sep SLASH p). apply last_In.
  destruct (split_cons SLASH p) as (l & ls & ->). discriminate.
Qed.

Lemma In_firstn_l {A} n (l : list A) x : In x (firstn n l) -> In x l.
Proof. intros H. rewrite <- (firstn_skipn n l). apply in_or_app. now left. Qed.

Lemma In_skipn_l {A} n (l : list A) x : In x (skipn n l) -> In x l.
Proof. intros H. rewrite <- (firstn_skipn n l). apply in_or_app. now right. Qed.

Lemma stem_no_slash p : ~ In SLASH (stem p).
Proof.
  unfold stem. destruct (rfind_dot (rev (name p)) 0) as [k|];
    [|apply name_no_slash].
  intros H. apply (name_no_slash p). eapply In_firstn_l, H.
Qed.

Lemma suffix_no_slash p : ~ In SLASH (suffix p).
Proof.
  unfold suffix. destruct (rfind_dot (rev (name p)) 0) as [k|]; [|intros []].
  intros H. apply (name_no_slash p). eapply In_skipn_l, H.
Qed.

Lemma decimal_no_slash n : ~ In SLASH (decimal_text n).
Proof.
  unfold decimal_text. generalize (Nat.to_uint n). intros u.
  induction u; cbn; intros H; try (destruct H as [H|H]; [discriminate H|auto]).
  exact H.
Qed.

Lemma root_cases p : root p = [] \/ root p = [SLASH] \/ root p = [SLASH; SLASH].
Proof.
  unfold root. destruct p as [|c1 [|c2 [|c3 p]]]; auto;
    repeat match goal with |- context [N.eqb ?a ?b] => destruct (N.eqb a b) end;
    auto.
Qed.

(** A text that is one component: not empty, without slash, and not [.]. *)
Definition one_component (x : text) : Prop :=
  x <> [] /\ ~ In SLASH x /\ x <> [DOT].

Lemma components_one x : one_component x -> components x = [x].
Proof.
  intros (Hne & Hs & Hd). unfold components. rewrite split_plain by exact Hs.
  cbn [filter]. destruct x as [|c [|c' x]]; [congruence| |reflexivity].
  cbn [is_component]. destruct (N.eqb c DOT) eqn:E; [|reflexivity].
  apply N.eqb_eq in E. now subst c.
Qed.

Lemma one_component_relative x : one_component x -> startswith [SLASH] x = false.
Proof.
  intros (Hne & Hs & _). destruct x as [|c x]; [congruence|].
  cbn [startswith]. rewrite andb_true_r. apply N.eqb_neq.
  intros <-. apply Hs. now left.
Qed.

Lemma join_snoc sep cs x :
  join sep (cs ++ [x]) =
  match cs with [] => x | _ :: _ => join sep cs ++ sep ++ x end.
Proof.
  induction cs as [|c cs IH]; [reflexivity|].
  destruct cs as [|c' cs]; [reflexivity|].
  change (join sep ((c :: c' :: cs) ++ [x]))
    with (c ++ sep ++ join sep ((c' :: cs) ++ [x])).
  rewrite IH. change (join sep (c :: c' :: cs)) with (c ++ sep ++ join sep (c' :: cs)).
  now rewrite <- !app_assoc.
Qed.

(** A path and one more component. *)
Lemma joinpath_one p x :
  one_component x -> joinpath p x = format_parts (root p) (components p ++ [x]).
Proof.
  intros H. unfold joinpath.
  now rewrite (one_component_relative x H), (components_one x H).
Qed.

Lemma format_parts_one r cs x :
  format_parts r (cs ++ [x]) = r ++ x \/
  exists pre, format_parts r (cs ++ [x]) = pre ++ SLASH :: x.
Proof.
  unfold format_parts. rewrite join_snoc. destruct cs as [|c cs]; [now left|].
  right. exists (r ++ join [SLASH] (c :: cs)). now rewrite <- app_assoc.
Qed.

Lemma joinpath_inj p a b :
  one_component a -> one_component b -> joinpath p a = joinpath p b -> a = b.
Proof.
  intros Ha Hb. rewrite !joinpath_one by assumption. unfold format_parts.
  rewrite !join_snoc. intros H. apply app_inv_head in H.
  destruct (components p); [exact H|]. now apply app_inv_head, app_inv_head in H.
Qed.

Lemma name_joinpath od x : one_component x -> name (joinpath od x) = x.
Proof.
  intros H. rewrite joinpath_one by exact H. destruct H as (Hne & Hs & _).
  unfold name. destruct (format_parts_one (root od) (components od) x) as [E|(pre & E)];
    rewrite E.
  - destruct (root_cases od) as [-> | [-> | ->]].
    + cbn [app]. now rewrite split_plain.
    + change ([SLASH] ++ x) with ([] ++ SLASH :: x).
      rewrite split_sep_app, (split_plain SLASH x) by exact Hs. reflexivity.
    + change ([SLASH; SLASH] ++ x) with ([SLASH] ++ SLASH :: x).
      rewrite split_sep_app, (split_plain SLASH x) by exact Hs. reflexivity.
  - rewrite split_sep_app, (split_plain SLASH x) by exact Hs. apply last_last.
Qed.

(** *** get_unique_filename *)

(** The name tried for the counter [k]. *)
Definition variant (target_path : text) (k : nat) : text :=
  with_stem target_path (stem target_path ++ str "_" ++ decimal_text k).

Lemma variant_name t k :
  one_component ((stem t ++ str "_" ++ decimal_text k) ++ suffix t).
Proof.
  assert (Hin : In 95%N ((stem t ++ str "_" ++ decimal_text k) ++ suffix t)).
  { apply in_or_app. left. apply in_or_app. right. now left. }
  repeat split.
  - intros E. now rewrite E in Hin.
  - intros H. apply in_app_or in H. destruct H as [H|H];
      [|now apply suffix_no_slash in H].
    apply in_app_or in H. destruct H as [H|H]; [now apply stem_no_slash in H|].
    apply in_app_or in H. destruct H as [H|H];
      [destruct H as [H|[]]; discriminate H|now apply decimal_no_slash in H].
  - intros E. rewrite E in Hin. destruct Hin as [Hin|[]]. discriminate Hin.
Qed.

Lemma variant_inj t j k : variant t j = variant t k -> j = k.
Proof.
  unfold variant, with_stem, with_name. intros H.
  apply joinpath_inj in H; [|apply variant_name|apply variant_name].
  apply app_inv_tail in H. apply app_inv_head in H. apply app_inv_head in H.
  now apply decimal_inj.
Qed.

Lemma path_exists_In fs p : path_exists fs p = true -> In p (map fst fs).
Proof.
  unfold path_exists. induction fs as [|[q n] fs IH]; simpl; [discriminate|].
  destruct (text_eqb q p) eqn:E; [apply text_eqb_eq in E; auto|auto].
Qed.

Lemma NoDup_map_inj {A B} (f : A -> B) l :
  (forall x y, f x = f y -> x = y) -> NoDup l -> NoDup (map f l).
Proof.
  intros Hf. induction 1 as [|x l Hx Hl IH]; simpl; constructor; [|exact IH].
  intros Hin. apply in_map_iff in Hin. destruct Hin as (y & E & Hy).
  apply Hf in E. now subst.
Qed.

(** Among [length fs + 1] successive counters one names no file. *)
Lemma some_variant_free fs t c :
  exists j, c <= j < c + S (length fs) /\ path_exists fs (variant t j) = false.
Proof.
  destruct (forallb (fun j => path_exists fs (variant t j)) (seq c (S (length fs))))
    eqn:E.
  - exfalso. rewrite forallb_forall in E.
    assert (L : length (map (variant t) (seq c (S (length fs)))) <= length (map fst fs)).
    { apply NoDup_incl_length.
      - apply NoDup_map_inj; [|apply seq_NoDup].
        intros j k. apply variant_inj.
      - intros p Hp. apply in_map_iff in Hp. destruct Hp as (j & <- & Hj).
        apply path_exists_In. now apply E. }
    rewrite !length_map, length_seq in L. lia.
  - apply not_true_iff_false in E. rewrite forallb_forall in E.
    destruct (existsb (fun j => negb (path_exists fs (variant t j)))
                (seq c (S (length fs)))) eqn:X.
    + apply existsb_exists in X. destruct X as (j & Hj & Hf).
      apply in_seq in Hj. apply negb_true_iff in Hf. eauto.
    + exfalso. apply E. intros j Hj.
      destruct (path_exists fs (variant t j)) eqn:F; [reflexivity|].
      assert (existsb (fun j => negb (path_exists fs (variant t j)))
                (seq c (S (length fs))) = true); [|congruence].
      apply existsb_exists. exists j. now rewrite F.
Qed.

Lemma first_free_least fs t : forall tries c,
  (exists j, c <= j < c + tries /\ path_exists fs (variant t j) = false) ->
  exists k, first_free fs t tries c = Some (variant t k) /\ c <= k /\
            path_exists fs (variant t k) = false /\
            forall j, c <= j < k -> path_exists fs (variant t j) = true.
Proof.
  induction tries as [|tries IH]; intros c (j & Hj & Hf); [lia|].
  cbn [first_free]. fold (variant t c).
  destruct (path_exists fs (variant t c)) eqn:E; cbn [negb].
  - destruct (IH (S c)) as (k & Hk & Hc & Hfree & Hbelow).
    { exists j. split; [|exact Hf]. destruct (Nat.eq_dec j c); [congruence|lia]. }
    exists k. split; [exact Hk|]. split; [lia|]. split; [exact Hfree|].
    intros i Hi. destruct (Nat.eq_dec i c); [congruence|]. apply Hbelow. lia.
  - exists c. split; [reflexivity|]. split; [lia|]. split; [exact E|].
    intros i Hi. lia.
Qed.

Lemma get_unique_filename_spec fs t :
  exists p, get_unique_filename fs t = Some p /\ path_exists fs p = false /\
    (path_exists fs t = false -> p = t) /\
    (path_exists fs t = true ->
     exists k, 1 <= k /\ p = variant t k /\
               forall j, 1 <= j < k -> path_exists fs (variant t j) = true).
Proof.
  unfold get_unique_filename, get_unique_filename_within.
  destruct (path_exists fs t) eqn:E; simpl.
  - destruct (first_free_least fs t (S (length fs)) 1 (some_variant_free fs t 1))
      as (k & Hk & Hc & Hfree & Hbelow).
    exists (variant t k). split; [exact Hk|]. split; [exact Hfree|].
    split; [discriminate|]. intros _. exists k. auto.
  - exists t. split; [reflexivity|]. split; [exact E|]. split; [reflexivity|].
    discriminate.
Qed.

(** *** copy_bibliography writes only new files *)

Definition extends (fs fs' : fsys) : Prop :=
  forall p n, lookup p fs = Some n -> lookup p fs' = Some n.

Lemma extends_refl fs : extends fs fs.
Proof. intros p n H. exact H. Qed.

Lemma extends_trans a b c : extends a b -> extends b c -> extends a c.
Proof. intros H1 H2 p n H. auto. Qed.

Lemma copy_bib_file_extends pd od st f st' :
  copy_bib_file pd od st f = Some st' -> extends (files st) (files st').
Proof.
  unfold copy_bib_file.
  destruct (find _ _) as [bib_path|]; [|intros H; injection H as <-; apply extends_refl].
  match goal with |- context [get_unique_filename ?a ?b] =>
    destruct (get_unique_filename_spec a b) as (p & -> & Hfree & _) end.
  unfold shutil_copy. destruct (lookup bib_path (files st)) as [[c|]|]; try discriminate.
  intros H. injection H as <-. simpl. intros q n Hq. simpl.
  destruct (text_eqb p q) eqn:E; [|exact Hq].
  apply text_eqb_eq in E. subst q. unfold path_exists in Hfree.
  now rewrite Hq in Hfree.
Qed.

Lemma copy_bib_files_extends pd od : forall l st st',
  copy_bib_files pd od st l = Some st' -> extends (files st) (files st').
Proof.
  induction l as [|f l IH]; simpl; intros st st' H.
  - injection H as <-. apply extends_refl.
  - destruct (copy_bib_file pd od st f) as [st1|] eqn:E; [|discriminate].
    eapply extends_trans; [eapply copy_bib_file_extends; eauto|eauto].
Qed.

Lemma copy_bib_match_extends pd od c fs out m c' fs' out' :
  copy_bib_match pd od (c, fs, out) m = Some (c', fs', out') -> extends fs fs'.
Proof.
  unfold copy_bib_match.
  destruct (copy_bib_files pd od _ _) as [st|] eqn:E; [|discriminate].
  apply copy_bib_files_extends in E. cbn [files] in E.
  destruct (renamed_files st); intros H; injection H as <- <- <-; exact E.
Qed.

Lemma copy_bib_matches_extends pd od : forall ms c fs out c' fs' out',
  copy_bib_matches pd od (c, fs, out) ms = Some (c', fs', out') -> extends fs fs'.
Proof.
  induction ms as [|m ms IH]; cbn [copy_bib_matches]; intros c fs out c' fs' out' H.
  - injection H as <- <- <-. apply extends_refl.
  - destruct (copy_bib_match pd od (c, fs, out) m) as [[[c1 fs1] out1]|] eqn:E;
      [|discriminate].
    eapply extends_trans; [eapply copy_bib_match_extends, E|eapply IH, H].
Qed.

(** C10: [get_unique_filename] returns a path that names no file: the
    target itself when it is free, else the first free [stem_k] for
    k = 1, 2, ...; and [copy_bibliography] leaves every file that was there
    as it was. *)
Theorem get_unique_filename_never_overwrites fs target_path :
  (exists p, get_unique_filename fs target_path = Some p /\
     path_exists fs p = false /\
     (path_exists fs target_path = false -> p = target_path) /\
     (path_exists fs target_path = true ->
      exists k, 1 <= k /\
        p = with_stem target_path (stem target_path ++ str "_" ++ decimal_text k) /\
        forall j, 1 <= j < k ->
          path_exists fs
            (with_stem target_path (stem target_path ++ str "_" ++ decimal_text j))
          = true)) /\
  (forall project_dir output_dir content content' fs' out,
     copy_bibliography project_dir output_dir fs content = Some (content', fs', out) ->
     forall p n, lookup p fs = Some n -> lookup p fs' = Some n).
Proof.
  split; [apply get_unique_filename_spec|].
  intros pd od c c' fs' out H. eapply copy_bib_matches_extends, H.
Qed.

Lemma get_unique_filename_never_overwrites_witness :
  get_unique_filename
    [(str "out/refs.bib", File []); (str "out/refs_1.bib", File [])]
    (str "out/refs.bib")
  = Some (str "out/refs_2.bib").
Proof.
  destruct (get_unique_filename_never_overwrites
              [(str "out/refs.bib", File []); (str "out/refs_1.bib", File [])]
              (str "out/refs.bib")) as [(p & -> & Hfree & _ & Hk) _].
  destruct (Hk eq_refl) as (k & Hk1 & -> & Hbelow).
  destruct k as [|[|[|k]]].
  - lia.
  - discriminate Hfree.
  - reflexivity.
  - specialize (Hbelow 2). discriminate Hbelow. lia.
Defined.

(** *** Lines *)

Lemma join_cons sep l l' ls : join sep (l :: l' :: ls) = l ++ sep ++ join sep (l' :: ls).
Proof. reflexivity. Qed.

Lemma join_split sep s : join [sep] (split sep s) = s.
Proof.
  induction s as [|c s IH]; [reflexivity|]. cbn [split].
  destruct (split_cons sep s) as (l & ls & E). rewrite E in *.
  destruct (N.eqb_spec c sep) as [->|Hc].
  - rewrite join_cons, IH. reflexivity.
  - destruct ls as [|l' ls].
    + cbn [join] in *. now rewrite IH.
    + rewrite join_cons in *. rewrite <- IH. reflexivity.
Qed.

Lemma split_app_plain sep u s :
  ~ In sep u ->
  split sep (u ++ s) =
  match split sep s with l :: ls => (u ++ l) :: ls | [] => [u] end.
Proof.
  induction u as [|c u IH]; simpl; intros H.
  - destruct (split_cons sep s) as (l & ls & E). now rewrite E.
  - destruct (N.eqb_spec c sep) as [->|Hc]; [tauto|].
    rewrite IH by tauto. now destruct (split sep s).
Qed.

(** A map on characters that keeps the separator apart commutes with
    [split]. *)
Lemma split_flat_map sep (f : char -> text) s :
  f sep = [sep] -> (forall c, c <> sep -> ~ In sep (f c)) ->
  split sep (flat_map f s) = map (flat_map f) (split sep s).
Proof.
  intros Hsep Hf. induction s as [|c s IH]; simpl; [reflexivity|].
  destruct (N.eqb_spec c sep) as [->|Hc].
  - rewrite Hsep. simpl. rewrite N.eqb_refl. now rewrite IH.
  - rewrite split_app_plain by now apply Hf.
    rewrite IH. destruct (split sep s) as [|l ls]; simpl; [|reflexivity].
    now rewrite app_nil_r.
Qed.

(** *** transform_accents, character by character *)

Lemma replace_char c r s :
  replace [c] r s = flat_map (fun x => if N.eqb c x then r else [x]) s.
Proof.
  unfold replace. induction s as [|x s IH]; simpl; [reflexivity|].
  rewrite andb_true_r. destruct (N.eqb c x); now rewrite IH.
Qed.

Lemma flat_map_fuse {A B C} (f : A -> list B) (g : B -> list C) l :
  flat_map g (flat_map f l) = flat_map (fun x => flat_map g (f x)) l.
Proof.
  induction l as [|x l IH]; simpl; [reflexivity|].
  now rewrite flat_map_app, IH.
Qed.

Definition accent_step (acc : text) (kv : char * text) : text :=
  flat_map (fun x => if N.eqb (fst kv) x then snd kv else [x]) acc.

(** What [transform_accents] makes of one character. *)
Definition accent_char (c : char) : text := fold_left accent_step accent_map [c].
Arguments accent_char : simpl never.

Lemma fold_accent_step m : forall t,
  fold_left accent_step m t = flat_map (fun c => fold_left accent_step m [c]) t.
Proof.
  induction m as [|kv m IH]; intros t; cbn [fold_left].
  - induction t as [|c t IHt]; simpl; congruence.
  - rewrite (IH (accent_step t kv)).
    replace (accent_step t kv)
      with (flat_map (fun x => accent_step [x] kv) t).
    + rewrite flat_map_fuse. apply flat_map_ext. intros c. now rewrite <- IH.
    + unfold accent_step. apply flat_map_ext. intros c. simpl. apply app_nil_r.
Qed.

Lemma transform_accents_chars t : transform_accents t = flat_map accent_char t.
Proof.
  unfold transform_accents, accent_char. rewrite <- fold_accent_step.
  generalize accent_map. intros m. revert t.
  induction m as [|kv m IH]; intros t; cbn [fold_left]; [reflexivity|].
  rewrite replace_char. apply IH.
Qed.

Definition accented (c : char) : bool :=
  existsb (fun kv => N.eqb (fst kv) c) accent_map.

Lemma accent_char_plain c : accented c = false -> accent_char c = [c].
Proof.
  unfold accented, accent_char. generalize accent_map. intros m.
  induction m as [|[k r] m IH]; cbn [fold_left existsb fst]; [reflexivity|].
  intros H. apply orb_false_iff in H. destruct H as [Hk Hm].
  replace (accent_step [c] (k, r)) with [c]; [now apply IH|].
  unfold accent_step. simpl. now rewrite Hk.
Qed.

Lemma accent_char_table c :
  accented c = true -> In (c, accent_char c) accent_map.
Proof.
  unfold accented. intros H. apply existsb_exists in H.
  destruct H as ([k r] & Hin & Hk). apply N.eqb_eq in Hk. simpl in Hk. subst k.
  unfold accent_map in Hin. simpl in Hin.
  repeat (destruct Hin as [Hin|Hin];
          [injection Hin as <- <-; vm_compute; tauto|]).
  contradiction.
Qed.

Lemma accent_char_newline c : c <> NL -> ~ In NL (accent_char c).
Proof.
  intros Hc. destruct (accented c) eqn:E.
  - apply accent_char_table in E. unfold accent_map in E. simpl in E.
    repeat (destruct E as [E|E];
            [injection E as <- <-; vm_compute; intuition discriminate|]).
    contradiction.
  - rewrite accent_char_plain by exact E. simpl. intuition congruence.
Qed.

Lemma transform_accents_lines content :
  split NL (transform_accents content) = map transform_accents (split NL content).
Proof.
  rewrite transform_accents_chars, split_flat_map.
  - apply map_ext. intros l. now rewrite transform_accents_chars.
  - reflexivity.
  - apply accent_char_newline.
Qed.

Lemma accented_not_space c : isspace c = true -> accented c = false.
Proof.
  intros H. destruct (accented c) eqn:E; [|reflexivity].
  unfold accented in E. apply existsb_exists in E.
  destruct E as ([k r] & Hin & Hk). apply N.eqb_eq in Hk. simpl in Hk. subst k.
  unfold accent_map in Hin. simpl in Hin.
  repeat (destruct Hin as [Hin|Hin]; [injection Hin as <- <-; discriminate|]).
  contradiction.
Qed.

Lemma startswith_one c s : startswith [c] s = true -> exists s', s = c :: s'.
Proof.
  destruct s as [|x s]; [discriminate|]. cbn [startswith].
  rewrite andb_true_r. intros H. apply N.eqb_eq in H. subst. eauto.
Qed.

(** A comment line is still one after the transliteration. *)
Lemma is_commented_transform line :
  is_commented line = true -> is_commented (transform_accents line) = true.
Proof.
  rewrite transform_accents_chars. unfold is_commented.
  induction line as [|c line IH]; [discriminate|].
  cbn [flat_map lstrip]. destruct (isspace c) eqn:Hc.
  - rewrite accent_char_plain by now apply accented_not_space.
    cbn [app lstrip]. rewrite Hc. exact IH.
  - intros H. apply startswith_one in H. destruct H as (s' & E).
    injection E as -> _. reflexivity.
Qed.

Lemma transform_accents_plain line :
  forallb (fun c => negb (accented c)) line = true -> transform_accents line = line.
Proof.
  rewrite transform_accents_chars.
  induction line as [|c line IH]; cbn [flat_map forallb]; [reflexivity|].
  intros H. apply andb_true_iff in H. destruct H as [Hc Hl].
  apply negb_true_iff in Hc. rewrite accent_char_plain by exact Hc.
  cbn [app]. now rewrite IH.
Qed.

(** *** The loop of process_file *)

Lemma process_lines_app fs recur path a b :
  process_lines fs recur path (a ++ b) =
  match process_lines fs recur path a, process_lines fs recur path b with
  | Some (o1, w1), Some (o2, w2) => Some (o1 ++ o2, w1 ++ w2)
  | _, _ => None
  end.
Proof.
  induction a as [|l a IH]; simpl.
  - destruct (process_lines fs recur path b) as [[o w]|]; reflexivity.
  - destruct (process_line fs recur path l) as [[o w]|]; [|reflexivity].
    rewrite IH. destruct (process_lines fs recur path a) as [[o1 w1]|]; [|reflexivity].
    destruct (process_lines fs recur path b) as [[o2 w2]|]; [|reflexivity].
    now rewrite !app_assoc.
Qed.

Lemma process_line_commented fs recur path line :
  is_commented line = true -> process_line fs recur path line = Some ([line], []).
Proof.
  intros H. unfold process_line. rewrite H. now destruct (is_blank line).
Qed.

Lemma process_line_plain fs recur path line :
  search include_re line = None -> process_line fs recur path line = Some ([line], []).
Proof.
  intros H. unfold process_line. rewrite H.
  now destruct (is_blank line), (is_commented line).
Qed.

Lemma process_lines_kept fs recur path lines :
  (forall l, In l lines -> process_line fs recur path l = Some ([l], [])) ->
  process_lines fs recur path lines = Some (lines, []).
Proof.
  induction lines as [|l lines IH]; simpl; intros H; [reflexivity|].
  rewrite (H l) by auto. rewrite IH by auto. reflexivity.
Qed.

(** C8, as the code has it: a line whose first character after the
    indentation is [%] is put out at its place, transliterated and otherwise
    as it is, with no include expanded and no warning for it; it is
    unchanged when it holds none of the accented letters. *)
Theorem comment_line_kept_transliterated
    fs depth file_path content before line after :
  read_text fs file_path = Some content ->
  split NL content = before ++ line :: after ->
  is_commented line = true ->
  process_file fs (S depth) file_path =
    match process_lines fs (process_file fs depth) file_path
            (map transform_accents before),
          process_lines fs (process_file fs depth) file_path
            (map transform_accents after) with
    | Some (o1, w1), Some (o2, w2) =>
        Some (join [NL] (o1 ++ transform_accents line :: o2), w1 ++ w2)
    | _, _ => None
    end
  /\ (forallb (fun c => negb (accented c)) line = true ->
      transform_accents line = line).
Proof.
  intros Hread Hsplit Hc. split; [|apply transform_accents_plain].
  cbn [process_file]. rewrite Hread, transform_accents_lines, Hsplit.
  rewrite map_app. cbn [map]. rewrite process_lines_app.
  destruct (process_lines _ _ _ (map transform_accents before)) as [[o1 w1]|];
    [|reflexivity].
  cbn [process_lines].
  rewrite process_line_commented by now apply is_commented_transform.
  destruct (process_lines _ _ _ (map transform_accents after)) as [[o2 w2]|];
    reflexivity.
Qed.

Lemma comment_line_kept_transliterated_witness :
  process_file [(str "main.tex", File (str "a" ++ [NL] ++ str "  % \input{foo}"))]
    1 (str "main.tex")
  = Some (str "a" ++ [NL] ++ str "  % \input{foo}", []).
Proof.
  refine (eq_trans
            (proj1 (comment_line_kept_transliterated
                      [(str "main.tex", File (str "a" ++ [NL] ++ str "  % \input{foo}"))]
                      0 (str "main.tex") _ [str "a"] (str "  % \input{foo}") []
                      eq_refl eq_refl eq_refl))
            _).
  reflexivity.
Defined.

(** C8 as stated fails on a comment that holds an accented letter: the line
    [% é] comes out as [% {\'e}]. *)
Lemma comment_line_is_transliterated :
  let line := str "% " ++ [233%N] in
  is_commented line = true /\
  process_file [(str "main.tex", File line)] 1 (str "main.tex")
  = Some (str "% {\'e}", []) /\
  str "% {\'e}" <> line.
Proof. vm_compute. repeat split. discriminate. Qed.

(** C4: when no uncommented line of a file holds an include command, the
    text returned is the transliteration of the content, and nothing is
    printed. *)
Theorem no_include_is_transliteration fs depth file_path content :
  read_text fs file_path = Some content ->
  (forall line, In line (split NL content) -> is_commented line = false ->
     search include_re (transform_accents line) = None) ->
  process_file fs (S depth) file_path = Some (transform_accents content, []).
Proof.
  intros Hread Hlines. cbn [process_file]. rewrite Hread, transform_accents_lines.
  rewrite process_lines_kept.
  - now rewrite <- transform_accents_lines, join_split.
  - intros l Hl. apply in_map_iff in Hl. destruct Hl as (line & <- & Hin).
    destruct (is_commented line) eqn:Hc.
    + apply process_line_commented. now apply is_commented_transform.
    + apply process_line_plain. now apply Hlines.
Qed.

Lemma no_include_is_transliteration_witness :
  let content := str "caf" ++ [233%N; NL] ++ str "% \input{x}" in
  process_file [(str "main.tex", File content)] 1 (str "main.tex")
  = Some (transform_accents content, []).
Proof.
  intros content.
  apply (no_include_is_transliteration
           [(str "main.tex", File content)] 0 (str "main.tex") content).
  - reflexivity.
  - intros line [<-|[<-|[]]].
    + reflexivity.
    + discriminate.
Defined.

(** *** Citation keys *)

Lemma mem_In x seen : mem x seen = true <-> In x seen.
Proof.
  unfold mem. rewrite existsb_exists. split.
  - intros (y & Hy & E). apply text_eqb_eq in E. now subst.
  - intros H. exists x. split; [exact H|]. now apply text_eqb_eq.
Qed.

Lemma dedup_from_In l : forall seen x,
  In x (dedup_from seen l) <-> In x l /\ ~ In x seen.
Proof.
  induction l as [|y l IH]; intros seen x; simpl; [tauto|].
  destruct (mem y seen) eqn:E.
  - apply mem_In in E. rewrite IH. split; [tauto|].
    intros [[->|H] Hs]; tauto.
  - assert (~ In y seen) by (rewrite <- mem_In; congruence).
    simpl. rewrite IH. simpl. split.
    + intros [->|[H1 H2]]; tauto.
    + intros [[->|H1] H2]; [tauto|].
      destruct (list_eq_dec N.eq_dec y x); [tauto|]. right. tauto.
Qed.

Lemma dedup_from_NoDup l : forall seen, NoDup (dedup_from seen l).
Proof.
  induction l as [|y l IH]; intros seen; simpl; [constructor|].
  destruct (mem y seen); [apply IH|]. constructor; [|apply IH].
  rewrite dedup_from_In. simpl. tauto.
Qed.

(** *** The numbered entries *)

Definition item_number (item : option nat * text * text) : option nat := fst (fst item).
Definition item_key (item : option nat * text * text) : text := snd (fst item).

Definition has_entry (d : dict) (k : text) : bool :=
  match dict_get k d with Some _ => true | None => false end.

(** The loop over [enumerate(citations, start)]. *)
Definition numbered_from (start : nat) (d : dict) (citations : list text) :=
  flat_map (fun ik : nat * text =>
              match dict_get (snd ik) d with
              | Some body => [(Some (fst ik), snd ik, body)]
              | None => []
              end)
           (combine (seq start (length citations)) citations).

Lemma ordered_items_numbered d c cs :
  ordered_items true d (c :: cs) = numbered_from 1 d (c :: cs).
Proof. reflexivity. Qed.

Lemma numbered_from_cons start d c cs :
  numbered_from start d (c :: cs) =
  match dict_get c d with
  | Some body => [(Some start, c, body)]
  | None => []
  end ++ numbered_from (S start) d cs.
Proof. reflexivity. Qed.

Lemma numbered_keys d cs : forall start,
  map item_key (numbered_from start d cs) = filter (has_entry d) cs.
Proof.
  induction cs as [|c cs IH]; intros start; [reflexivity|].
  rewrite numbered_from_cons, map_app, IH. cbn [filter]. unfold has_entry at 2.
  now destruct (dict_get c d).
Qed.

Lemma numbered_length d cs : forall start,
  length (numbered_from start d cs) <= length cs.
Proof.
  induction cs as [|c cs IH]; intros start; [reflexivity|].
  rewrite numbered_from_cons, length_app. specialize (IH (S start)).
  destruct (dict_get c d); simpl; lia.
Qed.

(** The number of an entry is the rank of its key among the citations. *)
Lemma numbered_rank d cs : forall start n k body,
  In (n, k, body) (numbered_from start d cs) ->
  exists i, n = Some (start + i) /\ nth_error cs i = Some k /\
            dict_get k d = Some body.
Proof.
  induction cs as [|c cs IH]; intros start n k body H; [contradiction|].
  rewrite numbered_from_cons in H. apply in_app_or in H. destruct H as [H|H].
  - destruct (dict_get c d) eqn:E; [|contradiction].
    destruct H as [H|[]]. injection H as <- <- <-.
    exists 0. rewrite Nat.add_0_r. auto.
  - destruct (IH _ _ _ _ H) as (i & -> & Hn & Hd).
    exists (S i). rewrite Nat.add_succ_r. auto.
Qed.

(** With an entry for every cited key the numbers are [start], [start+1], ... *)
Lemma numbered_contiguous d cs : forall start,
  forallb (has_entry d) cs = true ->
  map item_number (numbered_from start d cs) = map Some (seq start (length cs)).
Proof.
  induction cs as [|c cs IH]; intros start H; [reflexivity|].
  cbn [forallb] in H. apply andb_true_iff in H. destruct H as [Hc Hcs].
  rewrite numbered_from_cons, map_app, IH by exact Hcs.
  unfold has_entry in Hc. destruct (dict_get c d); [reflexivity|discriminate].
Qed.

(** What the renumbering writes when at least one key is cited: the entries
    of the cited keys that have an entry, in the order of first citation,
    no more than there are cited keys; the number of an entry is the place
    of its key in the list of all cited keys, those without an entry
    counted, so that the numbers are 1, 2, ... only when every cited key has
    an entry. *)
Theorem renumbered_entries_follow_citations content bbl_content before begin_match after :
  cited_keys content <> [] ->
  search begin_re bbl_content = Some (before, begin_match, after) ->
  let citations := cited_keys content in
  let d := bibitem_dict bbl_content in
  let items := ordered_items true d citations in
  reorder_bibliography true bbl_content citations =
    join [NL] ([bib_definitions; mgroup 0 begin_match]
               ++ map bibitem_text items ++ [str "\end{thebibliography}"])
  /\ NoDup citations
  /\ length items <= length citations
  /\ map item_key items = filter (has_entry d) citations
  /\ (forall n k body, In (n, k, body) items ->
        exists i, n = Some (S i) /\ nth_error citations i = Some k)
  /\ (forallb (has_entry d) citations = true ->
        map item_number items = map Some (seq 1 (length items))).
Proof.
  intros Hne Hbegin citations d items.
  split; [unfold reorder_bibliography; now rewrite Hbegin|].
  split; [apply dedup_from_NoDup|].
  subst items. destruct citations as [|c cs] eqn:E; [contradiction|].
  rewrite ordered_items_numbered.
  split; [apply numbered_length|]. split; [apply numbered_keys|]. split.
  - intros n k body H. apply numbered_rank in H.
    destruct H as (i & -> & Hn & _). eauto.
  - intros H. rewrite numbered_contiguous by exact H.
    rewrite <- (length_map item_number), numbered_contiguous by exact H.
    now rewrite length_map, length_seq.
Qed.

Lemma renumbered_entries_follow_citations_witness :
  let content := str "See \cite{b, a} and \cite{a,c}." in
  let bbl := str "\begin{thebibliography}{3}\bibitem{a}A\bibitem{b}B\bibitem{c}C\end{thebibliography}" in
  cited_keys content = [str "b"; str "a"; str "c"] /\
  ordered_items true (bibitem_dict bbl) (cited_keys content) =
    [(Some 1, str "b", str "B"); (Some 2, str "a", str "A"); (Some 3, str "c", str "C")] /\
  map item_number (ordered_items true (bibitem_dict bbl) (cited_keys content))
  = map Some (seq 1 3).
Proof.
  intros content bbl.
  pose proof (renumbered_entries_follow_citations content bbl
                [] (MObj (str "\begin{thebibliography}{3}") [])
                (str "\bibitem{a}A\bibitem{b}B\bibitem{c}C\end{thebibliography}")) as T.
  destruct T as (_ & _ & _ & _ & _ & T); [vm_compute; discriminate|reflexivity|].
  split; [reflexivity|]. split; [reflexivity|]. apply T. reflexivity.
Defined.

(** C1 at the failing input: the document cites [a], [x] and [c], and the
    compiled bibliography has entries for [a], [b] and [c] only.  The rebuilt
    bibliography holds the entries of [a] and [c] in that order, but they
    are numbered 1 and 3: the numbers are counted over all cited keys,
    before the keys without an entry are skipped. *)
Example renumbering_skips_numbers :
  let generated :=
    str "\begin{thebibliography}{3}\bibitem{a}A\bibitem{b}B\bibitem{c}C\end{thebibliography}" in
  let content := str "\cite{a,x,c}" ++ [NL] ++ str "\bibliography{refs}" in
  cited_keys content = [str "a"; str "x"; str "c"] /\
  process_bibliography true generated content =
    (str "\cite{a,x,c}" ++ [NL] ++
     join [NL] [bib_definitions; str "\begin{thebibliography}{3}";
                str "\bibitem [{1}] {a}A"; str "\bibitem [{3}] {c}C";
                str "\end{thebibliography}"],
     []) /\
  map item_number
    (ordered_items true (bibitem_dict generated) (cited_keys content))
  = [Some 1; Some 3].
Proof. vm_compute. repeat split. Qed.

(** C5 at the failing input: of the two names of a [\bibliography] command
    the one that is not found is dropped from the rewritten command, with a
    warning; the command is left as it was only when no name is found. *)
Example missing_bibliography_name_is_dropped :
  copy_bibliography (str "proj") (str "out")
    [(str "proj/refs.bib", File (str "@book{k}"))]
    (str "\bibliography{refs,missing}")
  = Some (str "\bibliography{refs}",
          [(str "out/refs.bib", File (str "@book{k}"));
           (str "proj/refs.bib", File (str "@book{k}"))],
          [str "Copied bibliography file to: out/refs.bib";
           str "Warning: Could not find bibliography file: missing"])
  /\
  copy_bibliography (str "proj") (str "out") []
    (str "\bibliography{refs,missing}")
  = Some (str "\bibliography{refs,missing}", [],
          [str "Warning: Could not find bibliography file: refs";
           str "Warning: Could not find bibliography file: missing"]).
Proof. vm_compute. split; reflexivity. Qed.

Section Frame.
Context {R : Type}.

(** An action that leaves the working directory where it was. *)
Definition keeps_cwd {A} (m : action R A) : Prop :=
  forall w, cwd (snd (m w)) = cwd w.

(** An action that ends in the directory [d], however it ends. *)
Definition ends_in {A} (d : text) (m : action R A) : Prop :=
  forall w, cwd (snd (m w)) = d.

Lemma keeps_ret {A} (a : A) : keeps_cwd (ret (R := R) a).
Proof. intros w. reflexivity. Qed.

Lemma keeps_outside {A} (f : text -> R -> res A * R) : keeps_cwd (outside f).
Proof. intros w. unfold outside. destruct (f (cwd w) (rest w)). reflexivity. Qed.

Lemma keeps_print line : keeps_cwd (print (R := R) line).
Proof. intros w. reflexivity. Qed.

Lemma keeps_getcwd : keeps_cwd (getcwd (R := R)).
Proof. intros w. reflexivity. Qed.

Lemma keeps_bind {A B} (m : action R A) (f : A -> action R B) :
  keeps_cwd m -> (forall a, keeps_cwd (f a)) -> keeps_cwd (bind m f).
Proof.
  intros Hm Hf w. unfold bind. specialize (Hm w).
  destruct (m w) as [[a|e] w']; simpl in *; [|exact Hm].
  now rewrite Hf.
Qed.

Lemma keeps_try_finally {A} (body : action R A) final :
  keeps_cwd body -> keeps_cwd final -> keeps_cwd (try_finally body final).
Proof.
  intros Hb Hf w. unfold try_finally. specialize (Hb w).
  destruct (body w) as [r w1]. specialize (Hf w1).
  destruct (final w1) as [[u|e] w2]; simpl in *; congruence.
Qed.

Lemma keeps_try_except {A} (body : action R A) exc handler :
  keeps_cwd body -> keeps_cwd handler -> keeps_cwd (try_except body exc handler).
Proof.
  intros Hb Hh w. unfold try_except. specialize (Hb w).
  destruct (body w) as [[a|e] w1]; simpl in *; [exact Hb|].
  destruct (text_eqb e exc); [|exact Hb]. now rewrite Hh.
Qed.

(** [finally: os.chdir(d)] ends in [d] whatever the body did. *)
Lemma try_finally_chdir {A} (body : action R A) d :
  ends_in d (try_finally body (chdir d)).
Proof.
  intros w. unfold try_finally. destruct (body w) as [r w1]. reflexivity.
Qed.

End Frame.

Section GenerateFacts.
Variable R : Type.
Variable temporary_directory : text -> R -> res text * R.
Variable cleanup : text -> text -> R -> res unit * R.
Variable copytree : text -> text -> text -> R -> res unit * R.
Variable setenv : text -> text -> text -> R -> res unit * R.
Variable system : text -> text -> R -> res nat * R.
Variable exists_file : text -> text -> R -> res bool * R.
Variable read_file : text -> text -> R -> res text * R.
Variables project_dir tex_name tex_stem : text.

(** C6: [generate_bbl_content] leaves the working directory where it was,
    whether it returns or raises, whatever the temporary directory, the
    copy, the compilation steps and the reading of the [.bbl] file do (each
    of them may raise). *)
Theorem generate_bbl_content_restores_cwd (w : world R) :
  cwd (snd (generate_bbl_content R temporary_directory cleanup copytree setenv
              system exists_file read_file project_dir tex_name tex_stem w))
  = cwd w.
Proof.
  unfold generate_bbl_content, with_temporary_directory.
  revert w. apply keeps_bind; [apply keeps_outside|]. intros temp_dir.
  apply keeps_try_finally; [|apply keeps_outside].
  apply keeps_bind; [apply keeps_outside|]. intros _.
  intros w. unfold bind at 1. simpl getcwd.
  unfold bind at 1. simpl chdir. apply try_finally_chdir.
Qed.

End GenerateFacts.

Import DiffFacts.

(** *** More on transform_accents *)

Lemma accent_char_clean c :
  forallb (fun x => negb (accented x)) (accent_char c) = true.
Proof.
  destruct (accented c) eqn:E.
  - apply accent_char_table in E. unfold accent_map in E. simpl in E.
    repeat (destruct E as [E|E];
            [injection E as <- <-; vm_compute; reflexivity|]).
    contradiction.
  - rewrite accent_char_plain by exact E. cbn [forallb]. now rewrite E.
Qed.

(** The eighteen replacements act as one pass over the characters: the
    transliteration of a text is that of its parts, it holds none of the
    eighteen letters, and a second pass changes nothing. *)
Theorem transform_accents_one_pass a b :
  transform_accents (a ++ b) = transform_accents a ++ transform_accents b /\
  forallb (fun c => negb (accented c)) (transform_accents a) = true /\
  transform_accents (transform_accents a) = transform_accents a.
Proof.
  assert (Clean : forall t,
            forallb (fun c => negb (accented c)) (transform_accents t) = true).
  { intros t. rewrite transform_accents_chars.
    induction t as [|c t IH]; [reflexivity|]. cbn [flat_map].
    rewrite forallb_app, IH, accent_char_clean. reflexivity. }
  split; [|split].
  - rewrite !transform_accents_chars. apply flat_map_app.
  - apply Clean.
  - apply transform_accents_plain, Clean.
Qed.

(** *** More on process_file *)

Lemma process_lines_raises fs recur path a line b :
  process_line fs recur path line = None ->
  process_lines fs recur path (a ++ line :: b) = None.
Proof.
  intros H. rewrite process_lines_app. cbn [process_lines]. rewrite H.
  now destruct (process_lines fs recur path a) as [[o w]|].
Qed.

Lemma read_text_exists fs p c : read_text fs p = Some c -> path_exists fs p = true.
Proof.
  unfold read_text, path_exists. now destruct (lookup p fs) as [[|]|].
Qed.

(** A file with a line, neither blank nor commented, whose include command
    names the file itself is never processed to the end: the calls nest
    beyond every depth. *)
Theorem self_include_never_returns
    fs file_path content before line after pre m rest :
  read_text fs file_path = Some content ->
  split NL (transform_accents content) = before ++ line :: after ->
  is_blank line = false -> is_commented line = false ->
  search include_re line = Some (pre, m, rest) ->
  include_path file_path (mgroup 2 m) = Some file_path ->
  forall depth, process_file fs depth file_path = None.
Proof.
  intros Hread Hsplit Hb Hc Hs Hp depth.
  induction depth as [|depth IH]; [reflexivity|].
  cbn [process_file]. rewrite Hread, Hsplit, process_lines_raises; [reflexivity|].
  unfold process_line. rewrite Hb, Hc, Hs, Hp, (read_text_exists _ _ _ Hread), IH.
  reflexivity.
Qed.

Lemma self_include_never_returns_witness :
  process_file [(str "main.tex", File (str "a" ++ [NL] ++ str " \input{main}"))]
    7 (str "main.tex") = None.
Proof.
  refine (self_include_never_returns
            [(str "main.tex", File (str "a" ++ [NL] ++ str " \input{main}"))]
            (str "main.tex") (str "a" ++ [NL] ++ str " \input{main}")
            [str "a"] (str " \input{main}") []
            (str " ") (MObj (str "\input{main}") [(2, str "main"); (1, str "input")]) []
            _ _ _ _ _ _ 7); vm_compute; reflexivity.
Defined.

Definition missing_warning (l : text) : Prop :=
  exists target, l = str "Warning: Could not find included file: " ++ target.

Lemma process_lines_kept_warned fs recur path lines :
  (forall l, In l lines ->
     exists w, process_line fs recur path l = Some ([l], w) /\
               Forall missing_warning w) ->
  exists w, process_lines fs recur path lines = Some (lines, w) /\
            Forall missing_warning w.
Proof.
  induction lines as [|l lines IH]; intros H.
  - exists []. split; [reflexivity|constructor].
  - destruct (H l (or_introl eq_refl)) as (w1 & E1 & F1).
    destruct IH as (w2 & E2 & F2); [intros x Hx; apply H; now right|].
    exists (w1 ++ w2). cbn [process_lines]. rewrite E1, E2. split; [reflexivity|].
    apply Forall_app. now split.
Qed.

(** When every include command of a file names a path, and none of these
    paths exists, the text returned is the transliterated content, with no
    line changed, added or lost, and every line printed is a warning about
    a missing file.  (A command that names no path, as [\input{}] does in a
    file of the working directory, raises [ValueError] instead.) *)
Theorem missing_includes_are_kept fs depth file_path content :
  read_text fs file_path = Some content ->
  (forall line pre m rest,
     In line (split NL (transform_accents content)) ->
     is_blank line = false -> is_commented line = false ->
     search include_re line = Some (pre, m, rest) ->
     exists target,
       include_path file_path (mgroup 2 m) = Some target /\
       path_exists fs target = false) ->
  exists printed,
    process_file fs (S depth) file_path = Some (transform_accents content, printed) /\
    Forall missing_warning printed.
Proof.
  intros Hread Hmiss. cbn [process_file]. rewrite Hread.
  destruct (process_lines_kept_warned fs (process_file fs depth) file_path
              (split NL (transform_accents content))) as (w & E & F).
  - intros l Hl. unfold process_line.
    destruct (is_blank l) eqn:Hb; [exists []; split; [reflexivity|constructor]|].
    destruct (is_commented l) eqn:Hc; [exists []; split; [reflexivity|constructor]|].
    destruct (search include_re l) as [[[pre m] rest]|] eqn:Hs;
      [|exists []; split; [reflexivity|constructor]].
    destruct (Hmiss l pre m rest Hl Hb Hc Hs) as (target & -> & ->).
    eexists. split; [reflexivity|]. constructor; [|constructor]. eexists. reflexivity.
  - exists w. rewrite E, join_split. now split.
Qed.

Lemma missing_includes_are_kept_witness :
  exists printed,
    process_file [(str "main.tex", File (str "a \input{b} c" ++ [NL; 233%N]))]
      1 (str "main.tex")
    = Some (transform_accents (str "a \input{b} c" ++ [NL; 233%N]), printed) /\
    Forall missing_warning printed.
Proof.
  apply missing_includes_are_kept; [reflexivity|].
  intros line pre m rest [<-|[<-|[]]] _ _ H; vm_compute in H.
  - injection H as _ <- _. exists (str "b.tex"). split; reflexivity.
  - discriminate H.
Defined.

(** *** More on reorder_bibliography *)

Lemma dict_set_keys k v d :
  map fst (dict_set k v d) =
  if mem k (map fst d) then map fst d else map fst d ++ [k].
Proof.
  induction d as [|[k' v'] d IH]; [reflexivity|].
  cbn [dict_set map fst mem existsb] in *.
  destruct (text_eqb k' k) eqn:E.
  - apply text_eqb_eq in E. subst k'. rewrite text_eqb_refl. reflexivity.
  - assert (E' : text_eqb k k' = false).
    { destruct (text_eqb k k') eqn:E'; [|reflexivity].
      apply text_eqb_eq in E'. subst. now rewrite text_eqb_refl in E. }
    rewrite E'. cbn [orb map fst]. rewrite IH.
    unfold mem. now destruct (existsb (text_eqb k) (map fst d)).
Qed.

Lemma dict_get_set k v d k' :
  dict_get k' (dict_set k v d) = if text_eqb k k' then Some v else dict_get k' d.
Proof.
  induction d as [|[k0 v0] d IH]; cbn [dict_set dict_get]; [reflexivity|].
  destruct (text_eqb k0 k) eqn:E.
  - apply text_eqb_eq in E. subst k0. cbn [dict_get]. now destruct (text_eqb k k').
  - cbn [dict_get]. rewrite IH. destruct (text_eqb k0 k') eqn:E0; [|reflexivity].
    apply text_eqb_eq in E0. subst k0.
    destruct (text_eqb k k') eqn:E1; [|reflexivity].
    apply text_eqb_eq in E1. subst k'. now rewrite text_eqb_refl in E.
Qed.

Lemma dedup_from_seen l : forall s s',
  (forall x, In x s <-> In x s') -> dedup_from s l = dedup_from s' l.
Proof.
  induction l as [|x l IH]; intros s s' H; [reflexivity|]. cbn [dedup_from].
  assert (E : mem x s = mem x s').
  { destruct (mem x s) eqn:A, (mem x s') eqn:B; try reflexivity.
    - apply mem_In, H, mem_In in A. congruence.
    - apply mem_In, H, mem_In in B. congruence. }
  rewrite <- E. destruct (mem x s); [now apply IH|]. f_equal. apply IH.
  intros y. cbn [In]. now rewrite H.
Qed.

Definition entry (m : mobj) : text * text := (mgroup 1 m, strip (mgroup 2 m)).

Lemma fold_dict_keys (kvs : list (text * text)) : forall d,
  map fst (fold_left (fun d kv => dict_set (fst kv) (snd kv) d) kvs d)
  = map fst d ++ dedup_from (map fst d) (map fst kvs).
Proof.
  induction kvs as [|[k v] kvs IH]; intros d; cbn [fold_left map fst snd dedup_from].
  - now rewrite app_nil_r.
  - rewrite IH, dict_set_keys. destruct (mem k (map fst d)) eqn:E; [reflexivity|].
    rewrite <- app_assoc. cbn [app]. do 2 f_equal. apply dedup_from_seen.
    intros x. rewrite in_app_iff. cbn [In]. tauto.
Qed.

Lemma find_app_first {A} (f : A -> bool) a b :
  find f (a ++ b) = match find f a with Some x => Some x | None => find f b end.
Proof.
  induction a as [|x a IH]; [reflexivity|]. cbn [app find]. now destruct (f x).
Qed.

Lemma fold_dict_get (kvs : list (text * text)) k : forall d,
  dict_get k (fold_left (fun d kv => dict_set (fst kv) (snd kv) d) kvs d)
  = match find (fun kv => text_eqb (fst kv) k) (rev kvs) with
    | Some kv => Some (snd kv)
    | None => dict_get k d
    end.
Proof.
  induction kvs as [|[k0 v0] kvs IH]; intros d; cbn [fold_left rev fst snd].
  - reflexivity.
  - rewrite IH, find_app_first.
    destruct (find (fun kv => text_eqb (fst kv) k) (rev kvs)); [reflexivity|].
    cbn [find fst snd]. rewrite dict_get_set. now destruct (text_eqb k0 k).
Qed.

Lemma bibitem_dict_fold bbl :
  bibitem_dict bbl =
  fold_left (fun d kv => dict_set (fst kv) (snd kv) d)
            (map entry (finditer bibitem_re bbl)) [].
Proof.
  unfold bibitem_dict. generalize (@nil (text * text)).
  induction (finditer bibitem_re bbl) as [|m ms IH]; intros d; [reflexivity|].
  cbn [fold_left map]. apply IH.
Qed.

Lemma bibitem_dict_spec bbl :
  let found := map entry (finditer bibitem_re bbl) in
  map fst (bibitem_dict bbl) = dedup_from [] (map fst found) /\
  NoDup (map fst (bibitem_dict bbl)) /\
  forall k, dict_get k (bibitem_dict bbl) =
            option_map snd (find (fun kv => text_eqb (fst kv) k) (rev found)).
Proof.
  intros found. rewrite bibitem_dict_fold. fold found.
  rewrite fold_dict_keys. cbn [map app]. repeat split.
  - apply dedup_from_NoDup.
  - intros k. rewrite fold_dict_get.
    now destruct (find (fun kv => text_eqb (fst kv) k) (rev found)).
Qed.

(** The entries read from a bibliography: the keys stand in the order of
    their first [\bibitem], none twice, and a key met more than once keeps
    the body of its last [\bibitem]. *)
Theorem bibitem_dict_first_place_last_body bbl :
  let found := map entry (finditer bibitem_re bbl) in
  map fst (bibitem_dict bbl) = dedup_from [] (map fst found) /\
  NoDup (map fst (bibitem_dict bbl)) /\
  forall k, dict_get k (bibitem_dict bbl) =
            option_map snd (find (fun kv => text_eqb (fst kv) k) (rev found)).
Proof. apply bibitem_dict_spec. Qed.

Lemma dict_keys_get (d : dict) k : has_entry d k = true <-> In k (map fst d).
Proof.
  unfold has_entry. induction d as [|[k' v] d IH]; cbn [dict_get map fst In].
  - split; [discriminate|tauto].
  - destruct (text_eqb k' k) eqn:E.
    + apply text_eqb_eq in E. split; auto.
    + rewrite IH. split; [tauto|]. intros [->|H]; [|exact H].
      now rewrite text_eqb_refl in E.
Qed.

Lemma NoDup_filter {A} (f : A -> bool) l : NoDup l -> NoDup (filter f l).
Proof.
  induction 1 as [|x l Hx _ IH]; cbn [filter]; [constructor|].
  destruct (f x); [|exact IH]. constructor; [|exact IH].
  intros H. apply filter_In in H. tauto.
Qed.

(** The rebuilt bibliography lists no key twice, with or without
    renumbering, however often the document cites a key and however often
    the generated bibliography defines it. *)
Theorem rebuilt_bibliography_lists_each_key_once fix_reference_numbers bbl content :
  NoDup (map item_key
           (ordered_items fix_reference_numbers (bibitem_dict bbl)
              (cited_keys content))).
Proof.
  assert (Plain : NoDup (map item_key
            (map (fun kv : text * text => (@None nat, fst kv, snd kv))
                 (bibitem_dict bbl)))).
  { rewrite map_map. cbn [item_key fst snd].
    apply (proj1 (proj2 (bibitem_dict_spec bbl))). }
  unfold ordered_items.
  destruct fix_reference_numbers; [|exact Plain].
  destruct (cited_keys content) as [|c cs] eqn:E; [exact Plain|].
  change (NoDup (map item_key (numbered_from 1 (bibitem_dict bbl) (c :: cs)))).
  rewrite numbered_keys, <- E. apply NoDup_filter. apply dedup_from_NoDup.
Qed.

(** *** More on process_bibliography and copy_bibliography *)

Lemma lang_cite w : lang cite_re w -> occurs (str "\cite{") w.
Proof.
  unfold cite_re. rewrite lang_Seq_cons. intros (u & v & -> & Hu & _).
  apply lang_Lit in Hu. subst u. now exists [], v.
Qed.

Lemma lang_bibliography_cmd w :
  lang bibliography_cmd_re w -> occurs (str "\bibliography{") w.
Proof.
  unfold bibliography_cmd_re. rewrite lang_Seq_cons. intros (u & v & -> & Hu & _).
  apply lang_Lit in Hu. subst u. now exists [], v.
Qed.

Lemma lang_bibliography_files w :
  lang bibliography_files_re w -> occurs (str "\bibliography{") w.
Proof.
  unfold bibliography_files_re. rewrite lang_Seq_cons. intros (u & v & -> & Hu & _).
  apply lang_Lit in Hu. subst u. now exists [], v.
Qed.

Lemma lang_spaced_bibliography w :
  lang spaced_bibliography_re w -> occurs (str "\bibliography{") w.
Proof.
  unfold spaced_bibliography_re. rewrite lang_Seq_cons.
  intros (u & v & -> & _ & Hv). rewrite lang_Seq_cons in Hv.
  destruct Hv as (u' & v' & -> & Hu & _). apply lang_Lit in Hu. subst u'.
  now exists u, v'.
Qed.

(** In a document without [\cite{] no key is cited, and the bibliography is
    flattened the same way with and without renumbering. *)
Theorem renumbering_needs_a_citation generated content :
  ~ occurs (str "\cite{") content ->
  cited_keys content = [] /\
  process_bibliography true generated content =
  process_bibliography false generated content.
Proof.
  intros H.
  assert (E : cited_keys content = []).
  { unfold cited_keys. rewrite finditer_unmatched; [reflexivity|].
    apply (unmatched_without _ (str "\cite{")); [apply lang_cite|exact H]. }
  split; [exact E|]. unfold process_bibliography, reorder_bibliography.
  rewrite E. reflexivity.
Qed.

Lemma renumbering_needs_a_citation_witness :
  cited_keys (str "\nocite{*}\bibliography{refs}") = [] /\
  process_bibliography true (str "\begin{thebibliography}{1}\bibitem{a}A\end{thebibliography}")
    (str "\nocite{*}\bibliography{refs}") =
  process_bibliography false (str "\begin{thebibliography}{1}\bibitem{a}A\end{thebibliography}")
    (str "\nocite{*}\bibliography{refs}").
Proof.
  apply renumbering_needs_a_citation.
  intros H. apply occursb_complete in H. vm_compute in H. discriminate H.
Defined.

(** A document without [\bibliography{] goes through both treatments of the
    bibliography unchanged: nothing is generated into it, nothing is copied
    or printed for it. *)
Theorem no_bibliography_command_no_change
    fix_reference_numbers generated project_dir output_dir fs content :
  ~ occurs (str "\bibliography{") content ->
  process_bibliography fix_reference_numbers generated content = (content, []) /\
  copy_bibliography project_dir output_dir fs content = Some (content, fs, []).
Proof.
  intros H. split.
  - unfold process_bibliography. rewrite search_unmatched; [reflexivity|].
    apply (unmatched_without _ (str "\bibliography{"));
      [apply lang_bibliography_cmd|exact H].
  - unfold copy_bibliography. rewrite finditer_unmatched; [reflexivity|].
    apply (unmatched_without _ (str "\bibliography{"));
      [apply lang_bibliography_files|exact H].
Qed.

Lemma rep_greedy_total p (k : kont) :
  (forall s g, k s g <> None) -> forall s g, rep_greedy p k s g <> None.
Proof.
  intros Hk s g. induction s as [|c s IH]; cbn [rep_greedy]; [apply Hk|].
  destruct (p c); [|apply Hk]. destruct (rep_greedy p k s g); [discriminate|apply Hk].
Qed.

Lemma forallb_dot x : ~ In NL x -> forallb dot x = true.
Proof.
  induction x as [|c x IH]; intros H; [reflexivity|]. cbn [forallb].
  rewrite IH by (intros F; apply H; now right).
  unfold dot. destruct (N.eqb c NL) eqn:E; [|reflexivity].
  apply N.eqb_eq in E. subst c. exfalso. apply H. now left.
Qed.

Lemma match_at_bibliography_cmd x b :
  ~ In NL x ->
  match_at bibliography_cmd_re false (str "\bibliography{" ++ x ++ str "}" ++ b) <> None.
Proof.
  intros Hx. unfold match_at.
  destruct (run bibliography_cmd_re _ _ []) as [[rest g]|] eqn:R; [discriminate|].
  exfalso. revert R. unfold bibliography_cmd_re. cbn [Seq fold_right run].
  rewrite run_Lit. apply rep_lazy_complete; [now apply forallb_dot|].
  cbn. discriminate.
Qed.

Lemma rep_greedy_command (k : kont) t g :
  rep_greedy ws k (str "\bibliography{" ++ t) g = k (str "\bibliography{" ++ t) g.
Proof. reflexivity. Qed.

Lemma match_at_spaced_bibliography x b :
  ~ In NL x ->
  match_at spaced_bibliography_re false (str "\bibliography{" ++ x ++ str "}" ++ b)
  <> None.
Proof.
  intros Hx. unfold match_at.
  destruct (run spaced_bibliography_re _ _ []) as [[rest g]|] eqn:R; [discriminate|].
  exfalso. revert R. unfold spaced_bibliography_re.
  cbn [Seq fold_right]. cbn [run].
  rewrite rep_greedy_command, run_Lit.
  apply rep_lazy_complete; [now apply forallb_dot|].
  change (str "}" ++ b) with (125%N :: b). cbv beta iota.
  change (125 =? 125)%N with true. cbv iota.
  apply rep_greedy_total. intros s g. unfold accept. cbn [andb]. discriminate.
Qed.

(** With a [\bibliography{...}] command on one line and a bibliography
    generated, the content returned holds the rebuilt bibliography, and
    nothing is printed. *)
Theorem bibliography_command_is_replaced
    fix_reference_numbers generated content before names after :
  content = before ++ str "\bibliography{" ++ names ++ str "}" ++ after ->
  ~ In NL names ->
  generated <> [] ->
  exists new_content,
    process_bibliography fix_reference_numbers generated content = (new_content, []) /\
    occurs (reorder_bibliography fix_reference_numbers generated (cited_keys content))
      new_content.
Proof.
  intros Hc Hx Hg. unfold process_bibliography.
  pose proof (search_found bibliography_cmd_re before _
                (match_at_bibliography_cmd names after Hx)) as F1.
  pose proof (search_found spaced_bibliography_re before _
                (match_at_spaced_bibliography names after Hx)) as F2.
  rewrite <- Hc in F1, F2.
  destruct (search bibliography_cmd_re content) as [x|]; [|congruence].
  destruct generated as [|g0 generated]; [congruence|].
  destruct (search spaced_bibliography_re content) as [[[pre m] rest]|] eqn:S;
    [|congruence].
  eexists. split; [reflexivity|].
  apply search_sound in S. destruct S as (E & L & _). cbn [mgroup].
  eapply occurs_trans; [|apply replace_occurs].
  - exists (match group 1 (caps m) with Some t => t | None => [] end),
           (match group 2 (caps m) with Some t => t | None => [] end).
    reflexivity.
  - apply lang_spaced_bibliography in L. destruct L as (p & q & Hw).
    rewrite Hw. now destruct p.
  - now exists pre, rest.
Qed.

Lemma bibliography_command_is_replaced_witness :
  exists new_content,
    process_bibliography true (str "\begin{thebibliography}{1}\bibitem{a}A\end{thebibliography}")
      (str "\cite{a} \bibliography{refs} x") = (new_content, []) /\
    occurs (reorder_bibliography true
              (str "\begin{thebibliography}{1}\bibitem{a}A\end{thebibliography}")
              (cited_keys (str "\cite{a} \bibliography{refs} x")))
      new_content.
Proof.
  apply (bibliography_command_is_replaced true _ _ (str "\cite{a} ") (str "refs") (str " x")).
  - reflexivity.
  - vm_compute. intuition discriminate.
  - discriminate.
Defined.

(** *** Only copies are added *)

Definition only_copies (fs fs' : fsys) : Prop :=
  forall p n, lookup p fs' = Some n ->
    lookup p fs = Some n \/
    (lookup p fs = None /\
     exists q c, n = File c /\ lookup q fs = Some (File c)).

Lemma only_copies_refl fs : only_copies fs fs.
Proof. intros p n H. now left. Qed.

Lemma only_copies_trans a b c :
  extends a b -> only_copies a b -> only_copies b c -> only_copies a c.
Proof.
  intros Hext Hab Hbc p n H. destruct (Hbc p n H) as [Hb|(Hb & q & cc & -> & Hq)].
  - now apply Hab.
  - right. split.
    + destruct (lookup p a) as [n0|] eqn:Ha; [|reflexivity].
      apply Hext in Ha. congruence.
    + destruct (Hab q _ Hq) as [Ha|(_ & q' & c' & E & Hq')]; eauto.
Qed.

Lemma lookup_cons p q n fs :
  lookup p ((q, n) :: fs) = if text_eqb q p then Some n else lookup p fs.
Proof. reflexivity. Qed.

Lemma copy_bib_file_only_copies pd od st f st' :
  copy_bib_file pd od st f = Some st' -> only_copies (files st) (files st').
Proof.
  unfold copy_bib_file.
  destruct (find _ _) as [bib_path|]; [|intros H; injection H as <-; apply only_copies_refl].
  destruct (get_unique_filename_spec (files st)
              (joinpath od (if text_eqb (suffix bib_path) (str ".bib")
                            then name bib_path else name bib_path ++ str ".bib")))
    as (p0 & -> & Hfree & _).
  unfold shutil_copy.
  destruct (lookup bib_path (files st)) as [[c|]|] eqn:Hsrc; try discriminate.
  intros H. injection H as <-. cbn [files]. intros p n. rewrite lookup_cons.
  destruct (text_eqb p0 p) eqn:E.
  - apply text_eqb_eq in E. subst p0. intros H. injection H as <-. right. split.
    + unfold path_exists in Hfree. now destruct (lookup p (files st)).
    + eauto.
  - now left.
Qed.

Lemma copy_bib_files_only_copies pd od : forall l st st',
  copy_bib_files pd od st l = Some st' -> only_copies (files st) (files st').
Proof.
  induction l as [|f l IH]; cbn [copy_bib_files]; intros st st' H.
  - injection H as <-. apply only_copies_refl.
  - destruct (copy_bib_file pd od st f) as [st1|] eqn:E; [|discriminate].
    eapply only_copies_trans.
    + eapply copy_bib_file_extends, E.
    + eapply copy_bib_file_only_copies, E.
    + eapply IH, H.
Qed.

Lemma copy_bib_match_only_copies pd od c fs out m c' fs' out' :
  copy_bib_match pd od (c, fs, out) m = Some (c', fs', out') -> only_copies fs fs'.
Proof.
  unfold copy_bib_match.
  destruct (copy_bib_files pd od _ _) as [st|] eqn:E; [|discriminate].
  apply copy_bib_files_only_copies in E. cbn [files] in E.
  destruct (renamed_files st); intros H; injection H as _ <- _; exact E.
Qed.

Lemma copy_bib_matches_only_copies pd od : forall ms c fs out c' fs' out',
  copy_bib_matches pd od (c, fs, out) ms = Some (c', fs', out') -> only_copies fs fs'.
Proof.
  induction ms as [|m ms IH]; cbn [copy_bib_matches]; intros c fs out c' fs' out' H.
  - injection H as _ <- _. apply only_copies_refl.
  - destruct (copy_bib_match pd od (c, fs, out) m) as [[[c1 fs1] out1]|] eqn:E;
      [|discriminate].
    eapply only_copies_trans.
    + eapply copy_bib_match_extends, E.
    + eapply copy_bib_match_only_copies, E.
    + eapply IH, H.
Qed.

(** Whatever [copy_bibliography] adds to the file system is a copy: a path
    bound afterwards was bound to the same thing before, or was free and now
    holds the content of a file that was there before. *)
Theorem copy_bibliography_only_copies
    project_dir output_dir fs content content' fs' out :
  copy_bibliography project_dir output_dir fs content = Some (content', fs', out) ->
  forall p n, lookup p fs' = Some n ->
    lookup p fs = Some n \/
    (lookup p fs = None /\
     exists q c, n = File c /\ lookup q fs = Some (File c)).
Proof. apply copy_bib_matches_only_copies. Qed.

Lemma copy_bibliography_only_copies_witness :
  lookup (str "proj/refs.bib") [(str "proj/refs.bib", File (str "@book{k}"))]
    = Some (File (str "@book{k}")) \/
  (lookup (str "proj/refs.bib") [(str "proj/refs.bib", File (str "@book{k}"))] = None /\
   exists q c, File (str "@book{k}") = File c /\
     lookup q [(str "proj/refs.bib", File (str "@book{k}"))] = Some (File c)).
Proof.
  refine (copy_bibliography_only_copies (str "proj") (str "out")
            [(str "proj/refs.bib", File (str "@book{k}"))]
            (str "\bibliography{refs}") _ _ _ _ (str "proj/refs.bib") _ _).
  - vm_compute. reflexivity.
  - vm_compute. reflexivity.
Defined.

(** *** What generate_bbl_content returns *)

Section Returns.

Context {R : Type}.

Definition returns {A} (P : A -> Prop) (m : action R A) : Prop :=
  forall w a w', m w = (Ok a, w') -> P a.

Lemma returns_ret {A} (P : A -> Prop) a : P a -> returns P (ret (R := R) a).
Proof. intros H w a' w' E. injection E as <- _. exact H. Qed.

Lemma returns_bind {A B} (P : B -> Prop) (m : action R A) (f : A -> action R B) :
  (forall a, returns P (f a)) -> returns P (bind m f).
Proof.
  intros H w b w'. unfold bind. destruct (m w) as [[a|e] w1]; [apply H|discriminate].
Qed.

Lemma returns_try_finally {A} (P : A -> Prop) (body : action R A) final :
  returns P body -> returns P (try_finally body final).
Proof.
  intros H w a w'. unfold try_finally. destruct (body w) as [r w1] eqn:E.
  destruct (final w1) as [[u|e] w2]; [|discriminate].
  intros E'. injection E' as -> _. eapply H, E.
Qed.

Lemma returns_try_except {A} (P : A -> Prop) (body : action R A) exc handler :
  returns P body -> returns P handler -> returns P (try_except body exc handler).
Proof.
  intros Hb Hh w a w'. unfold try_except. destruct (body w) as [[x|e] w1] eqn:E.
  - intros E'. injection E' as <- _. eapply Hb, E.
  - destruct (text_eqb e exc); [apply Hh|discriminate].
Qed.

End Returns.

Lemma lang_thebibliography w :
  lang thebibliography_re w -> exists x, w = BEGIN ++ x ++ END.
Proof.
  unfold thebibliography_re. rewrite lang_Seq_cons. intros (u & v & -> & Hu & Hv).
  apply lang_Lit in Hu. subst u. rewrite lang_Seq_cons in Hv.
  destruct Hv as (x & v' & -> & _ & Hv). rewrite lang_Seq_cons in Hv.
  destruct Hv as (e & z & -> & He & Hz). apply lang_Lit in He.
  cbn [Seq fold_right lang] in Hz. subst e z. exists x. now rewrite app_nil_r.
Qed.

Section GenerateMore.

Variable R : Type.
Variable temporary_directory : text -> R -> res text * R.
Variable cleanup : text -> text -> R -> res unit * R.
Variable copytree : text -> text -> text -> R -> res unit * R.
Variable setenv : text -> text -> text -> R -> res unit * R.
Variable system : text -> text -> R -> res nat * R.
Variable exists_file : text -> text -> R -> res bool * R.
Variable read_file : text -> text -> R -> res text * R.
Variables project_dir tex_name tex_stem : text.

(** Whatever the programs run and the files hold, a call of
    [generate_bbl_content] that returns gives the empty text or one
    bibliography environment, from its begin marker to an end marker. *)
Theorem generate_bbl_content_returns_environment (w w' : world R) bbl :
  generate_bbl_content R temporary_directory cleanup copytree setenv
    system exists_file read_file project_dir tex_name tex_stem w = (Ok bbl, w') ->
  bbl = [] \/ exists x, bbl = BEGIN ++ x ++ END.
Proof.
  revert w bbl w'.
  change (returns (fun bbl => bbl = [] \/ exists x, bbl = BEGIN ++ x ++ END)
            (generate_bbl_content R temporary_directory cleanup copytree setenv
               system exists_file read_file project_dir tex_name tex_stem)).
  unfold generate_bbl_content, with_temporary_directory, compile_and_read.
  apply returns_bind. intros temp_dir. apply returns_try_finally.
  apply returns_bind. intros _. apply returns_bind. intros original_dir.
  apply returns_bind. intros _. apply returns_try_finally.
  do 5 (apply returns_bind; intros _).
  apply returns_bind. intros [|]; [|apply returns_ret; now left].
  apply returns_try_except.
  - apply returns_bind. intros content.
    destruct (search thebibliography_re content) as [[[pre m] rest]|] eqn:S;
      apply returns_ret; [|now left].
    right. apply search_sound in S. destruct S as (_ & L & _).
    apply lang_thebibliography in L. exact L.
  - apply returns_bind. intros _. apply returns_ret. now left.
Qed.

End GenerateMore.

(** *** A line with an include command *)

Lemma lstrip_spaces ind c s :
  forallb isspace ind = true -> isspace c = false -> lstrip (ind ++ c :: s) = c :: s.
Proof.
  intros Hi Hc. induction ind as [|x ind IH]; cbn [app lstrip].
  - now rewrite Hc.
  - cbn [forallb] in Hi. apply andb_true_iff in Hi. destruct Hi as [Hx Hi].
    rewrite Hx. now apply IH.
Qed.

Lemma lstrip_empty t : lstrip t = [] -> forallb isspace t = true.
Proof.
  induction t as [|c t IH]; [reflexivity|]. cbn [lstrip forallb].
  destruct (isspace c); [exact IH|discriminate].
Qed.

Lemma rstrip_nonempty c s : isspace c = false -> rstrip (c :: s) <> [].
Proof.
  intros Hc H. unfold rstrip in H.
  assert (E : lstrip (rev (c :: s)) = []).
  { destruct (lstrip (rev (c :: s))) as [|y l]; [reflexivity|].
    cbn [rev] in H. now destruct (rev l). }
  apply lstrip_empty in E. rewrite forallb_forall in E.
  specialize (E c). rewrite <- in_rev in E. rewrite E in Hc; [discriminate|now left].
Qed.

Lemma search_skip r pre s :
  (forall c t, In c pre -> match_at r false (c :: t) = None) ->
  search r (pre ++ s) =
  match search r s with
  | Some (p, m, rest) => Some (pre ++ p, m, rest)
  | None => None
  end.
Proof.
  induction pre as [|c pre IH]; intros H; cbn [app].
  - now destruct (search r s) as [[[p m] rest]|].
  - cbn [search]. rewrite (H c (pre ++ s)) by now left.
    rewrite IH by (intros x t Hx; apply H; now right).
    now destruct (search r s) as [[[p m] rest]|].
Qed.

Lemma match_at_include_start c t :
  c <> BSL -> match_at include_re false (c :: t) = None.
Proof.
  intros Hc. unfold match_at, include_re. cbn [Seq fold_right run].
  apply N.eqb_neq in Hc. now rewrite Hc.
Qed.

(** A lazy group up to the first [c]. *)
Lemma run_group_until n p c (K : kont) w s g res :
  forallb p w = true -> ~ In c w ->
  K s (set_group n w g) = Some res ->
  run (Grp n (Rep true p)) (run (Chr c) K) (w ++ c :: s) g = Some res.
Proof.
  intros Hp Hc HK. cbn [run]. apply rep_lazy_exact; [exact Hp| |].
  - intros w1 [|x w2] E Hne; [congruence|]. cbn [app].
    destruct (N.eqb x c) eqn:Ex; [|reflexivity].
    apply N.eqb_eq in Ex. subst x. exfalso. apply Hc. rewrite E.
    apply in_or_app. right. now left.
  - rewrite N.eqb_refl, firstn_app_exact. exact HK.
Qed.

Lemma run_input (k : kont) t g :
  run (Alt (Lit (str "input")) (Lit (str "include"))) k (str "input" ++ t) g
  = match k t g with
    | Some x => Some x
    | None => run (Lit (str "include")) k (str "input" ++ t) g
    end.
Proof. cbn [run]. now rewrite run_Lit. Qed.

Lemma run_include (k : kont) t g :
  run (Alt (Lit (str "input")) (Lit (str "include"))) k (str "include" ++ t) g
  = k t g.
Proof.
  cbn [run]. rewrite run_Lit.
  change (run (Lit (str "input")) k (str "include" ++ t) g) with (@None (text * groups)).
  reflexivity.
Qed.

Lemma run_Cat a b k s g : run (Cat a b) k s g = run a (run b k) s g.
Proof. reflexivity. Qed.

Lemma run_Chr_cons c (k : kont) t g : run (Chr c) k (c :: t) g = k t g.
Proof. cbn [run]. now rewrite N.eqb_refl. Qed.

Lemma run_Grp n a (k : kont) s g :
  run (Grp n a) k s g =
  run a (fun s' g' => k s' (set_group n (firstn (length s - length s') s) g')) s g.
Proof. reflexivity. Qed.

Lemma run_include_re (K : kont) cmd f b g :
  cmd = str "input" \/ cmd = str "include" ->
  ~ In 125%N f -> ~ In NL f ->
  (forall g', K b g' = Some (b, g')) ->
  exists g',
    run include_re K (BSL :: cmd ++ str "{" ++ f ++ str "}" ++ b) g
    = Some (b, set_group 2 f g').
Proof.
  intros Hcmd Hf Hn HK.
  assert (G2 : forall g,
    run (Grp 2 (Rep true dot)) (run (Chr 125%N) K) (f ++ 125%N :: b) g
    = Some (b, set_group 2 f g)).
  { intros g0. apply run_group_until; [now apply forallb_dot|exact Hf|apply HK]. }
  unfold include_re. cbn [Seq fold_right].
  rewrite run_Cat, run_Chr_cons, run_Cat, run_Grp.
  change (str "{" ++ f ++ str "}" ++ b) with (123%N :: f ++ 125%N :: b).
  destruct Hcmd as [-> | ->].
  - rewrite run_input. rewrite run_Cat, run_Chr_cons, run_Cat.
    change (run (Cat (Chr 125%N) Eps) K) with (run (Chr 125%N) K).
    rewrite G2. eexists. reflexivity.
  - rewrite run_include. rewrite run_Cat, run_Chr_cons, run_Cat.
    change (run (Cat (Chr 125%N) Eps) K) with (run (Chr 125%N) K).
    rewrite G2. eexists. reflexivity.
Qed.

Lemma match_at_include cmd f b :
  cmd = str "input" \/ cmd = str "include" ->
  ~ In 125%N f -> ~ In NL f ->
  exists m,
    match_at include_re false (BSL :: cmd ++ str "{" ++ f ++ str "}" ++ b) = Some (m, b)
    /\ mgroup 2 m = f.
Proof.
  intros Hcmd Hf Hn. unfold match_at.
  destruct (run_include_re
              (accept false (BSL :: cmd ++ str "{" ++ f ++ str "}" ++ b))
              cmd f b [] Hcmd Hf Hn) as (g & ->); [reflexivity|].
  eexists. split; [reflexivity|]. reflexivity.
Qed.

(** A line that holds an include command whose path, as [pathlib] computes
    it, is that of a file that exists, is replaced as a whole: the lines of
    the included file take its place, each after the indentation of the
    line, and the text before and after the command on that line is
    lost. *)
Theorem include_line_is_replaced_whole
    fs recur file_path indent before cmd included_file after target
    included printed :
  forallb isspace indent = true ->
  isspace (hd BSL before) = false ->
  ~ In BSL before -> ~ In 37%N before ->
  cmd = str "input" \/ cmd = str "include" ->
  ~ In 125%N included_file -> ~ In NL included_file ->
  include_path file_path included_file = Some target ->
  path_exists fs target = true ->
  recur target = Some (included, printed) ->
  process_line fs recur file_path
    (indent ++ before ++ BSL :: cmd ++ str "{" ++ included_file ++ str "}" ++ after)
  = Some (map (fun l => indent ++ l) (split NL included), printed).
Proof.
  intros Hind Hhd Hbsl Hpct Hcmd Hf Hn Hpath Hex Hrec.
  set (tail := BSL :: cmd ++ str "{" ++ included_file ++ str "}" ++ after).
  assert (Hbody : exists c s, before ++ tail = c :: s /\ isspace c = false /\ c <> 37%N).
  { destruct before as [|c before]; cbn [hd app] in *.
    - exists BSL, (cmd ++ str "{" ++ included_file ++ str "}" ++ after).
      repeat split. discriminate.
    - exists c, (before ++ tail). repeat split; [exact Hhd|].
      intros ->. apply Hpct. now left. }
  destruct Hbody as (c & s & Ebody & Hc & Hc37).
  assert (Hl : lstrip (indent ++ before ++ tail) = c :: s)
    by (rewrite Ebody; now apply lstrip_spaces).
  unfold process_line.
  assert (Hb : is_blank (indent ++ before ++ tail) = false).
  { unfold is_blank, strip. rewrite Hl.
    destruct (rstrip (c :: s)) eqn:E; [|reflexivity].
    now apply rstrip_nonempty in E. }
  assert (Hcm : is_commented (indent ++ before ++ tail) = false).
  { unfold is_commented. rewrite Hl. cbn [str startswith].
    apply andb_false_iff. left. apply N.eqb_neq.
    intros E. apply Hc37. rewrite <- E. reflexivity. }
  assert (Hi : indent_of (indent ++ before ++ tail) = indent).
  { unfold indent_of. rewrite Hl, <- Ebody. apply firstn_app_exact. }
  destruct (match_at_include cmd included_file after Hcmd Hf Hn) as (m & Hm & Hg).
  assert (Hs : search include_re (indent ++ before ++ tail)
               = Some (indent ++ before, m, after)).
  { rewrite app_assoc, search_skip.
    - unfold tail. rewrite (search_here _ _ _ _ Hm). now rewrite app_nil_r.
    - intros x t Hx. apply match_at_include_start. apply in_app_or in Hx.
      destruct Hx as [Hx|Hx]; [|congruence].
      apply space_not_backslash. rewrite forallb_forall in Hind. now apply Hind. }
  rewrite Hb, Hcm, Hs, Hi, Hg, Hpath, Hex, Hrec. reflexivity.
Qed.

Lemma include_line_is_replaced_whole_witness :
  process_line [(str "/doc/sub/sec.tex", File (str "x"))]
    (fun _ => Some (str "x" ++ [NL] ++ str "y", []))
    (str "/doc/main.tex")
    (str "  " ++ str "see " ++ BSL :: str "input" ++ str "{" ++ str "./sub//sec"
       ++ str "}" ++ str " % end")
  = Some (map (fun l => str "  " ++ l) (split NL (str "x" ++ [NL] ++ str "y")), []).
Proof.
  apply (include_line_is_replaced_whole _ _ _ _ _ _ _ _ (str "/doc/sub/sec.tex"));
    try reflexivity; try (vm_compute; intuition discriminate).
Defined.

Lemma no_bibliography_command_no_change_witness :
  process_bibliography true (str "\begin{thebibliography}{1}\end{thebibliography}")
    (str "\cite{a} and no list") = (str "\cite{a} and no list", []) /\
  copy_bibliography (str "proj") (str "out") [(str "proj/refs.bib", File [])]
    (str "\cite{a} and no list")
  = Some (str "\cite{a} and no list", [(str "proj/refs.bib", File [])], []).
Proof.
  apply no_bibliography_command_no_change.
  intros H. apply occursb_complete in H. vm_compute in H. discriminate H.
Defined.

Lemma generate_bbl_content_returns_environment_witness :
  str "\begin{thebibliography}{1}\bibitem{a}A\end{thebibliography}" = [] \/
  exists x,
    str "\begin{thebibliography}{1}\bibitem{a}A\end{thebibliography}"
    = BEGIN ++ x ++ END.
Proof.
  apply (generate_bbl_content_returns_environment unit
           (fun _ r => (Ok (str "/tmp/t"), r))
           (fun _ _ r => (Ok tt, r))
           (fun _ _ _ r => (Ok tt, r))
           (fun _ _ _ r => (Ok tt, r))
           (fun _ _ r => (Ok 0, r))
           (fun _ _ r => (Ok true, r))
           (fun _ _ r =>
              (Ok (str "% made by bibtex" ++ [NL] ++
                   str "\begin{thebibliography}{1}\bibitem{a}A\end{thebibliography}" ++ [NL]),
               r))
           (str "proj") (str "main.tex") (str "main")
           (World (str "/home/u") [] tt) (World (str "/home/u") [] tt)).
  vm_compute. reflexivity.
Defined.

(** *** Names of the copied bibliography files *)

Lemma rfind_dot_spec r : forall seen k,
  rfind_dot r seen = Some k ->
  exists a b, r = a ++ DOT :: b /\ b <> [] /\ k = S (seen + length a).
Proof.
  induction r as [|c r IH]; cbn [rfind_dot]; intros seen k H; [discriminate|].
  destruct (N.eqb c DOT) eqn:E.
  - apply N.eqb_eq in E. subst c. destruct r as [|y r]; [discriminate|].
    destruct seen as [|n]; [discriminate|]. injection H as <-.
    exists [], (y :: r). repeat split; [discriminate|cbn [length]; lia].
  - apply IH in H. destruct H as (a & b & -> & Hb & ->).
    exists (c :: a), b. repeat split; [exact Hb|cbn [length]; lia].
Qed.

Lemma rfind_dot_bib s :
  s <> [] -> rfind_dot (rev (s ++ str ".bib")) 0 = Some 4.
Proof.
  intros Hs. rewrite rev_app_distr.
  destruct (rev s) as [|y ys] eqn:E.
  - apply (f_equal (@rev _)) in E. rewrite rev_involutive in E. now subst.
  - reflexivity.
Qed.

Lemma bib_name p s :
  s <> [] -> name p = s ++ str ".bib" -> suffix p = str ".bib" /\ stem p = s.
Proof.
  intros Hs Hn. unfold suffix, stem. rewrite Hn, rfind_dot_bib by exact Hs.
  replace (length (s ++ str ".bib") - 4) with (length s)
    by (rewrite length_app; cbn [length str]; change (length (str ".bib")) with 4; lia).
  split.
  - apply skipn_app_exact.
  - rewrite firstn_app, Nat.sub_diag, firstn_all. apply app_nil_r.
Qed.

Lemma suffix_bib_name p :
  suffix p = str ".bib" -> exists s, s <> [] /\ name p = s ++ str ".bib".
Proof.
  unfold suffix. destruct (rfind_dot (rev (name p)) 0) as [k|] eqn:E; [|discriminate].
  apply rfind_dot_spec in E. destruct E as (a & b & Hr & Hb & ->).
  apply (f_equal (@rev _)) in Hr. rewrite rev_involutive, rev_app_distr in Hr.
  cbn [rev] in Hr. rewrite <- app_assoc in Hr. cbn [app] in Hr.
  rewrite Hr. intros H.
  replace (length (rev b ++ DOT :: rev a) - S (0 + length a)) with (length (rev b)) in H
    by (rewrite length_app; cbn [length]; rewrite !length_rev; lia).
  rewrite skipn_app_exact in H. rewrite H. exists (rev b). split; [|reflexivity].
  intros F. apply Hb. apply (f_equal (@rev _)) in F. now rewrite rev_involutive in F.
Qed.


Definition two_files : copying :=
  Copying [(str "proj/refs", File (str "@book{k}")); (str "out/refs.bib", File [])]
    [] [].


End TexFacts.
